(** * The agent-output parser of [services/case_parser.py]

    A shallow embedding of [parse_agent_output] and of the helpers nested in
    it, with the fragment of Python's [str] methods and of the [re] module
    that the parser calls.  Python strings are sequences of Unicode code
    points; they are modelled as lists of code points. *)

From Stdlib Require Import String Ascii List NArith ZArith Bool Lia.
From ExtLib Require Import Structures.Monad Data.Monads.EitherMonad.
Import ListNotations.
Import MonadNotation.
Local Open Scope monad_scope.

Set Implicit Arguments.

(** ** Code points and string literals *)

Definition char := N.
Definition str := list char.

(** Source literals are written as UTF-8 text and decoded to code points. *)
Fixpoint utf8_decode (bs : list N) (need : nat) (acc : N) : str :=
  match bs with
  | [] => []
  | b :: bs' =>
      match need with
      | O =>
          if (b <? 128)%N then b :: utf8_decode bs' 0 0%N
          else if (b <? 224)%N then utf8_decode bs' 1 (b - 192)%N
          else if (b <? 240)%N then utf8_decode bs' 2 (b - 224)%N
          else utf8_decode bs' 3 (b - 240)%N
      | S O => (acc * 64 + (b - 128))%N :: utf8_decode bs' 0 0%N
      | S n => utf8_decode bs' n (acc * 64 + (b - 128))%N
      end
  end.

Definition py (s : string) : str :=
  utf8_decode (map N_of_ascii (list_ascii_of_string s)) 0 0%N.

Definition chr (s : string) : char := hd 0%N (py s).

Definition LF : char := 10%N.
Definition CR : char := 13%N.
Definition SPACE : char := 32%N.

(** ** Character classes of Python's Unicode database *)

Definition in_range (lo hi c : N) : bool := ((lo <=? c) && (c <=? hi))%N.

(** [str.isspace], which is also [\s] of [re] and the default of
    [str.strip] and [str.split]. *)
Definition isspace (c : char) : bool :=
  in_range 9 13 c || in_range 28 32 c || (c =? 133)%N || (c =? 160)%N
  || (c =? 5760)%N || in_range 8192 8202 c || in_range 8232 8233 c
  || (c =? 8239)%N || (c =? 8287)%N || (c =? 12288)%N.

(** First code points of the runs of ten decimal digits (category Nd). *)
Definition digit_decades : list N :=
  [48; 1632; 1776; 1984; 2406; 2534; 2662; 2790; 2918; 3046; 3174; 3302;
   3430; 3558; 3664; 3792; 3872; 4160; 4240; 6112; 6160; 6470; 6608; 6784;
   6800; 6992; 7088; 7232; 7248; 42528; 43216; 43264; 43472; 43504; 43600;
   44016; 65296; 66720; 68912; 69734; 69872; 69942; 70096; 70384; 70736;
   70864; 71248; 71360; 71472; 71904; 72016; 72784; 73040; 73120; 92768;
   92864; 93008; 123200; 123632; 125264; 130032]%N.

(** [\d] of [re] on [str] patterns: any decimal digit of category Nd
    (the mathematical digits U+1D7CE..U+1D7FF form one run of fifty). *)
Definition isdigit (c : char) : bool :=
  existsb (fun lo => in_range lo (lo + 9) c) digit_decades
  || in_range 120782 120831 c.

(** ** [str] methods *)

Fixpoint str_eqb (a b : str) : bool :=
  match a, b with
  | [], [] => true
  | x :: a', y :: b' => (x =? y)%N && str_eqb a' b'
  | _, _ => false
  end.

Definition mem (c : char) (cs : str) : bool := existsb (N.eqb c) cs.

(** Truthiness of a string: [if s] holds exactly for non-empty [s]. *)
Definition truthy (s : str) : bool :=
  match s with [] => false | _ :: _ => true end.

Fixpoint str_startswith (prefix s : str) : bool :=
  match prefix, s with
  | [], _ => true
  | p :: prefix', x :: s' => (p =? x)%N && str_startswith prefix' s'
  | _ :: _, [] => false
  end.

(** [sub in s]. *)
Fixpoint str_contains (sub s : str) : bool :=
  str_startswith sub s
  || match s with [] => false | _ :: s' => str_contains sub s' end.

Fixpoint lstrip_by (p : char -> bool) (s : str) : str :=
  match s with
  | [] => []
  | x :: s' => if p x then lstrip_by p s' else s
  end.

Definition rstrip_by (p : char -> bool) (s : str) : str :=
  rev (lstrip_by p (rev s)).

Definition strip_by (p : char -> bool) (s : str) : str :=
  rstrip_by p (lstrip_by p s).

(** [s.strip()] and [s.strip(chars)]. *)
Definition str_strip (s : str) : str := strip_by isspace s.
Definition str_strip_chars (chars s : str) : str :=
  strip_by (fun c => mem c chars) s.

(** [s.replace(old, new)] for a non-empty [old]: occurrences are replaced
    from left to right without overlap; [skip] counts the characters of
    the occurrence just replaced that are still to be passed over. *)
Fixpoint replace_from (old new : str) (skip : nat) (s : str) : str :=
  match s with
  | [] => []
  | x :: s' =>
      match skip with
      | S n => replace_from old new n s'
      | O =>
          if str_startswith old s
          then new ++ replace_from old new (length old - 1) s'
          else x :: replace_from old new 0 s'
      end
  end.

Definition str_replace (old new s : str) : str := replace_from old new 0 s.

(** [s.split(sep)] for a one-character separator: always at least one
    piece.  [cur] is the piece being read, reversed. *)
Fixpoint split_from (sep : char) (cur : str) (s : str) : list str :=
  match s with
  | [] => [rev cur]
  | x :: s' =>
      if (x =? sep)%N then rev cur :: split_from sep [] s'
      else split_from sep (x :: cur) s'
  end.

Definition str_split (sep : char) (s : str) : list str := split_from sep [] s.

(** [s.split()]: the maximal runs of non-whitespace characters. *)
Fixpoint words_from (cur : str) (s : str) : list str :=
  match s with
  | [] => match cur with [] => [] | _ => [rev cur] end
  | x :: s' =>
      if isspace x
      then match cur with
           | [] => words_from [] s'
           | _ => rev cur :: words_from [] s'
           end
      else words_from (x :: cur) s'
  end.

Definition str_split_ws (s : str) : list str := words_from [] s.

(** [sep.join(parts)]. *)
Fixpoint str_join (sep : str) (parts : list str) : str :=
  match parts with
  | [] => []
  | [p] => p
  | p :: rest => p ++ sep ++ str_join sep rest
  end.

(** Line boundaries of [str.splitlines]. *)
Definition is_linebreak (c : char) : bool :=
  in_range 10 13 c || in_range 28 30 c || (c =? 133)%N
  || in_range 8232 8233 c.

(** [s.splitlines()]: no piece for the empty tail after a final line
    break; [\r\n] is one boundary ([after_cr] remembers a [\r]). *)
Fixpoint lines_from (cur : str) (after_cr : bool) (s : str) : list str :=
  match s with
  | [] => match cur with [] => [] | _ => [rev cur] end
  | x :: s' =>
      if after_cr && (x =? LF)%N then lines_from [] false s'
      else if is_linebreak x
      then rev cur :: lines_from [] (x =? CR)%N s'
      else lines_from (x :: cur) false s'
  end.

Definition str_splitlines (s : str) : list str := lines_from [] false s.

(** [s[start:stop]] for offsets inside the string. *)
Definition str_slice (s : str) (start stop : nat) : str :=
  firstn (stop - start) (skipn start s).

(** ** The [re] module

    The patterns of the parser repeat single characters only ([\s*], [#+],
    [.+], [.+?], [\d+], a bracket class followed by [+]), so repetition is
    over a character set.  Matching is Python's: backtracking, alternatives
    tried from left to right, greedy repetition longest first, lazy
    repetition shortest first. *)

Inductive regex : Type :=
| Eps
| Chars (cs : char -> bool)
| Cat (r1 r2 : regex)
| Alt (r1 r2 : regex)
| Rep (lazy : bool) (least : nat) (cs : char -> bool)
| Opt (r : regex)
| Group (n : nat) (r : regex)
| Bol (multiline : bool)
| Eol (multiline : bool).

Definition Seq (rs : list regex) : regex := fold_right Cat Eps rs.
Definition Lit (c : char) : regex := Chars (N.eqb c).
Definition Star (cs : char -> bool) : regex := Rep false 0 cs.
Definition Plus (cs : char -> bool) : regex := Rep false 1 cs.
Definition PlusLazy (cs : char -> bool) : regex := Rep true 1 cs.

(** A position in the subject: its offset, the character before it and
    the text after it. *)
Record cursor : Type := Cursor { pos : nat; prev : option char; rest : str }.

Definition start_of (text : str) : cursor := Cursor 0 None text.
Definition step (c : cursor) (x : char) (s : str) : cursor :=
  Cursor (S (pos c)) (Some x) s.

(** Group number, start offset and text of each group that took part. *)
Definition caps := list (nat * (nat * str)).

(** [^]: at the start of the subject, and with MULTILINE after a newline. *)
Definition at_bol (multiline : bool) (c : cursor) : bool :=
  match prev c with
  | None => true
  | Some x => multiline && (x =? LF)%N
  end.

(** [$]: at the end of the subject or before its final newline, and with
    MULTILINE before any newline. *)
Definition at_eol (multiline : bool) (c : cursor) : bool :=
  match rest c with
  | [] => true
  | x :: s => (x =? LF)%N && (multiline || match s with [] => true | _ => false end)
  end.

Section Run.
Variable R : Type.

Definition if_done (least : nat) (k : cursor -> option R) (c : cursor) :=
  match least with O => k c | S _ => None end.

Fixpoint rep_greedy (cs : char -> bool) (least : nat) (c : cursor) (s : str)
    (k : cursor -> option R) {struct s} : option R :=
  match s with
  | x :: s' =>
      if cs x then
        match rep_greedy cs (pred least) (step c x s') s' k with
        | Some r => Some r
        | None => if_done least k c
        end
      else if_done least k c
  | [] => if_done least k c
  end.

Fixpoint rep_lazy (cs : char -> bool) (least : nat) (c : cursor) (s : str)
    (k : cursor -> option R) {struct s} : option R :=
  let more :=
    match s with
    | x :: s' =>
        if cs x then rep_lazy cs (pred least) (step c x s') s' k else None
    | [] => None
    end in
  match if_done least k c with
  | Some r => Some r
  | None => more
  end.

(** [run r c g k]: match [r] at [c] with the groups [g] set so far, and
    hand the position reached to [k]; [None] if every way fails. *)
Fixpoint run (r : regex) (c : cursor) (g : caps)
    (k : cursor -> caps -> option R) : option R :=
  match r with
  | Eps => k c g
  | Chars cs =>
      match rest c with
      | x :: s' => if cs x then k (step c x s') g else None
      | [] => None
      end
  | Cat r1 r2 => run r1 c g (fun c' g' => run r2 c' g' k)
  | Alt r1 r2 =>
      match run r1 c g k with
      | Some res => Some res
      | None => run r2 c g k
      end
  | Rep lazy least cs =>
      (if lazy then rep_lazy else rep_greedy) cs least c (rest c)
        (fun c' => k c' g)
  | Opt r1 =>
      match run r1 c g k with
      | Some res => Some res
      | None => k c g
      end
  | Group n r1 =>
      run r1 c g
        (fun c' g' =>
           k c' ((n, (pos c, firstn (pos c' - pos c) (rest c))) :: g'))
  | Bol m => if at_bol m c then k c g else None
  | Eol m => if at_eol m c then k c g else None
  end.
End Run.

(** A match object: [m.start()], the position of [m.end()], the groups. *)
Record rmatch : Type :=
  Match { m_start : nat; m_stop : cursor; m_caps : caps }.

Definition m_end (m : rmatch) : nat := pos (m_stop m).

Inductive exn : Type :=
| IndexError
| AttributeError
| NoFuel.

Definition M := sum exn.

Fixpoint lookup_group (n : nat) (g : caps) : option str :=
  match g with
  | [] => None
  | (i, (_, s)) :: g' => if Nat.eqb i n then Some s else lookup_group n g'
  end.

(** [m.group(n)] where the result is used as a string: a group that took
    no part is [None], and calling a [str] method on it raises. *)
Definition group (m : rmatch) (n : nat) : M str :=
  match lookup_group n (m_caps m) with
  | Some s => ret s
  | None => inl AttributeError
  end.

(** [pattern.match(text)]: a match at the start of [text] only. *)
Definition re_match (r : regex) (text : str) : option rmatch :=
  run r (start_of text) [] (fun c' g' => Some (Match 0 c' g')).

(** The leftmost match that starts at [c] or later. *)
Fixpoint search_from (r : regex) (c : cursor) (s : str) {struct s}
    : option rmatch :=
  match run r c [] (fun c' g' => Some (Match (pos c) c' g')) with
  | Some m => Some m
  | None =>
      match s with
      | x :: s' => search_from r (step c x s') s'
      | [] => None
      end
  end.

(** [pattern.search(text)]. *)
Definition re_search (r : regex) (text : str) : option rmatch :=
  search_from r (start_of text) text.

(** The successive matches, each searched from the end of the one before.
    Every pattern of the parser consumes at least one character per match;
    [fuel] bounds the number of matches. *)
Fixpoint finditer_from (fuel : nat) (r : regex) (c : cursor)
    : M (list rmatch) :=
  match fuel with
  | O => inl NoFuel
  | S fuel' =>
      match search_from r c (rest c) with
      | None => ret []
      | Some m =>
          ms <- finditer_from fuel' r (m_stop m) ;;
          ret (m :: ms)
      end
  end.

(** [list(pattern.finditer(text))]. *)
Definition re_finditer (r : regex) (text : str) : M (list rmatch) :=
  finditer_from (S (length text)) r (start_of text).

(** The text before, between and after the matches. *)
Fixpoint pieces (text : str) (from : nat) (ms : list rmatch) : list str :=
  match ms with
  | [] => [str_slice text from (length text)]
  | m :: ms' => str_slice text from (m_start m) :: pieces text (m_end m) ms'
  end.

(** [pattern.split(text, maxsplit)] for a pattern without capturing
    groups; [maxsplit = 0] means no limit. *)
Definition re_split (r : regex) (text : str) (maxsplit : nat)
    : M (list str) :=
  ms <- re_finditer r text ;;
  ret (pieces text 0
         (match maxsplit with O => ms | _ => firstn maxsplit ms end)).

(** [pattern.sub(repl, text)] for a replacement without group references. *)
Definition re_sub (r : regex) (repl text : str) : M str :=
  ms <- re_finditer r text ;;
  ret (str_join repl (pieces text 0 ms)).

(** ** Lists and loops *)

(** [l[i]] for a Python [int]: negative indices count from the end, and an
    index outside the list raises [IndexError]. *)
Definition list_get (A : Type) (l : list A) (i : Z) : M A :=
  let n := Z.of_nat (length l) in
  let j := if (i <? 0)%Z then (i + n)%Z else i in
  if (j <? 0)%Z || (n <=? j)%Z then inl IndexError
  else match nth_error l (Z.to_nat j) with
       | Some x => ret x
       | None => inl IndexError
       end.

Definition enumerate (A : Type) (l : list A) : list (nat * A) :=
  combine (seq 0 (length l)) l.

(** A [for] loop whose body updates the state [s] or raises. *)
Fixpoint for_each (A S : Type) (body : S -> A -> M S) (l : list A) (s : S)
    : M S :=
  match l with
  | [] => ret s
  | x :: l' => s' <- body s x ;; for_each body l' s'
  end.

(** A list comprehension whose element expression may raise. *)
Fixpoint map_m (A B : Type) (f : A -> M B) (l : list A) : M (list B) :=
  match l with
  | [] => ret []
  | x :: l' => y <- f x ;; ys <- map_m f l' ;; ret (y :: ys)
  end.

(** [next((i for i, x in enumerate(l) if p x), None)], counting from [i]. *)
Fixpoint find_index_from (A : Type) (p : A -> bool) (i : nat) (l : list A)
    : option nat :=
  match l with
  | [] => None
  | x :: l' => if p x then Some i else find_index_from p (S i) l'
  end.

(** ** The module-level patterns *)

Local Open Scope string_scope.
Local Open Scope list_scope.

(** [.] without DOTALL. *)
Definition dot (c : char) : bool := negb (c =? LF)%N.
Definition hash : char := chr "#".
Definition pipe : char := chr "|".
Definition en_dash : char := 8211%N.
Definition em_dash : char := 8212%N.
Definition hyphen : char := chr "-".
Definition narrow_nbsp : char := 8239%N.

(** Under IGNORECASE a letter of the pattern also matches its other case;
    the letters of the parser's patterns are basic Latin and Cyrillic. *)
Definition other_case (c : char) : char :=
  if in_range 65 90 c || in_range 1040 1071 c then (c + 32)%N
  else if in_range 97 122 c || in_range 1072 1103 c then (c - 32)%N
  else c.

Definition LitI (c : char) : regex :=
  Chars (fun x => (x =? c)%N || (x =? other_case c)%N).

(** [r"^\s*##+\s+(.+)$"], MULTILINE. *)
Definition SECTION_HEADER_RE : regex :=
  Seq [Bol true; Star isspace; Lit hash; Plus (N.eqb hash); Plus isspace;
       Group 1 (Plus dot); Eol true].

(** [r"[\U0001F300-\U0001FAFF\U00002500-\U00002BEF]+"]. *)
Definition emoji (c : char) : bool :=
  in_range 0x1F300 0x1FAFF c || in_range 0x2500 0x2BEF c.
Definition EMOJI_RE : regex := Plus emoji.

(** [r"\*\*(.+?)\*\*\s*[en-dash em-dash -]\s*(.+)"]. *)
Definition SCENARIO_RE : regex :=
  Seq [Lit (chr "*"); Lit (chr "*"); Group 1 (PlusLazy dot);
       Lit (chr "*"); Lit (chr "*"); Star isspace;
       Chars (fun c => mem c [en_dash; em_dash; hyphen]); Star isspace;
       Group 2 (Plus dot)].

(** [r"\s*(?:\+|,|;|/| и | and )\s*"], IGNORECASE. *)
Definition DRIVER_SPLIT_RE : regex :=
  Seq [Star isspace;
       Alt (LitI (chr "+"))
         (Alt (LitI (chr ","))
            (Alt (LitI (chr ";"))
               (Alt (LitI (chr "/"))
                  (Alt (Seq [LitI SPACE; LitI 1080%N; LitI SPACE])
                     (Seq [LitI SPACE; LitI (chr "a"); LitI (chr "n");
                           LitI (chr "d"); LitI SPACE])))));
       Star isspace].

(** [r"^\d+(\.\d+)?$"]. *)
Definition INDEX_CELL_RE : regex :=
  Seq [Bol false; Plus isdigit;
       Opt (Group 1 (Seq [Lit (chr "."); Plus isdigit])); Eol false].

(** The inline patterns [r"\s*-\s*"], [r"\s+"] and
    [r"[^0-9a-zA-ZА-Яа-я]+"]. *)
Definition DASH_RE : regex := Seq [Star isspace; Lit hyphen; Star isspace].
Definition SPACES_RE : regex := Plus isspace.
Definition alnum (c : char) : bool :=
  in_range 48 57 c || in_range 97 122 c || in_range 65 90 c
  || in_range 1040 1071 c || in_range 1072 1103 c.
Definition NON_ALNUM_RE : regex := Plus (fun c => negb (alnum c)).

(** ** Payloads *)

Record effect : Type := Effect {
  effect_type : str;
  value_numeric : option Z;
  currency : option str;
  period_note : str
}.

Record case : Type := Case {
  region_name : str;
  sector_name : str;
  title : str;
  summary : str;
  detailed_notes : option str;
  key_effect_note : str
}.

Record payload : Type := Payload {
  case_of : case;
  economic_effects : list effect;
  technology_drivers : list str
}.

(** The column indices of a table; [None] is Python's [None]. *)
Record columns : Type := Columns {
  sector_idx : option Z;
  scenario_idx : option Z;
  effect_idx : option Z;
  drivers_idx : option Z;
  source_idx : option Z
}.

Definition is_none (A : Type) (o : option A) : bool :=
  match o with None => true | Some _ => false end.

(** [a or b] on strings. *)
Definition str_or (a b : str) : str := if truthy a then a else b.

(** ** [parse_agent_output] *)

Section Parser.
(** [str.lower] is Python's Unicode lower-casing; its tables are no part
    of the repository, so the parser is read over any such function. *)
Variable str_lower : str -> str.

Definition _strip_markdown (text : str) : str :=
  let cleaned :=
    str_replace (py "`") []
      (str_replace (py "__") [] (str_replace (py "**") [] text)) in
  let cleaned :=
    str_replace [em_dash] (py "-") (str_replace [en_dash] (py "-") cleaned) in
  str_join (py " ") (str_split_ws cleaned).

Definition _clean_region_name (raw : str) : M str :=
  cleaned <- re_sub EMOJI_RE [] raw ;;
  let cleaned := str_strip cleaned in
  ret (str_join (py " ") (str_split_ws cleaned)).

Definition _extract_title_and_summary (cell : str) : M (str * str) :=
  match re_search SCENARIO_RE cell with
  | Some m =>
      g1 <- group m 1 ;;
      let title := _strip_markdown g1 in
      g2 <- group m 2 ;;
      let summary := str_strip g2 in
      ret (title, summary)
  | None =>
      let stripped := _strip_markdown cell in
      parts <- re_split DASH_RE stripped 1 ;;
      match parts with
      | [p0; p1] => ret (str_strip p0, str_strip p1)
      | _ => ret (stripped, [])
      end
  end.

Definition _parse_technology_drivers (cell : str) : M (list str) :=
  if negb (truthy cell) then ret []
  else
    let normalized :=
      str_replace [narrow_nbsp] (py " ")
        (str_replace [narrow_nbsp] (py " ") cell) in
    items <- re_split DRIVER_SPLIT_RE normalized 0 ;;
    candidates <-
      map_m (fun item =>
               t <- re_sub SPACES_RE (py " ") item ;;
               ret (str_strip_chars (py " .") t))
            items ;;
    ret (filter truthy candidates).

Definition _build_effects (effect_text : str) : list effect :=
  let cleaned := _strip_markdown effect_text in
  if negb (truthy cleaned) then []
  else [ {| effect_type := py "text_note";
            value_numeric := None;
            currency := None;
            period_note := cleaned |} ].

Definition _normalize_header_text (header : str) : M str :=
  normalized <- re_sub NON_ALNUM_RE (py " ") (str_lower header) ;;
  collapsed <- re_sub SPACES_RE (py " ") normalized ;;
  ret (str_strip collapsed).

Fixpoint find_column_from (idx : Z) (headers keywords : list str)
    : option Z :=
  match headers with
  | [] => None
  | header :: headers' =>
      if existsb (fun keyword => str_contains keyword header) keywords
      then Some idx
      else find_column_from (idx + 1)%Z headers' keywords
  end.

Definition _find_column_index (headers keywords : list str) : option Z :=
  find_column_from 0%Z headers keywords.

Definition _safe_get (cells : list str) (idx : option Z) : M str :=
  match idx with
  | None => ret []
  | Some i =>
      if (i <? 0)%Z || (Z.of_nat (length cells) <=? i)%Z then ret []
      else list_get cells i
  end.

(** [[cell.strip() for cell in line.strip().strip("|").split("|")]]. *)
Definition cells_of (line : str) : list str :=
  map str_strip (str_split pipe (str_strip_chars [pipe] (str_strip line))).

(** The condition [ "---" not in ln and ln.strip().strip("|") ] of both
    [data_lines] comprehensions. *)
Definition is_data_line (ln : str) : bool :=
  negb (str_contains (py "---") ln)
  && truthy (str_strip_chars [pipe] (str_strip ln)).

(** The body of the loop over [data_lines]: the payload of one line, or
    [None] where the source says [continue]. *)
Definition row_payload (region : str) (cols : columns) (line : str)
    : M (option payload) :=
  let cells := cells_of line in
  index_cell <- _safe_get cells (Some 0%Z) ;;
  if is_none (re_match INDEX_CELL_RE index_cell) then ret None
  else
    sector_cell <- _safe_get cells (sector_idx cols) ;;
    let sector := _strip_markdown sector_cell in
    scenario_cell <- _safe_get cells (scenario_idx cols) ;;
    effect_cell <- _safe_get cells (effect_idx cols) ;;
    driver_cell <- _safe_get cells (drivers_idx cols) ;;
    source_cell <- _safe_get cells (source_idx cols) ;;
    if negb (truthy scenario_cell) then ret None
    else
      ts <- _extract_title_and_summary scenario_cell ;;
      let '(title, summary) := ts in
      let effect_note := _strip_markdown effect_cell in
      let source_note := _strip_markdown source_cell in
      drivers <-
        (if negb (is_none (drivers_idx cols)) && truthy driver_cell
         then _parse_technology_drivers driver_cell
         else ret []) ;;
      ret (Some
             {| case_of :=
                  {| region_name := region;
                     sector_name := sector;
                     title := title;
                     summary := str_or summary effect_note;
                     detailed_notes :=
                       if truthy source_note then Some source_note
                       else None;
                     key_effect_note := effect_note |};
                economic_effects := _build_effects effect_cell;
                technology_drivers := drivers |}).

Definition row_step (region : str) (cols : columns)
    (payloads : list payload) (line : str) : M (list payload) :=
  r <- row_payload region cols line ;;
  match r with
  | Some p => ret (payloads ++ [p])
  | None => ret payloads
  end.

Definition kw_sector : list str := [py "сектор"; py "sector"].
Definition kw_scenario : list str :=
  [py "сценарий"; py "описание"; py "scenario"; py "description"].
Definition kw_effect : list str := [py "эконом"; py "эффект"; py "effect"].
Definition kw_drivers : list str :=
  [py "драйвер"; py "driver"; py "технолог"].
Definition kw_source : list str :=
  [py "источник"; py "обоснован"; py "source"; py "reference"].

Definition header_marker : str := py "| # ".

Definition find_header (table_lines : list str) : option nat :=
  find_index_from (str_contains header_marker) 0 table_lines.

(** The two branches on [header_idx]: the column indices and the data
    lines of a table. *)
Definition resolve_table (table_lines : list str)
    : M (columns * list str) :=
  match find_header table_lines with
  | None =>
      let data_lines := filter is_data_line table_lines in
      ret (Columns (Some 1%Z) (Some 2%Z) (Some 3%Z) None (Some 4%Z),
           data_lines)
  | Some header_idx =>
      header_line <- list_get table_lines (Z.of_nat header_idx) ;;
      let header_cells := cells_of header_line in
      normalized_headers <- map_m _normalize_header_text header_cells ;;
      let cols :=
        Columns (_find_column_index normalized_headers kw_sector)
                (_find_column_index normalized_headers kw_scenario)
                (_find_column_index normalized_headers kw_effect)
                (_find_column_index normalized_headers kw_drivers)
                (_find_column_index normalized_headers kw_source) in
      let data_lines :=
        map snd
          (filter (fun il => Nat.ltb header_idx (fst il)
                             && is_data_line (snd il))
                  (enumerate table_lines)) in
      ret (cols, data_lines)
  end.

Definition table_lines_of (body : str) : list str :=
  filter (fun ln => str_startswith [pipe] (str_strip ln))
         (str_splitlines body).

(** [header = match.group(1).strip()] and
    [region_name = _clean_region_name(header)]. *)
Definition section_region (m : rmatch) : M str :=
  g1 <- group m 1 ;;
  let header := str_strip g1 in
  _clean_region_name header.

(** [body = agent_output[start:end]], from the end of this match to the
    start of the next one, or to the end of the text. *)
Definition section_body (agent_output : str) (section_matches : list rmatch)
    (idx : nat) (m : rmatch) : M str :=
  let start := m_end m in
  stop <-
    (if Nat.ltb (idx + 1) (length section_matches)
     then nxt <- list_get section_matches (Z.of_nat (idx + 1)) ;;
          ret (m_start nxt)
     else ret (length agent_output)) ;;
  ret (str_slice agent_output start stop).

Definition mandatory_missing (cols : columns) : bool :=
  is_none (sector_idx cols) || is_none (scenario_idx cols)
  || is_none (effect_idx cols).

(** The body of the loop over [enumerate(section_matches)]. *)
Definition section_step (agent_output : str) (section_matches : list rmatch)
    (payloads : list payload) (im : nat * rmatch) : M (list payload) :=
  let '(idx, m) := im in
  region <- section_region m ;;
  body <- section_body agent_output section_matches idx m ;;
  let table_lines := table_lines_of body in
  match table_lines with
  | [] => ret payloads
  | _ :: _ =>
      tbl <- resolve_table table_lines ;;
      let '(cols, data_lines) := tbl in
      if mandatory_missing cols then ret payloads
      else for_each (row_step region cols) data_lines payloads
  end.

Definition parse_agent_output (agent_output : str) : M (list payload) :=
  section_matches <- re_finditer SECTION_HEADER_RE agent_output ;;
  for_each (section_step agent_output section_matches)
           (enumerate section_matches) [].
End Parser.

(** A lower-casing for the examples: Python's [str.lower] on text made of
    basic Latin and basic Cyrillic letters. *)
Definition lower_basic (s : str) : str :=
  map (fun c =>
         if in_range 65 90 c || in_range 1040 1071 c then (c + 32)%N else c)
      s.

(** Lines joined by newlines, for writing documents. *)
Definition doc (lines : list string) : str := str_join [LF] (map py lines).

(** ** What the matcher finds

    A declarative reading of the patterns, against which [run] is checked:
    [matches r c g c' g'] says that [r] can match from [c] to [c'], taking
    the groups from [g] to [g']. *)

Inductive chars_of (cs : char -> bool) : cursor -> cursor -> nat -> Prop :=
| chars_nil c : chars_of cs c c 0
| chars_cons c x s c' n :
    rest c = x :: s -> cs x = true ->
    chars_of cs (step c x s) c' n -> chars_of cs c c' (S n).

Inductive matches : regex -> cursor -> caps -> cursor -> caps -> Prop :=
| m_eps c g : matches Eps c g c g
| m_chars cs c g x s :
    rest c = x :: s -> cs x = true -> matches (Chars cs) c g (step c x s) g
| m_cat r1 r2 c g c1 g1 c2 g2 :
    matches r1 c g c1 g1 -> matches r2 c1 g1 c2 g2 ->
    matches (Cat r1 r2) c g c2 g2
| m_alt_l r1 r2 c g c' g' :
    matches r1 c g c' g' -> matches (Alt r1 r2) c g c' g'
| m_alt_r r1 r2 c g c' g' :
    matches r2 c g c' g' -> matches (Alt r1 r2) c g c' g'
| m_rep lazy least cs c g c' n :
    chars_of cs c c' n -> least <= n -> matches (Rep lazy least cs) c g c' g
| m_opt_some r c g c' g' :
    matches r c g c' g' -> matches (Opt r) c g c' g'
| m_opt_none r c g : matches (Opt r) c g c g
| m_group n r c g c' g' :
    matches r c g c' g' ->
    matches (Group n r) c g c'
      ((n, (pos c, firstn (pos c' - pos c) (rest c))) :: g')
| m_bol m c g : at_bol m c = true -> matches (Bol m) c g c g
| m_eol m c g : at_eol m c = true -> matches (Eol m) c g c g.

(** The last character of [pre], if any: what [prev] holds after [pre]. *)
Definition last_char (pre : str) : option char :=
  match rev pre with [] => None | x :: _ => Some x end.

(** [c] is the position of [text] that follows the prefix [pre]. *)
Definition cursor_at (text : str) (c : cursor) : Prop :=
  exists pre,
    text = pre ++ rest c /\ pos c = length pre /\ prev c = last_char pre.

(** The least number of characters a match of [r] consumes. *)
Fixpoint min_len (r : regex) : nat :=
  match r with
  | Eps | Opt _ | Bol _ | Eol _ => 0
  | Chars _ => 1
  | Cat r1 r2 => min_len r1 + min_len r2
  | Alt r1 r2 => Nat.min (min_len r1) (min_len r2)
  | Rep _ least _ => least
  | Group _ r1 => min_len r1
  end.

(** [m] is a match of [r] somewhere in [text]. *)
Definition match_of (r : regex) (text : str) (m : rmatch) : Prop :=
  exists c0,
    cursor_at text c0 /\ pos c0 = m_start m /\
    matches r c0 [] (m_stop m) (m_caps m).

(** Matches in text order that do not overlap, none before [from]. *)
Fixpoint in_order (from : nat) (ms : list rmatch) : Prop :=
  match ms with
  | [] => True
  | m :: ms' =>
      from <= m_start m /\ m_start m <= m_end m /\ in_order (m_end m) ms'
  end.

(** ** Readings of the patterns *)

(** A section heading inside [text], from offset [start] to offset [stop],
    as [SECTION_HEADER_RE] takes it: after a line start come optional
    whitespace [ws], two or more hashes [hs], whitespace [ws2] and the
    heading text [t], up to a line end. *)
Definition heading_shape (text : str) (start stop : nat) (t : str) : Prop :=
  exists pre ws hs ws2 post,
    text = pre ++ (ws ++ hs ++ ws2 ++ t) ++ post /\
    start = length pre /\
    stop = length pre + length (ws ++ hs ++ ws2 ++ t) /\
    (pre = [] \/ last_char pre = Some LF) /\
    (post = [] \/ hd_error post = Some LF) /\
    forallb isspace ws = true /\
    forallb (N.eqb hash) hs = true /\ 2 <= length hs /\
    forallb isspace ws2 = true /\ 1 <= length ws2 /\
    forallb dot t = true /\ 1 <= length t.

(** The match [m] covers a heading of [text], with the heading text as
    its group 1. *)
Definition heading_at (text : str) (m : rmatch) : Prop :=
  exists t,
    heading_shape text (m_start m) (m_end m) t /\
    lookup_group 1 (m_caps m) = Some t.

(** Each match of [ms] starts at the first offset, from [from] on or from
    the end of the match before it, at which a heading starts; after the
    last match no heading starts. *)
Fixpoint leftmost_headings (text : str) (from : nat) (ms : list rmatch)
    : Prop :=
  match ms with
  | [] =>
      forall start stop t,
        from <= start -> ~ heading_shape text start stop t
  | m :: ms' =>
      (forall start stop t,
          from <= start -> start < m_start m ->
          ~ heading_shape text start stop t) /\
      leftmost_headings text (m_end m) ms'
  end.

(** An index cell: digits, or digits, a full stop and digits. *)
Definition index_like (s : str) : Prop :=
  exists ds fs,
    forallb isdigit ds = true /\ 1 <= length ds /\
    forallb isdigit fs = true /\
    (s = ds /\ fs = [] \/ s = ds ++ chr "." :: fs /\ 1 <= length fs).

(** The payloads of a list of row results. *)
Definition opt_list (A : Type) (o : option A) : list A :=
  match o with Some x => [x] | None => [] end.

(** The columns of the positional fall-back. *)
Definition positional : columns :=
  Columns (Some 1%Z) (Some 2%Z) (Some 3%Z) None (Some 4%Z).

(** The columns found in a list of normalized header cells. *)
Definition columns_of_headers (headers : list str) : columns :=
  Columns (_find_column_index headers kw_sector)
          (_find_column_index headers kw_scenario)
          (_find_column_index headers kw_effect)
          (_find_column_index headers kw_drivers)
          (_find_column_index headers kw_source).

(** The text of the section of the match [m], the [idx]-th of
    [section_matches]: what lies in [agent_output] between the end of [m]
    and the start of the match after it, or the end of [agent_output]
    when [m] is the last match. *)
Definition between_headings (agent_output : str)
    (section_matches : list rmatch) (idx : nat) (m : rmatch) : str :=
  str_slice agent_output (m_end m)
    (match nth_error section_matches (idx + 1) with
     | Some nxt => m_start nxt
     | None => length agent_output
     end).

(** [new] is what the section of the match [m], the [idx]-th of
    [section_matches], adds to the payloads: nothing, or the payloads of
    the rows [rs] of its data lines [dl], in the order of the lines. *)
Definition section_rows (str_lower : str -> str) (agent_output : str)
    (section_matches : list rmatch) (im : nat * rmatch)
    (new : list payload) : Prop :=
  exists region body,
    section_region (snd im) = inr region /\
    section_body agent_output section_matches (fst im) (snd im) = inr body /\
    (new = [] \/
     exists cols dl rs,
       resolve_table str_lower (table_lines_of body) = inr (cols, dl) /\
       mandatory_missing cols = false /\
       map_m (row_payload region cols) dl = inr rs /\
       new = flat_map (@opt_list payload) rs).

(** The payload [p] of a parse of [agent_output] was built from the data
    line [line] of the section with heading match [m], under the region
    name [region] and the columns [cols] of that section. *)
Definition emitted_by (str_lower : str -> str) (agent_output : str)
    (p : payload) (m : rmatch) (region : str) (cols : columns) (line : str)
    : Prop :=
  exists section_matches idx body data_lines,
    re_finditer SECTION_HEADER_RE agent_output = inr section_matches /\
    nth_error section_matches idx = Some m /\
    section_region m = inr region /\
    section_body agent_output section_matches idx m = inr body /\
    resolve_table str_lower (table_lines_of body) = inr (cols, data_lines) /\
    mandatory_missing cols = false /\
    In line data_lines /\
    row_payload region cols line = inr (Some p).

(** ** Sample documents *)

(** A table without header row whose only row has a bare dash as its
    scenario cell and no effect cell. *)
Definition bare_dash_doc : str := doc ["## R"; "| 1 | S | - |"].

(** A table with header row; the effect cell of its row holds nothing but
    a bold marker and its drivers cell names one driver twice. *)
Definition marker_effect_doc : str :=
  doc ["## R";
       "| # | Sector | Scenario | Effect | Drivers |";
       "| 1 | S | **T** - U | ** | LLM, LLM |"].

(** A prose row inside a table, and a row with dashes inside a cell. *)
Definition note_row : str := py "| Примечание | a | b - c | d |".
Definition dashes_in_cell_doc : str :=
  doc ["## R"; "| 1 | S | a --- b | e |"].

(** The only effect record the parser builds. *)
Definition text_note (note : str) : effect :=
  {| effect_type := py "text_note";
     value_numeric := None;
     currency := None;
     period_note := note |}.

(** The driver names [ds] read off a drivers cell: the cell, with narrow
    no-break spaces made plain, is cut at the separators [seps] found from
    left to right; each piece has its whitespace collapsed and its
    surrounding spaces and full stops removed; the non-empty results are
    kept, in the order of the pieces. *)
Definition driver_tokens (cell : str) (ds : list str) : Prop :=
  let normalized :=
    str_replace [narrow_nbsp] (py " ")
      (str_replace [narrow_nbsp] (py " ") cell) in
  exists seps cleaned,
    re_finditer DRIVER_SPLIT_RE normalized = inr seps /\
    in_order 0 seps /\
    Forall2 (fun item c =>
               exists t,
                 re_sub SPACES_RE (py " ") item = inr t /\
                 c = str_strip_chars (py " .") t)
            (pieces normalized 0 seps) cleaned /\
    ds = filter truthy cleaned.

(** Table lines for the header row: a data row with a cell that starts
    with a hash, and a header row written without spaces. *)
Definition hash_cell_row : str := py "| 1 | x | # y - z | e |".
Definition tight_header_row : str := py "|#|Сценарий|Сектор|Эффект|".
Definition tight_header_doc : str :=
  doc ["## R"; "|#|Сценарий|Сектор|Эффект|"; "|1|A - B|Fin|E|"].

(** The row of the positional example and a document holding it. *)
Definition positional_row : string :=
  "| 1 | Финансы | **X** – Y | Effect Z | src |".
Definition positional_doc : str := doc ["## Регион"; positional_row].

(** Each match of [ms] starts at the first position, from offset [from]
    on or from the end of the match before it, at which [r] can match;
    after the last match [r] matches nowhere. *)
Fixpoint leftmost_from (r : regex) (text : str) (from : nat)
    (ms : list rmatch) : Prop :=
  match ms with
  | [] =>
      forall c0 c' g',
        cursor_at text c0 -> from <= pos c0 -> ~ matches r c0 [] c' g'
  | m :: ms' =>
      (forall c0 c' g',
          cursor_at text c0 -> from <= pos c0 -> pos c0 < m_start m ->
          ~ matches r c0 [] c' g') /\
      leftmost_from r text (m_end m) ms'
  end.

(** ** Readings of the helpers' results *)

(** A word: non-empty and free of whitespace. *)
Definition is_word (w : str) : Prop :=
  w <> [] /\ forallb (fun c => negb (isspace c)) w = true.

(** Words separated by single spaces: no whitespace at either end, none
    repeated, and none but the plain space. *)
Definition ws_normal (s : str) : Prop :=
  exists ws, Forall is_word ws /\ s = str_join (py " ") ws.

(** The characters at which [DRIVER_SPLIT_RE] cuts on their own. *)
Definition is_separator (c : char) : bool :=
  mem c (py "+,;/").

(** Neither the first nor the last character of [s] satisfies [p]. *)
Definition trimmed (p : char -> bool) (s : str) : Prop :=
  (forall x t, s = x :: t -> p x = false) /\
  (forall w x, s = w ++ [x] -> p x = false).

(** What [_safe_get] returns: the cell at [idx] when there is one, and the
    empty string when [idx] is [None], negative or past the last cell. *)
Definition cell_at (cells : list str) (idx : option Z) : str :=
  match idx with
  | None => []
  | Some i =>
      if (0 <=? i)%Z && (i <? Z.of_nat (length cells))%Z
      then nth (Z.to_nat i) cells []
      else []
  end.

(** Some keyword of [keywords] occurs in [header]: the test of
    [_find_column_index]. *)
Definition has_keyword (keywords : list str) (header : str) : bool :=
  existsb (fun keyword => str_contains keyword header) keywords.

(** ** [CaseRepository] and [_persist_cases]

    The session is the repository's collaborator: the model keeps the
    calls made on it, each with its outcome, and leaves the outcome of a
    call to an arbitrary function [respond] of the calls made so far, so
    that any call may return or raise.  [query(...).filter_by(...).first()]
    is one call; [print], which reads the case back, is one as well.
    Building an instance with a constructor of [data.models] and extending
    its list of drivers make no call.  The arguments of [save_case] are
    the parser's records, in which every key the repository reads is
    present, and [region_description] and [sector_description] are not. *)

Inductive table : Type := Regions | Sectors | TechnologyDrivers.

(** The exceptions, all of class [Exception]: those of the parser, and
    those a call on the session raises. *)
Inductive exc : Type :=
| ParserError (e : exn)
| SessionError (code : nat).

Section Repository.
(** A row as [.first()] hands it back. *)
Variable row : Type.

(** An instance of [Region], [Sector] or [TechnologyDriver]: loaded from
    the session, or built by the constructor. *)
Inductive entity : Type :=
| Stored (t : table) (r : row)
| Created (t : table) (name : str) (description : option str).

(** [models.Case(...)] with its [technology_drivers]. *)
Record case_obj : Type := CaseObj {
  co_region : entity;
  co_sector : entity;
  co_title : str;
  co_summary : str;
  co_detailed_notes : option str;
  co_key_effect_note : option str;
  co_technology_drivers : list entity
}.

(** [models.EconomicEffect(...)]. *)
Record effect_obj : Type := EffectObj {
  eo_case : case_obj;
  eo_effect_type : str;
  eo_value_numeric : option Z;
  eo_currency : option str;
  eo_period_note : option str
}.

Inductive obj : Type :=
| OEntity (e : entity)
| OCase (c : case_obj)
| OEffect (e : effect_obj).

(** The calls on the session factory, the session and [print]. *)
Inductive call : Type :=
| SessionLocal
| QueryFirst (t : table) (name : str)
| Add (o : obj)
| Flush
| Commit
| Rollback
| Close
| PrintSaved (c : case_obj)
| PrintError (e : exc).

(** A call returns (with a row or [None] for [.first()]) or raises. *)
Inductive outcome : Type :=
| Returned (r : option row)
| Raised (e : exc).

Definition event : Type := call * outcome.

Variable respond : list event -> call -> outcome.

(** A computation on the session: from the calls so far to a result or
    an exception, and the calls after it. *)
Definition DB (A : Type) : Type := list event -> (exc + A) * list event.

Definition db_ret (A : Type) (x : A) : DB A := fun tr => (inr x, tr).

Definition db_raise (A : Type) (e : exc) : DB A := fun tr => (inl e, tr).

Definition db_bind (A B : Type) (c : DB A) (k : A -> DB B) : DB B :=
  fun tr =>
    match c tr with
    | (inr x, tr') => k x tr'
    | (inl e, tr') => (inl e, tr')
    end.

Definition db_call (c : call) : DB (option row) :=
  fun tr =>
    let o := respond tr c in
    (match o with Returned r => inr r | Raised e => inl e end,
     tr ++ [(c, o)]).

(** [try: body except Exception as e: handler]. *)
Definition try_except (A : Type) (body : DB A) (handler : exc -> DB A)
    : DB A :=
  fun tr =>
    match body tr with
    | (inr x, tr') => (inr x, tr')
    | (inl e, tr') => handler e tr'
    end.

(** [try: body finally: final]: [final] runs either way, and an exception
    of [final] replaces the outcome of [body]. *)
Definition try_finally (A : Type) (body : DB A) (final : DB unit) : DB A :=
  fun tr =>
    match body tr with
    | (res, tr') =>
        match final tr' with
        | (inr _, tr'') => (res, tr'')
        | (inl e, tr'') => (inl e, tr'')
        end
    end.

(** A [for] loop over [l]. *)
Fixpoint db_for (A : Type) (l : list A) (body : A -> DB unit) : DB unit :=
  match l with
  | [] => db_ret tt
  | x :: l' => db_bind (body x) (fun _ => db_for l' body)
  end.

(** The common body of [get_or_create_region], [get_or_create_sector] and
    of the loop of [get_or_create_technology_drivers]: look the name up,
    and build and add an instance when [.first()] gave [None]. *)
Definition first_or_add (t : table) (name : str) (description : option str)
    : DB entity :=
  db_bind (db_call (QueryFirst t name)) (fun found =>
  match found with
  | Some r => db_ret (Stored t r)
  | None =>
      let e := Created t name description in
      db_bind (db_call (Add (OEntity e))) (fun _ => db_ret e)
  end).

Definition get_or_create_region (name : str) (description : option str)
    : DB entity :=
  first_or_add Regions name description.

Definition get_or_create_sector (name : str) (description : option str)
    : DB entity :=
  first_or_add Sectors name description.

Fixpoint get_or_create_technology_drivers (driver_names : list str)
    : DB (list entity) :=
  match driver_names with
  | [] => db_ret []
  | name :: names =>
      db_bind (first_or_add TechnologyDrivers name None) (fun driver =>
      db_bind (get_or_create_technology_drivers names) (fun drivers =>
      db_ret (driver :: drivers)))
  end.

Definition effect_of (new_case : case_obj) (effect_data : effect)
    : effect_obj :=
  {| eo_case := new_case;
     eo_effect_type := effect_type effect_data;
     eo_value_numeric := value_numeric effect_data;
     eo_currency := currency effect_data;
     eo_period_note := Some (period_note effect_data) |}.

Definition create_case (case_data : case)
    (economic_effects_data : list effect) (driver_names : list str)
    : DB case_obj :=
  db_bind (get_or_create_region (region_name case_data) None) (fun region =>
  db_bind (get_or_create_sector (sector_name case_data) None) (fun sector =>
  db_bind (get_or_create_technology_drivers driver_names)
    (fun technology_drivers =>
  let new_case :=
    {| co_region := region;
       co_sector := sector;
       co_title := title case_data;
       co_summary := summary case_data;
       co_detailed_notes := detailed_notes case_data;
       co_key_effect_note := Some (key_effect_note case_data);
       co_technology_drivers := technology_drivers |} in
  db_bind (db_call (Add (OCase new_case))) (fun _ =>
  db_bind (db_call Flush) (fun _ =>
  db_bind (db_for economic_effects_data (fun effect_data =>
             db_bind (db_call (Add (OEffect (effect_of new_case effect_data))))
                     (fun _ => db_ret tt)))
          (fun _ => db_ret new_case)))))).

Definition save_case (case_data : case)
    (economic_effects_data : list effect) (driver_names : list str)
    : DB case_obj :=
  try_except
    (db_bind (create_case case_data economic_effects_data driver_names)
       (fun new_case =>
     db_bind (db_call Commit) (fun _ =>
     db_bind (db_call (PrintSaved new_case)) (fun _ =>
     db_ret new_case))))
    (fun e =>
       db_bind (db_call Rollback) (fun _ =>
       db_bind (db_call (PrintError e)) (fun _ =>
       db_raise _ e))).

(** [_persist_cases] of [services/case_parser.py]. *)
Definition _persist_cases (str_lower : str -> str) (agent_output : str)
    : DB unit :=
  db_bind (db_call SessionLocal) (fun _ =>
  try_finally
    (db_bind
       (fun tr =>
          match parse_agent_output str_lower agent_output with
          | inr payloads => (inr payloads, tr)
          | inl e => (inl (ParserError e), tr)
          end)
       (fun payloads =>
     db_for payloads (fun payload =>
       db_bind (save_case (case_of payload) (economic_effects payload)
                          (technology_drivers payload))
               (fun _ => db_ret tt))))
    (db_bind (db_call Close) (fun _ => db_ret tt))).
End Repository.

Arguments Created {row} t name description.
Arguments SessionLocal {row}.
Arguments QueryFirst {row} t name.
Arguments Flush {row}.
Arguments Commit {row}.
Arguments Rollback {row}.
Arguments Close {row}.
Arguments PrintError {row} e.
Arguments Raised {row} e.

(** A session over an empty database, in which every call returns: each
    [.first()] finds nothing.  With [autoflush=False] an instance that
    was added and not yet flushed is not found either. *)
Definition nothing_stored
    : list (event Empty_set) -> call Empty_set -> outcome Empty_set :=
  fun _ _ => Returned None.

(** ** Readings of the calls on the session *)

Section Traces.
Variable row : Type.

Definition is_returned (o : outcome row) : bool :=
  match o with Returned _ => true | Raised _ => false end.

(** Every call of [evs] returned. *)
Definition all_returned (evs : list (event row)) : Prop :=
  Forall (fun ev => is_returned (snd ev) = true) evs.

Definition calls (evs : list (event row)) : list (call row) := map fst evs.

(** The calls of the look-ups: [.first()] and the [add] of an instance of
    [Region], [Sector] or [TechnologyDriver]. *)
Definition is_lookup_call (c : call row) : Prop :=
  match c with
  | QueryFirst _ _ | Add (OEntity _) => True
  | _ => False
  end.

(** The cases passed to [add], in the order of the calls. *)
Definition cases_added (evs : list (event row)) : list (case_obj row) :=
  flat_map (fun ev =>
              match fst ev with
              | Add (OCase c) => [c]
              | _ => []
              end) evs.

(** The number of calls of [commit] that returned. *)
Definition commits (evs : list (event row)) : nat :=
  length (filter (fun ev =>
                    match ev with
                    | (Commit, Returned _) => true
                    | _ => false
                    end) evs).

(** Every [add] of a region, sector or driver in [evs] adds a newly built
    instance and comes directly after a [.first()] for the same table and
    name that returned [None]. *)
Definition adds_follow_failed_lookup (evs : list (event row)) : Prop :=
  forall pre e o post,
    evs = pre ++ (Add (OEntity e), o) :: post ->
    exists pre' t name description,
      e = Created t name description /\
      pre = pre' ++ [(QueryFirst t name, Returned None)].

(** What [get_or_create_technology_drivers] returns for a name: the stored
    driver, or a new one of that name. *)
Definition driver_for (name : str) (d : entity row) : Prop :=
  d = Created TechnologyDrivers name None \/
  exists r, d = Stored TechnologyDrivers r.

(** The calls [create_case] makes. *)
Definition is_create_call (c : call row) : Prop :=
  match c with
  | QueryFirst _ _ | Add _ | Flush => True
  | _ => False
  end.

(** The calls of the [try] block of [save_case]. *)
Definition is_try_call (c : call row) : Prop :=
  match c with
  | QueryFirst _ _ | Add _ | Flush | Commit | PrintSaved _ => True
  | _ => False
  end.

(** The outcome of a computation without handler, by its calls [evs]:
    it returns when all its calls returned, and it raises the exception
    of its last call, the only one that raised. *)
Definition straight_result (A : Type) (res : exc + A)
    (evs : list (event row)) : Prop :=
  match res with
  | inr _ => all_returned evs
  | inl e =>
      exists pre c, evs = pre ++ [(c, Raised e)] /\ all_returned pre
  end.

(** [c] makes calls that satisfy [P] only, and has no handler. *)
Definition straight (A : Type) (P : call row -> Prop) (c : DB row A)
    : Prop :=
  forall tr res tr',
    c tr = (res, tr') ->
    exists evs,
      tr' = tr ++ evs /\ Forall P (calls evs) /\ straight_result res evs.

(** [c] appends calls [evs] that satisfy [Q]. *)
Definition traced (A : Type) (Q : list (event row) -> Prop) (c : DB row A)
    : Prop :=
  forall tr, exists res evs, c tr = (res, tr ++ evs) /\ Q evs.

(** The calls of look-ups one after the other: each is a [.first()] that
    found a row or raised, or a [.first()] that found nothing followed by
    the [add] of a newly built instance of the same table and name. *)
Inductive lookup_trace : list (event row) -> Prop :=
| lookups_none : lookup_trace []
| lookups_found t name r rest :
    lookup_trace rest ->
    lookup_trace ((QueryFirst t name, Returned (Some r)) :: rest)
| lookups_raised t name e rest :
    lookup_trace rest ->
    lookup_trace ((QueryFirst t name, Raised e) :: rest)
| lookups_added t name description o rest :
    lookup_trace rest ->
    lookup_trace ((QueryFirst t name, Returned None)
                    :: (Add (OEntity (Created t name description)), o)
                    :: rest).

(** The calls [save_case] makes: all but those that open and close the
    session. *)
Definition is_save_call (c : call row) : Prop :=
  match c with
  | SessionLocal | Close => False
  | _ => True
  end.

(** A call that is not the [add] of a region, sector or driver. *)
Definition not_entity_add (c : call row) : Prop :=
  match c with
  | Add (OEntity _) => False
  | _ => True
  end.

(** A call that neither adds a case, region, sector or driver nor commits,
    opens or closes. *)
Definition is_quiet_call (c : call row) : Prop :=
  match c with
  | QueryFirst _ _ | Add (OEffect _) | Flush | Rollback
  | PrintSaved _ | PrintError _ => True
  | _ => False
  end.

(** What the calls [evs] of a save add up to: they are calls of
    [save_case], every [add] of a region, sector or driver follows its
    failed look-up, the cases added are [cs], in this order, and [n]
    commits returned. *)
Definition tally (evs : list (event row)) (cs : list (case_obj row))
    (n : nat) : Prop :=
  Forall is_save_call (calls evs) /\
  adds_follow_failed_lookup evs /\
  cases_added evs = cs /\
  commits evs = n.

(** The case object [create_case] builds from [case_data] and
    [driver_names]: the fields of the record, the region and the sector
    as stored or newly built, and one driver per name, in order. *)
Definition case_built (case_data : case) (driver_names : list str)
    (c : case_obj row) : Prop :=
  co_title c = title case_data /\
  co_summary c = summary case_data /\
  co_detailed_notes c = detailed_notes case_data /\
  co_key_effect_note c = Some (key_effect_note case_data) /\
  (co_region c = Created Regions (region_name case_data) None \/
   exists r, co_region c = Stored Regions r) /\
  (co_sector c = Created Sectors (sector_name case_data) None \/
   exists r, co_sector c = Stored Sectors r) /\
  Forall2 driver_for driver_names (co_technology_drivers c).

(** The case object [c] is the one [create_case] builds from the
    payload [p]. *)
Definition built_from (p : payload) (c : case_obj row) : Prop :=
  case_built (case_of p) (technology_drivers p) c.

(** The calls of a [save_case] that returns the case [c]: the look-ups,
    the [add] of the case, the [flush], one [add] per economic effect in
    the order of the list, the [commit] and the message, all of which
    returned. *)
Definition saved_trace (economic_effects_data : list effect)
    (c : case_obj row) (evs : list (event row)) : Prop :=
  exists lk r1 r2 eff_evs r3 r4,
    evs = lk ++ [(Add (OCase c), Returned r1); (Flush, Returned r2)]
             ++ eff_evs
             ++ [(Commit, Returned r3); (PrintSaved c, Returned r4)] /\
    all_returned lk /\ Forall is_lookup_call (calls lk) /\
    all_returned eff_evs /\
    calls eff_evs
    = map (fun e => Add (OEffect (effect_of c e))) economic_effects_data.

(** How [save_case] ends after the call that raised [e0]: with the
    rollback, then the error message, raising [e] in the end. *)
Definition rolled_back (e0 e : exc) (rest : list (event row)) : Prop :=
  rest = [(Rollback, Raised e)] \/
  (exists r, rest = [(Rollback, Returned r); (PrintError e0, Raised e)]) \/
  (exists r r',
      rest = [(Rollback, Returned r); (PrintError e0, Returned r')] /\
      e = e0).

Definition not_rollback (c : call row) : Prop :=
  match c with
  | Rollback => False
  | _ => True
  end.

(** The calls that may still follow a rollback: the error message of
    [save_case] and the [close] of [_persist_cases]. *)
Definition is_closing_call (c : call row) : Prop :=
  match c with
  | PrintError _ | Close => True
  | _ => False
  end.

(** A rollback among the calls [evs] is followed by closing calls only,
    and the computation that made the calls raises. *)
Definition stops_at_rollback (A : Type) (res : exc + A)
    (evs : list (event row)) : Prop :=
  forall pre o rest,
    evs = pre ++ (Rollback, o) :: rest ->
    Forall is_closing_call (calls rest) /\ exists e, res = inl e.
End Traces.

(** * Properties *)

(** ** The error monad *)

Lemma bind_inr (A B : Type) (m : M A) (f : A -> M B) (y : B) :
  bind m f = inr y -> exists x, m = inr x /\ f x = inr y.
Proof.
  destruct m as [e | x]; simpl; intros H.
  - discriminate.
  - exists x. split; [reflexivity | exact H].
Qed.

(** Split a successful sequence of binds into its steps. *)
Ltac inv_bind H :=
  let x := fresh "x" in
  let Hx := fresh "Hx" in
  apply bind_inr in H; destruct H as (x & Hx & H).

Ltac inv_ret H := simpl in H; injection H as H.

(** ** Soundness of the matcher *)

Section Soundness.
Variable R : Type.

Lemma if_done_some least (k : cursor -> option R) c res :
  if_done least k c = Some res -> least = 0 /\ k c = Some res.
Proof. destruct least; simpl; [auto | discriminate]. Qed.

Lemma rep_greedy_sound cs s :
  forall least c (k : cursor -> option R) res,
    rest c = s ->
    rep_greedy cs least c s k = Some res ->
    exists c' n, chars_of cs c c' n /\ least <= n /\ k c' = Some res.
Proof.
  induction s as [| x s IH]; intros least c k res Hc H; simpl in H.
  - apply if_done_some in H as [-> H].
    exists c, 0. split; [constructor | auto].
  - destruct (cs x) eqn:Hx.
    + destruct (rep_greedy cs (pred least) (step c x s) s k) eqn:Hrec.
      * injection H as <-.
        apply IH in Hrec as (c' & n & Hn & Hle & Hk); [| reflexivity].
        exists c', (S n). split; [econstructor; eauto | split; [lia | auto]].
      * apply if_done_some in H as [-> H].
        exists c, 0. split; [constructor | auto].
    + apply if_done_some in H as [-> H].
      exists c, 0. split; [constructor | auto].
Qed.

Lemma rep_lazy_sound cs s :
  forall least c (k : cursor -> option R) res,
    rest c = s ->
    rep_lazy cs least c s k = Some res ->
    exists c' n, chars_of cs c c' n /\ least <= n /\ k c' = Some res.
Proof.
  induction s as [| x s IH]; intros least c k res Hc H; simpl in H.
  - destruct (if_done least k c) eqn:Hd; [| discriminate].
    injection H as <-. apply if_done_some in Hd as [-> Hd].
    exists c, 0. split; [constructor | auto].
  - destruct (if_done least k c) eqn:Hd.
    + injection H as <-. apply if_done_some in Hd as [-> Hd].
      exists c, 0. split; [constructor | auto].
    + destruct (cs x) eqn:Hx; [| discriminate].
      apply IH in H as (c' & n & Hn & Hle & Hk); [| reflexivity].
      exists c', (S n). split; [econstructor; eauto | split; [lia | auto]].
Qed.

Theorem run_sound r :
  forall c g (k : cursor -> caps -> option R) res,
    run r c g k = Some res ->
    exists c' g', matches r c g c' g' /\ k c' g' = Some res.
Proof.
  induction r as [| cs | r1 IH1 r2 IH2 | r1 IH1 r2 IH2 | lazy least cs
                  | r1 IH1 | n r1 IH1 | m | m];
    intros c g k res H; simpl in H.
  - exists c, g. split; [constructor | exact H].
  - destruct (rest c) as [| x s] eqn:Hc; [discriminate |].
    destruct (cs x) eqn:Hx; [| discriminate].
    exists (step c x s), g. split; [constructor; assumption | exact H].
  - apply IH1 in H as (c1 & g1 & H1 & H).
    apply IH2 in H as (c2 & g2 & H2 & H).
    exists c2, g2. split; [econstructor; eauto | exact H].
  - destruct (run r1 c g k) eqn:Hl.
    + injection H as <-. apply IH1 in Hl as (c' & g' & Hm & Hk).
      exists c', g'. split; [apply m_alt_l; exact Hm | exact Hk].
    + apply IH2 in H as (c' & g' & Hm & Hk).
      exists c', g'. split; [apply m_alt_r; exact Hm | exact Hk].
  - assert (exists c' n,
               chars_of cs c c' n /\ least <= n /\ k c' g = Some res)
      as (c' & n & Hn & Hle & Hk).
    { destruct lazy.
      - eapply rep_lazy_sound in H; [exact H | reflexivity].
      - eapply rep_greedy_sound in H; [exact H | reflexivity]. }
    exists c', g. split; [econstructor; eauto | exact Hk].
  - destruct (run r1 c g k) eqn:Hl.
    + injection H as <-. apply IH1 in Hl as (c' & g' & Hm & Hk).
      exists c', g'. split; [apply m_opt_some; exact Hm | exact Hk].
    + exists c, g. split; [apply m_opt_none | exact H].
  - apply IH1 in H as (c' & g' & Hm & Hk).
    eexists c', _. split; [apply m_group; exact Hm | exact Hk].
  - destruct (at_bol m c) eqn:Hb; [| discriminate].
    exists c, g. split; [constructor; exact Hb | exact H].
  - destruct (at_eol m c) eqn:Hb; [| discriminate].
    exists c, g. split; [constructor; exact Hb | exact H].
Qed.
End Soundness.

(** ** Positions *)

Lemma last_char_snoc pre x : last_char (pre ++ [x]) = Some x.
Proof. unfold last_char. rewrite rev_app_distr. reflexivity. Qed.

Lemma cursor_at_start text : cursor_at text (start_of text).
Proof. exists []. repeat split. Qed.

Lemma cursor_at_step text c x s :
  cursor_at text c -> rest c = x :: s -> cursor_at text (step c x s).
Proof.
  intros (pre & Ht & Hp & Hv) Hc. exists (pre ++ [x]). simpl.
  rewrite <- app_assoc, length_app, last_char_snoc, Ht, Hc, Hp. simpl.
  repeat split. lia.
Qed.

Lemma cursor_at_length text c :
  cursor_at text c -> length text = pos c + length (rest c).
Proof. intros (pre & Ht & Hp & _). rewrite Ht at 1. rewrite length_app. lia. Qed.

(** The characters read by a repetition. *)
Lemma chars_of_word cs c c' n :
  chars_of cs c c' n ->
  exists w,
    length w = n /\ forallb cs w = true /\ rest c = w ++ rest c' /\
    pos c' = pos c + n.
Proof.
  induction 1 as [c | c x s c' n Hc Hx _ (w & Hl & Hall & Hr & Hp)].
  - exists []. repeat split. lia.
  - exists (x :: w). simpl in *. rewrite Hx, Hall, Hl, Hc, Hr, Hp.
    repeat split. lia.
Qed.

Lemma chars_of_cursor text cs c c' n :
  chars_of cs c c' n -> cursor_at text c -> cursor_at text c'.
Proof.
  induction 1; intros Hc; [assumption |].
  eauto using cursor_at_step.
Qed.

Lemma matches_cursor text r c g c' g' :
  matches r c g c' g' -> cursor_at text c -> cursor_at text c'.
Proof.
  induction 1; intros Hc; eauto using cursor_at_step, chars_of_cursor.
Qed.

Lemma matches_min_len r c g c' g' :
  matches r c g c' g' -> pos c + min_len r <= pos c'.
Proof.
  induction 1; simpl in *; try lia.
  match goal with H : chars_of _ _ _ _ |- _ =>
    apply chars_of_word in H as (w & ? & ? & ? & ?) end. lia.
Qed.

(** ** Searching *)

Lemma search_from_sound text r s :
  forall c m,
    rest c = s -> cursor_at text c ->
    search_from r c s = Some m ->
    match_of r text m /\ pos c <= m_start m /\ cursor_at text (m_stop m).
Proof.
  induction s as [| x s IH]; intros c m Hc Hat H; simpl in H.
  - destruct (run r c [] _) eqn:Hrun; [| discriminate].
    injection H as ->.
    apply run_sound in Hrun as (c' & g' & Hm & Hk). injection Hk as <-.
    simpl. split; [| split; [lia | eauto using matches_cursor]].
    exists c. auto.
  - destruct (run r c [] _) eqn:Hrun.
    + injection H as ->.
      apply run_sound in Hrun as (c' & g' & Hm & Hk). injection Hk as <-.
      simpl. split; [| split; [lia | eauto using matches_cursor]].
      exists c. auto.
    + apply IH in H as (Hm & Hle & Hstop);
        [| reflexivity | eauto using cursor_at_step].
      simpl in Hle. split; [assumption | split; [lia | assumption]].
Qed.

Lemma match_of_progress r text m :
  match_of r text m -> m_start m + min_len r <= m_end m.
Proof.
  intros (c0 & _ & Hp & Hm). apply matches_min_len in Hm.
  unfold m_end. lia.
Qed.

(** With a pattern that cannot match the empty string, the scan ends
    before the fuel does. *)
Lemma finditer_from_total text r :
  1 <= min_len r ->
  forall fuel c,
    cursor_at text c -> length (rest c) < fuel ->
    exists ms, finditer_from fuel r c = inr ms.
Proof.
  intros Hmin. induction fuel as [| fuel IH]; intros c Hat Hfuel; [lia |].
  simpl. destruct (search_from r c (rest c)) as [m |] eqn:Hs.
  - apply (search_from_sound (text := text)) in Hs as (Hm & Hle & Hstop);
      [| reflexivity | assumption].
    apply match_of_progress in Hm. unfold m_end in Hm.
    apply cursor_at_length in Hat as Hl1.
    apply cursor_at_length in Hstop as Hl2.
    destruct (IH (m_stop m)) as (ms & ->); [assumption | lia |].
    eexists. reflexivity.
  - eexists. reflexivity.
Qed.

Lemma re_finditer_total r text :
  1 <= min_len r -> exists ms, re_finditer r text = inr ms.
Proof.
  intros Hmin. unfold re_finditer.
  apply (finditer_from_total (text := text)); simpl;
    [assumption | apply cursor_at_start | lia].
Qed.

Lemma finditer_from_spec text r :
  forall fuel c ms,
    cursor_at text c ->
    finditer_from fuel r c = inr ms ->
    Forall (match_of r text) ms /\ in_order (pos c) ms.
Proof.
  induction fuel as [| fuel IH]; intros c ms Hat H; simpl in H;
    [discriminate |].
  destruct (search_from r c (rest c)) as [m |] eqn:Hs.
  - inv_bind H. inv_ret H. subst ms.
    apply (search_from_sound (text := text)) in Hs as (Hm & Hle & Hstop);
      [| reflexivity | assumption].
    apply IH in Hx as (Hall & Hord); [| assumption].
    split; [constructor; assumption |].
    simpl. repeat split; try assumption.
    destruct Hm as (c0 & _ & Hp & Hm). apply matches_min_len in Hm.
    unfold m_end. lia.
  - inv_ret H. subst ms. split; constructor.
Qed.

Lemma re_finditer_spec r text ms :
  re_finditer r text = inr ms ->
  Forall (match_of r text) ms /\ in_order 0 ms.
Proof.
  intros H.
  apply (finditer_from_spec (text := text)) in H;
    [exact H | apply cursor_at_start].
Qed.

Lemma re_split_total r text maxsplit :
  1 <= min_len r -> exists parts, re_split r text maxsplit = inr parts.
Proof.
  intros Hmin. unfold re_split.
  destruct (@re_finditer_total r text Hmin) as (ms & ->).
  eexists. reflexivity.
Qed.

Lemma re_sub_total r repl text :
  1 <= min_len r -> exists out, re_sub r repl text = inr out.
Proof.
  intros Hmin. unfold re_sub.
  destruct (@re_finditer_total r text Hmin) as (ms & ->).
  eexists. reflexivity.
Qed.

(** ** Indexing and loops *)

Lemma list_get_in_range (A : Type) (l : list A) (i : nat) :
  i < length l ->
  exists x, list_get l (Z.of_nat i) = inr x /\ nth_error l i = Some x.
Proof.
  intros Hi.
  assert (E1 : (Z.of_nat i <? 0)%Z = false) by (apply Z.ltb_ge; lia).
  assert (E2 : (Z.of_nat (length l) <=? Z.of_nat i)%Z = false)
    by (apply Z.leb_gt; lia).
  unfold list_get. cbv zeta. rewrite E1. cbv iota. rewrite E1, E2.
  simpl. rewrite Nat2Z.id.
  destruct (nth_error l i) as [x |] eqn:Hn.
  - exists x. auto.
  - apply nth_error_None in Hn. lia.
Qed.

Lemma map_m_total (A B : Type) (f : A -> M B) (l : list A) :
  (forall x, exists y, f x = inr y) -> exists ys, map_m f l = inr ys.
Proof.
  intros Hf. induction l as [| x l (ys & IH)]; simpl.
  - eexists. reflexivity.
  - destruct (Hf x) as (y & ->). rewrite IH. eexists. reflexivity.
Qed.

Lemma map_m_length (A B : Type) (f : A -> M B) (l : list A) ys :
  map_m f l = inr ys -> length ys = length l.
Proof.
  revert ys. induction l as [| x l IH]; intros ys H; simpl in H.
  - inv_ret H. subst. reflexivity.
  - inv_bind H. inv_bind H. inv_ret H. subst. simpl. f_equal. auto.
Qed.

Lemma find_index_from_some (A : Type) (p : A -> bool) l :
  forall i j,
    find_index_from p i l = Some j ->
    i <= j /\ j - i < length l /\
    (exists x, nth_error l (j - i) = Some x /\ p x = true) /\
    (forall k x, k < j - i -> nth_error l k = Some x -> p x = false).
Proof.
  induction l as [| y l IH]; intros i j H; simpl in H; [discriminate |].
  destruct (p y) eqn:Hy.
  - injection H as <-. rewrite Nat.sub_diag. simpl.
    repeat split; try lia. exists y. auto.
  - apply IH in H as (Hle & Hlt & (x & Hn & Hp) & Hmin).
    replace (j - i) with (S (j - S i)) by lia. simpl.
    repeat split; try lia.
    + exists x. auto.
    + intros [| k] z Hk Hz; simpl in Hz.
      * injection Hz as <-. exact Hy.
      * eapply Hmin; [| exact Hz]. lia.
Qed.

Lemma find_index_from_none (A : Type) (p : A -> bool) l :
  forall i, find_index_from p i l = None -> forallb (fun x => negb (p x)) l = true.
Proof.
  induction l as [| y l IH]; intros i H; simpl in *; [reflexivity |].
  destruct (p y); [discriminate |]. simpl. eauto.
Qed.

(** ** Shapes of the matches *)

Ltac inv_matches :=
  repeat match goal with
    | H : matches Eps _ _ _ _ |- _ => inversion H; subst; clear H
    | H : matches (Chars _) _ _ _ _ |- _ => inversion H; subst; clear H
    | H : matches (Cat _ _) _ _ _ _ |- _ => inversion H; subst; clear H
    | H : matches (Alt _ _) _ _ _ _ |- _ => inversion H; subst; clear H
    | H : matches (Rep _ _ _) _ _ _ _ |- _ => inversion H; subst; clear H
    | H : matches (Opt _) _ _ _ _ |- _ => inversion H; subst; clear H
    | H : matches (Group _ _) _ _ _ _ |- _ => inversion H; subst; clear H
    | H : matches (Bol _) _ _ _ _ |- _ => inversion H; subst; clear H
    | H : matches (Eol _) _ _ _ _ |- _ => inversion H; subst; clear H
    end.

Ltac words :=
  repeat match goal with
    | H : chars_of _ _ _ _ |- _ =>
        let w := fresh "w" in
        let Hl := fresh "Hlen" in
        let Ha := fresh "Hall" in
        let Hr := fresh "Hrest" in
        let Hp := fresh "Hpos" in
        apply chars_of_word in H as (w & Hl & Ha & Hr & Hp)
    end.

Lemma group_text (c c' : cursor) (w : str) :
  rest c = w ++ rest c' -> pos c' = pos c + length w ->
  firstn (pos c' - pos c) (rest c) = w.
Proof.
  intros -> ->. replace (pos c + length w - pos c) with (length w) by lia.
  rewrite firstn_app, firstn_all, Nat.sub_diag. simpl. apply app_nil_r.
Qed.

Lemma last_char_none pre : last_char pre = None -> pre = [].
Proof.
  unfold last_char. destruct (rev pre) eqn:Hr; [| discriminate].
  intros _. apply (f_equal (@rev char)) in Hr. rewrite rev_involutive in Hr.
  exact Hr.
Qed.

Lemma at_bol_line_start pre c :
  prev c = last_char pre -> at_bol true c = true ->
  pre = [] \/ last_char pre = Some LF.
Proof.
  unfold at_bol. intros ->. destruct (last_char pre) as [x |] eqn:Hl.
  - simpl. intros Hx. apply N.eqb_eq in Hx. subst. auto.
  - intros _. left. apply last_char_none. exact Hl.
Qed.

Lemma at_eol_line_end c :
  at_eol true c = true -> rest c = [] \/ hd_error (rest c) = Some LF.
Proof.
  unfold at_eol. destruct (rest c) as [| x s]; [auto |].
  simpl. rewrite andb_true_r. intros Hx. apply N.eqb_eq in Hx. subst. auto.
Qed.

Lemma section_match_shape text m :
  match_of SECTION_HEADER_RE text m -> heading_at text m.
Proof.
  intros (c0 & (pre & Ht & Hp & Hv) & Hs & Hm).
  unfold SECTION_HEADER_RE, Seq, Lit, Plus, Star in Hm. simpl in Hm.
  inv_matches.
  match goal with H : rest _ = _ :: _ |- _ => rename H into Hhash end.
  match goal with H : (hash =? _)%N = true |- _ =>
    apply N.eqb_eq in H; subst end.
  words. subst. simpl in Hrest1, Hpos1.
  exists w. split.
  2: { match goal with H : _ = m_caps m |- _ => rewrite <- H end.
       simpl. f_equal. apply group_text; assumption. }
  exists pre, w0, (hash :: w1), w2, (rest (m_stop m)).
  split.
  { rewrite Hrest0, Hhash, Hrest1, Hrest2, Hrest.
    repeat (simpl; rewrite <- app_assoc). reflexivity. }
  split; [congruence |].
  split.
  { unfold m_end. repeat rewrite length_app. simpl. lia. }
  split; [eapply at_bol_line_start; eassumption |].
  split; [apply at_eol_line_end; assumption |].
  split; [assumption |].
  split; [exact Hall1 |].
  split; [simpl; lia |].
  repeat (split; [assumption |]). assumption.
Qed.

Lemma scenario_match_groups cell m :
  re_search SCENARIO_RE cell = Some m ->
  exists t s,
    lookup_group 1 (m_caps m) = Some t /\ lookup_group 2 (m_caps m) = Some s.
Proof.
  intros H. unfold re_search in H.
  apply (search_from_sound (text := cell)) in H as ((c0 & _ & _ & Hm) & _);
    [| reflexivity | apply cursor_at_start].
  unfold SCENARIO_RE, Seq, Lit, Plus, PlusLazy, Star in Hm. simpl in Hm.
  inv_matches.
  try match goal with H : _ = m_caps m |- _ => rewrite <- H end.
  simpl. eauto.
Qed.

Lemma at_eol_text_end c :
  at_eol false c = true -> rest c = [] \/ rest c = [LF].
Proof.
  unfold at_eol. destruct (rest c) as [| x [| y s]]; simpl; auto.
  - rewrite andb_true_r. intros Hx. apply N.eqb_eq in Hx. subst. auto.
  - rewrite andb_false_r. discriminate.
Qed.

Lemma index_match_shape cell m :
  re_match INDEX_CELL_RE cell = Some m ->
  index_like cell \/ exists s, cell = s ++ [LF] /\ index_like s.
Proof.
  unfold re_match. intros H.
  apply run_sound in H as (c' & g' & Hm & _).
  unfold INDEX_CELL_RE, Seq, Lit, Plus in Hm. simpl in Hm.
  inv_matches; words.
  - (* digits, a full stop, digits *)
    apply N.eqb_eq in H3. subst x.
    simpl in Hrest0, Hrest. subst s.
    assert (Hcell : cell = w0 ++ chr "." :: w ++ rest c')
      by (rewrite Hrest0, H0; reflexivity).
    apply at_eol_text_end in H1 as [He | He]; rewrite He in Hcell.
    + left. exists w0, w. rewrite app_nil_r in Hcell.
      repeat split; auto; try lia. right. split; [assumption | lia].
    + right. exists (w0 ++ chr "." :: w). split.
      * rewrite Hcell, <- app_assoc. reflexivity.
      * exists w0, w. repeat split; auto; try lia.
        right. split; [reflexivity | lia].
  - (* digits only *)
    simpl in Hrest. rename Hrest into Hcell.
    apply at_eol_text_end in H1 as [He | He]; rewrite He in Hcell.
    + left. exists w, []. rewrite app_nil_r in Hcell.
      repeat split; auto; lia.
    + right. exists w. split; [assumption |].
      exists w, []. repeat split; auto; lia.
Qed.

(** ** Strings *)

Lemma lstrip_by_head p s x t : lstrip_by p s = x :: t -> p x = false.
Proof.
  induction s as [| y s IH]; simpl; [discriminate |].
  destruct (p y) eqn:Hy; [exact IH |].
  intros H. injection H as -> _. exact Hy.
Qed.

Lemma strip_by_last p s w x : strip_by p s = w ++ [x] -> p x = false.
Proof.
  unfold strip_by, rstrip_by. intros H.
  apply (f_equal (@rev char)) in H.
  rewrite rev_involutive, rev_app_distr in H. simpl in H.
  eapply lstrip_by_head. exact H.
Qed.

Lemma split_from_nonempty sep s : forall cur, split_from sep cur s <> [].
Proof.
  induction s as [| x s IH]; intros cur; simpl; [discriminate |].
  destruct (x =? sep)%N; [discriminate | apply IH].
Qed.

Lemma truthy_filter (l : list str) : Forall (fun s => s <> []) (filter truthy l).
Proof.
  apply Forall_forall. intros s Hs. apply filter_In in Hs as [_ Ht].
  destruct s; discriminate.
Qed.

(** ** The helpers never raise *)

Lemma _safe_get_total cells idx :
  exists s, _safe_get cells idx = inr s /\ (s = [] \/ In s cells).
Proof.
  destruct idx as [i |]; simpl; [| eauto].
  destruct (Z.ltb_spec i 0) as [Hneg | Hpos]; simpl; [eauto |].
  destruct (Z.leb_spec (Z.of_nat (length cells)) i) as [Hbig | Hin];
    [eauto |].
  destruct (@list_get_in_range str cells (Z.to_nat i)) as (x & Hx & Hn);
    [lia |].
  rewrite Z2Nat.id in Hx by lia. exists x. split; [exact Hx |].
  right. eapply nth_error_In. exact Hn.
Qed.

Lemma _safe_get_first line :
  exists cell raw,
    _safe_get (cells_of line) (Some 0%Z) = inr cell /\
    hd_error (cells_of line) = Some cell /\ cell = str_strip raw.
Proof.
  unfold cells_of, str_split.
  destruct (split_from pipe [] (str_strip_chars [pipe] (str_strip line)))
    as [| raw rest] eqn:Hs.
  - exfalso. eapply split_from_nonempty. exact Hs.
  - exists (str_strip raw), raw. repeat split.
Qed.

Lemma _clean_region_name_total raw :
  exists name, _clean_region_name raw = inr name.
Proof.
  unfold _clean_region_name.
  destruct (@re_sub_total EMOJI_RE [] raw) as (out & ->); [simpl; lia |].
  eexists. reflexivity.
Qed.

Lemma _extract_title_and_summary_total cell :
  exists ts, _extract_title_and_summary cell = inr ts.
Proof.
  unfold _extract_title_and_summary.
  destruct (re_search SCENARIO_RE cell) as [m |] eqn:Hs.
  - apply scenario_match_groups in Hs as (t & s & H1 & H2).
    unfold group. rewrite H1, H2. eexists. reflexivity.
  - destruct (@re_split_total DASH_RE (_strip_markdown cell) 1)
      as (parts & ->); [simpl; lia |].
    simpl. destruct parts as [| p0 [| p1 [| p2 parts]]];
      eexists; reflexivity.
Qed.

Lemma _parse_technology_drivers_total cell :
  exists ds,
    _parse_technology_drivers cell = inr ds /\ Forall (fun d => d <> []) ds.
Proof.
  unfold _parse_technology_drivers.
  destruct (truthy cell); simpl; [| eexists; split; [reflexivity | constructor]].
  match goal with |- context [re_split _ ?t 0] =>
    destruct (@re_split_total DRIVER_SPLIT_RE t 0) as (items & ->) end;
    [simpl; lia |].
  simpl.
  match goal with |- context [map_m ?f items] =>
    destruct (@map_m_total _ _ f items) as (cs & ->) end.
  { intros item.
    destruct (@re_sub_total SPACES_RE (py " ") item) as (t & ->);
      [simpl; lia |].
    eexists. reflexivity. }
  eexists. split; [reflexivity | apply truthy_filter].
Qed.

Section HelpersTotal.
Variable str_lower : str -> str.

Lemma _normalize_header_text_total header :
  exists out, _normalize_header_text str_lower header = inr out.
Proof.
  unfold _normalize_header_text.
  destruct (@re_sub_total NON_ALNUM_RE (py " ") (str_lower header))
    as (t & ->); [simpl; lia |].
  simpl.
  destruct (@re_sub_total SPACES_RE (py " ") t) as (u & ->); [simpl; lia |].
  eexists. reflexivity.
Qed.
End HelpersTotal.

(** ** Rows *)

Lemma row_payload_total region cols line :
  exists r, row_payload region cols line = inr r.
Proof.
  unfold row_payload.
  destruct (_safe_get_first line) as (ic & raw & -> & _ & _). simpl.
  destruct (is_none (re_match INDEX_CELL_RE ic)); [eexists; reflexivity |].
  destruct (_safe_get_total (cells_of line) (sector_idx cols))
    as (c1 & -> & _).
  destruct (_safe_get_total (cells_of line) (scenario_idx cols))
    as (c2 & -> & _).
  destruct (_safe_get_total (cells_of line) (effect_idx cols))
    as (c3 & -> & _).
  destruct (_safe_get_total (cells_of line) (drivers_idx cols))
    as (c4 & -> & _).
  destruct (_safe_get_total (cells_of line) (source_idx cols))
    as (c5 & -> & _).
  simpl.
  destruct (truthy c2); simpl; [| eexists; reflexivity].
  destruct (_extract_title_and_summary_total c2) as ((t & s) & ->). simpl.
  destruct (negb (is_none (drivers_idx cols)) && truthy c4).
  - destruct (_parse_technology_drivers_total c4) as (ds & -> & _).
    eexists. reflexivity.
  - eexists. reflexivity.
Qed.

(** What went into an emitted payload. *)
Lemma row_payload_some region cols line p :
  row_payload region cols line = inr (Some p) ->
  exists index_cell sector_cell scenario_cell effect_cell driver_cell
         source_cell ttl smry,
    hd_error (cells_of line) = Some index_cell /\
    re_match INDEX_CELL_RE index_cell <> None /\
    _safe_get (cells_of line) (sector_idx cols) = inr sector_cell /\
    _safe_get (cells_of line) (scenario_idx cols) = inr scenario_cell /\
    _safe_get (cells_of line) (effect_idx cols) = inr effect_cell /\
    _safe_get (cells_of line) (drivers_idx cols) = inr driver_cell /\
    _safe_get (cells_of line) (source_idx cols) = inr source_cell /\
    scenario_cell <> [] /\
    _extract_title_and_summary scenario_cell = inr (ttl, smry) /\
    (if negb (is_none (drivers_idx cols)) && truthy driver_cell
     then _parse_technology_drivers driver_cell
     else inr []) = inr (technology_drivers p) /\
    economic_effects p = _build_effects effect_cell /\
    case_of p =
      {| region_name := region;
         sector_name := _strip_markdown sector_cell;
         title := ttl;
         summary := str_or smry (_strip_markdown effect_cell);
         detailed_notes :=
           if truthy (_strip_markdown source_cell)
           then Some (_strip_markdown source_cell) else None;
         key_effect_note := _strip_markdown effect_cell |}.
Proof.
  unfold row_payload. intros H.
  destruct (_safe_get_first line) as (ic & raw & Hic & Hhd & _).
  rewrite Hic in H. simpl in H.
  destruct (re_match INDEX_CELL_RE ic) as [mi |] eqn:Hidx; simpl in H;
    [| discriminate].
  inv_bind H. rename x into c1, Hx into H1.
  inv_bind H. rename x into c2, Hx into H2.
  inv_bind H. rename x into c3, Hx into H3.
  inv_bind H. rename x into c4, Hx into H4.
  inv_bind H. rename x into c5, Hx into H5.
  destruct c2 as [| y c2]; simpl in H; [discriminate |].
  inv_bind H. destruct x as (ttl & smry).
  inv_bind H. inv_ret H. subst p. simpl.
  exists ic, c1, (y :: c2), c3, c4, c5, ttl, smry.
  rewrite Hidx.
  repeat split; auto; discriminate.
Qed.

(** The loop over the data lines appends the payloads of the rows. *)
Lemma for_each_row_step region cols lines :
  forall payloads,
  exists rs,
    map_m (row_payload region cols) lines = inr rs /\
    for_each (row_step region cols) lines payloads
    = inr (payloads ++ flat_map (@opt_list payload) rs).
Proof.
  induction lines as [| line lines IH]; intros payloads; simpl.
  - exists []. simpl. rewrite app_nil_r. auto.
  - unfold row_step at 1.
    destruct (row_payload_total region cols line) as (r & ->). simpl.
    destruct r as [p |]; simpl.
    + destruct (IH (payloads ++ [p])) as (rs & -> & ->).
      exists (Some p :: rs). simpl. rewrite <- app_assoc. auto.
    + destruct (IH payloads) as (rs & -> & ->).
      exists (None :: rs). auto.
Qed.

(** ** Tables *)

Lemma enumerate_from_In (A : Type) (l : list A) :
  forall a i x,
    In (i, x) (combine (seq a (length l)) l) ->
    a <= i /\ nth_error l (i - a) = Some x.
Proof.
  induction l as [| y l IH]; intros a i x H; simpl in H; [contradiction |].
  destruct H as [H | H].
  - injection H as <- <-. rewrite Nat.sub_diag. auto.
  - apply IH in H as [Hle Hn].
    replace (i - a) with (S (i - S a)) by lia. simpl. split; [lia | exact Hn].
Qed.

Lemma enumerate_In (A : Type) (l : list A) i x :
  In (i, x) (enumerate l) -> nth_error l i = Some x.
Proof.
  unfold enumerate. intros H. apply enumerate_from_In in H as [_ H].
  rewrite Nat.sub_0_r in H. exact H.
Qed.

Lemma find_header_some tl i :
  find_header tl = Some i ->
  i < length tl /\
  (exists line,
      nth_error tl i = Some line /\ str_contains header_marker line = true) /\
  (forall k line,
      k < i -> nth_error tl k = Some line ->
      str_contains header_marker line = false).
Proof.
  unfold find_header. intros H. apply find_index_from_some in H.
  rewrite Nat.sub_0_r in H. tauto.
Qed.

Section Tables.
Variable str_lower : str -> str.

Lemma resolve_table_positional tl :
  find_header tl = None ->
  resolve_table str_lower tl = inr (positional, filter is_data_line tl).
Proof. unfold resolve_table. intros ->. reflexivity. Qed.

Lemma resolve_table_header tl i :
  find_header tl = Some i ->
  exists line headers,
    nth_error tl i = Some line /\
    map_m (_normalize_header_text str_lower) (cells_of line)
    = inr headers /\
    resolve_table str_lower tl
    = inr (columns_of_headers headers,
           map snd
             (filter (fun il => Nat.ltb i (fst il) && is_data_line (snd il))
                     (enumerate tl))).
Proof.
  intros H. unfold resolve_table. rewrite H.
  apply find_header_some in H as (Hi & _ & _).
  destruct (@list_get_in_range str tl i Hi) as (line & -> & Hn). simpl.
  destruct (@map_m_total _ _ (_normalize_header_text str_lower)
              (cells_of line)) as (headers & Hh).
  { intros c. apply _normalize_header_text_total. }
  exists line, headers. rewrite Hh. auto.
Qed.

(** Either way the table resolves, and its data lines are table lines
    that pass the data-line test. *)
Lemma resolve_table_total tl :
  exists cols dl,
    resolve_table str_lower tl = inr (cols, dl) /\
    length dl <= length tl /\
    Forall (fun ln => In ln tl /\ is_data_line ln = true) dl.
Proof.
  destruct (find_header tl) as [i |] eqn:Hh.
  - destruct (resolve_table_header _ Hh) as (line & hs & _ & _ & ->).
    eexists _, _. split; [reflexivity |]. split.
    { rewrite length_map.
      etransitivity; [apply filter_length_le |].
      unfold enumerate. rewrite length_combine, length_seq. lia. }
    apply Forall_forall. intros ln Hln.
    apply in_map_iff in Hln as ((k & ln') & Heq & Hin). simpl in Heq.
    subst ln'. apply filter_In in Hin as [Hin Hok]. simpl in Hok.
    apply andb_prop in Hok as [_ Hok].
    apply enumerate_In, nth_error_In in Hin. auto.
  - rewrite (resolve_table_positional _ Hh).
    eexists _, _. split; [reflexivity |].
    split; [apply filter_length_le |].
    apply Forall_forall. intros ln Hln. apply filter_In in Hln. exact Hln.
Qed.

Lemma resolve_table_data_lines tl cols dl :
  resolve_table str_lower tl = inr (cols, dl) ->
  length dl <= length tl /\
  Forall (fun ln => In ln tl /\ is_data_line ln = true) dl.
Proof.
  intros H. destruct (resolve_table_total tl) as (cols' & dl' & H' & Hl).
  rewrite H in H'. injection H' as <- <-. exact Hl.
Qed.
End Tables.

(** ** Sections *)

Lemma section_region_total text m :
  match_of SECTION_HEADER_RE text m ->
  exists region, section_region m = inr region.
Proof.
  intros Hm. apply section_match_shape in Hm.
  destruct Hm as (t & _ & Hg).
  unfold section_region, group. rewrite Hg.
  simpl. apply _clean_region_name_total.
Qed.

Lemma section_body_next text ms idx m nxt :
  nth_error ms (idx + 1) = Some nxt ->
  section_body text ms idx m
  = inr (str_slice text (m_end m) (m_start nxt)).
Proof.
  intros Hn. unfold section_body.
  assert (Hlt : idx + 1 < length ms)
    by (apply nth_error_Some; rewrite Hn; discriminate).
  apply Nat.ltb_lt in Hlt as Hb. rewrite Hb.
  destruct (@list_get_in_range rmatch ms (idx + 1) Hlt) as (x & -> & Hx).
  rewrite Hn in Hx. injection Hx as <-. reflexivity.
Qed.

Lemma section_body_last text ms idx m :
  length ms <= idx + 1 ->
  section_body text ms idx m
  = inr (str_slice text (m_end m) (length text)).
Proof.
  intros Hge. unfold section_body.
  apply Nat.ltb_ge in Hge. rewrite Hge. reflexivity.
Qed.

Lemma section_body_total text ms idx m :
  exists body, section_body text ms idx m = inr body.
Proof.
  destruct (nth_error ms (idx + 1)) as [nxt |] eqn:Hn.
  - rewrite (@section_body_next text ms idx m nxt Hn). eauto.
  - apply nth_error_None in Hn.
    rewrite (@section_body_last text ms idx m Hn). eauto.
Qed.

Section Sections.
Variable str_lower : str -> str.

(** One turn of the loop over the sections keeps the payloads it was
    given and appends those of its own rows. *)
Lemma section_step_spec text ms idx m :
  match_of SECTION_HEADER_RE text m ->
  forall payloads,
  exists new,
    section_step str_lower text ms payloads (idx, m)
    = inr (payloads ++ new) /\
    section_rows str_lower text ms (idx, m) new.
Proof.
  intros Hm payloads. unfold section_step, section_rows. simpl.
  destruct (section_region_total Hm) as (region & Hr).
  destruct (section_body_total text ms idx m) as (body & Hb).
  rewrite Hr, Hb. simpl.
  destruct (table_lines_of body) as [| ln tl] eqn:Htl.
  - exists []. rewrite app_nil_r. split; [reflexivity |].
    exists region, body. auto.
  - destruct (resolve_table_total str_lower (ln :: tl))
      as (cols & dl & Hres & _).
    rewrite <- Htl in *. rewrite Hres. simpl.
    destruct (mandatory_missing cols) eqn:Hmiss.
    + exists []. rewrite app_nil_r. split; [reflexivity |].
      exists region, body. auto.
    + destruct (for_each_row_step region cols dl payloads)
        as (rs & Hrs & ->).
      eexists. split; [reflexivity |].
      exists region, body. repeat split; auto.
      right. exists cols, dl, rs. auto.
Qed.

Lemma for_each_append (A B : Type) (body : list B -> A -> M (list B))
    (P : A -> list B -> Prop) (l : list A) :
  Forall (fun x => forall acc,
              exists new, body acc x = inr (acc ++ new) /\ P x new) l ->
  forall acc,
  exists news,
    Forall2 P l news /\ for_each body l acc = inr (acc ++ concat news).
Proof.
  induction 1 as [| x l Hx _ IH]; intros acc; simpl.
  - exists []. rewrite app_nil_r. auto.
  - destruct (Hx acc) as (new & -> & HP). simpl.
    destruct (IH (acc ++ new)) as (news & Hall & ->).
    exists (new :: news). simpl. rewrite app_assoc. auto.
Qed.

(** The whole parse: the matches of the section pattern, and per match
    the payloads of its section, concatenated in the order of the
    matches. *)
Lemma parse_agent_output_sections text :
  exists ms news,
    re_finditer SECTION_HEADER_RE text = inr ms /\
    Forall2 (section_rows str_lower text ms) (enumerate ms) news /\
    parse_agent_output str_lower text = inr (concat news).
Proof.
  unfold parse_agent_output.
  destruct (@re_finditer_total SECTION_HEADER_RE text) as (ms & Hms);
    [simpl; lia |].
  rewrite Hms. simpl.
  apply re_finditer_spec in Hms as Hspec. destruct Hspec as (Hall & _).
  destruct (@for_each_append _ _ (section_step str_lower text ms)
              (section_rows str_lower text ms) (enumerate ms)) with (acc := @nil payload)
    as (news & HF & Hrun).
  { apply Forall_forall. intros (idx & m) Hin acc.
    apply section_step_spec.
    apply enumerate_In, nth_error_In in Hin.
    rewrite Forall_forall in Hall. auto. }
  exists ms, news. auto.
Qed.
End Sections.

(** ** Where payloads come from *)

Lemma map_m_In (A B : Type) (f : A -> M (option B)) (l : list A) :
  forall rs y,
    map_m f l = inr rs -> In y (flat_map (@opt_list B) rs) ->
    exists x, In x l /\ f x = inr (Some y).
Proof.
  induction l as [| x l IH]; intros rs y H Hin; simpl in H.
  - inv_ret H. subst. contradiction.
  - inv_bind H. inv_bind H. inv_ret H. subst rs. simpl in Hin.
    apply in_app_or in Hin as [Hin | Hin].
    + destruct x0 as [z |]; simpl in Hin; [| contradiction].
      destruct Hin as [-> | []]. exists x. split; [left; reflexivity | exact Hx].
    + destruct (IH _ _ Hx0 Hin) as (x' & Hx' & Hf). exists x'.
      split; [right; exact Hx' | exact Hf].
Qed.

Lemma Forall_concat_Forall2 (A B : Type) (P : A -> list B -> Prop)
    (Q : B -> Prop) (l : list A) (news : list (list B)) :
  Forall2 P l news ->
  (forall x new, In x l -> P x new -> Forall Q new) ->
  Forall Q (concat news).
Proof.
  induction 1 as [| x new l news HP _ IH]; intros HQ; simpl.
  - constructor.
  - apply Forall_app. split.
    + apply (HQ x); simpl; auto.
    + apply IH. intros y ny Hy. apply HQ. simpl. auto.
Qed.

Section Provenance.
Variable str_lower : str -> str.

(** The parse returns, and each of its payloads was built from a data
    line of a section. *)
Lemma parse_agent_output_rows text :
  exists ps,
    parse_agent_output str_lower text = inr ps /\
    Forall (fun p => exists m region cols line,
                emitted_by str_lower text p m region cols line) ps.
Proof.
  destruct (parse_agent_output_sections str_lower text)
    as (ms & news & Hms & HF & Hparse).
  exists (concat news). split; [exact Hparse |].
  eapply Forall_concat_Forall2; [exact HF |].
  intros (idx & m) new Hin (region & body & Hr & Hb & Hnew).
  simpl in Hr, Hb. apply enumerate_In in Hin.
  destruct Hnew as [-> | (cols & dl & rs & Hres & Hmiss & Hrs & ->)];
    [constructor |].
  apply Forall_forall. intros p Hp.
  destruct (map_m_In _ _ _ Hrs Hp) as (line & Hline & Hrow).
  exists m, region, cols, line, ms, idx, body, dl. auto 10.
Qed.
End Provenance.

Lemma opt_list_length (A : Type) (rs : list (option A)) :
  length (flat_map (@opt_list A) rs) <= length rs.
Proof.
  induction rs as [| [x |] rs IH]; simpl; lia.
Qed.

(** ** Completeness of the matcher: what can match is found *)

Section Completeness.
Variable R : Type.

Lemma rep_greedy_complete cs c c' n :
  chars_of cs c c' n ->
  forall least (k : cursor -> option R),
    least <= n -> k c' <> None ->
    rep_greedy cs least c (rest c) k <> None.
Proof.
  induction 1 as [c | c x s c' n Hc Hx _ IH]; intros least k Hle Hk.
  - assert (least = 0) by lia. subst least.
    destruct (rest c) as [| x s]; simpl; [exact Hk |].
    destruct (cs x); [| exact Hk].
    destruct (rep_greedy cs 0 (step c x s) s k); [discriminate | exact Hk].
  - rewrite Hc. simpl. rewrite Hx.
    specialize (IH (pred least) k). simpl in IH.
    destruct (rep_greedy cs (pred least) (step c x s) s k);
      [discriminate |].
    exfalso. apply IH; [lia | exact Hk | reflexivity].
Qed.

Lemma rep_lazy_complete cs c c' n :
  chars_of cs c c' n ->
  forall least (k : cursor -> option R),
    least <= n -> k c' <> None ->
    rep_lazy cs least c (rest c) k <> None.
Proof.
  induction 1 as [c | c x s c' n Hc Hx _ IH]; intros least k Hle Hk.
  - assert (least = 0) by lia. subst least.
    destruct (rest c) as [| x s]; simpl;
      destruct (k c); try discriminate; contradiction.
  - rewrite Hc. simpl.
    destruct (if_done least k c); [discriminate |].
    rewrite Hx. specialize (IH (pred least) k). simpl in IH.
    apply IH; [lia | exact Hk].
Qed.

Theorem run_complete r c g c' g' :
  matches r c g c' g' ->
  forall k : cursor -> caps -> option R,
    k c' g' <> None -> run r c g k <> None.
Proof.
  induction 1 as [c g | cs c g x s Hc Hx | r1 r2 c g c1 g1 c2 g2 _ IH1 _ IH2
                  | r1 r2 c g c' g' _ IH | r1 r2 c g c' g' _ IH
                  | lazy least cs c g c' n Hn Hle | r c g c' g' _ IH
                  | r c g | n r c g c' g' _ IH | m c g Hb | m c g Hb];
    intros k Hk; simpl.
  - exact Hk.
  - rewrite Hc, Hx. exact Hk.
  - apply IH1. apply IH2. exact Hk.
  - destruct (run r1 c g k) eqn:Hr; [discriminate |].
    exfalso. eapply IH; eassumption.
  - destruct (run r1 c g k); [discriminate | apply IH; exact Hk].
  - destruct lazy.
    + apply (rep_lazy_complete Hn (fun c0 => k c0 g) Hle Hk).
    + apply (rep_greedy_complete Hn (fun c0 => k c0 g) Hle Hk).
  - destruct (run r c g k) eqn:Hr; [discriminate |].
    exfalso. eapply IH; eassumption.
  - destruct (run r c g k); [discriminate | exact Hk].
  - apply IH. exact Hk.
  - rewrite Hb. exact Hk.
  - rewrite Hb. exact Hk.
Qed.
End Completeness.

Lemma cursor_at_unique text c1 c2 :
  cursor_at text c1 -> cursor_at text c2 -> pos c1 = pos c2 -> c1 = c2.
Proof.
  intros (p1 & Ht1 & Hp1 & Hv1) (p2 & Ht2 & Hp2 & Hv2) Hpos.
  destruct c1 as [n1 v1 r1], c2 as [n2 v2 r2]. simpl in *.
  assert (Hlen : length p1 = length p2) by congruence.
  rewrite Ht1 in Ht2.
  apply app_eq_app in Ht2 as (l & [[Hp Hr] | [Hp Hr]]);
    subst; rewrite length_app in Hlen;
    (destruct l; [| simpl in Hlen; lia]);
    rewrite ?app_nil_r; reflexivity.
Qed.

(** The search does not skip a position at which the pattern matches. *)
Lemma search_from_leftmost text r s :
  forall c c0 c' g',
    rest c = s -> cursor_at text c ->
    cursor_at text c0 -> pos c <= pos c0 -> matches r c0 [] c' g' ->
    exists m, search_from r c s = Some m /\ m_start m <= pos c0.
Proof.
  induction s as [| x s IH]; intros c c0 c' g' Hc Hat Hat0 Hle Hm.
  - assert (c0 = c) as ->.
    { apply (cursor_at_unique Hat0 Hat).
      apply cursor_at_length in Hat, Hat0. rewrite Hc in Hat.
      simpl in Hat. lia. }
    simpl.
    destruct (run r c [] (fun c1 g1 => Some (Match (pos c) c1 g1))) eqn:Hrun.
    + apply run_sound in Hrun as (c1 & g1 & _ & Hk). injection Hk as <-.
      eexists. split; [reflexivity | simpl; lia].
    + exfalso. eapply run_complete; [exact Hm | | exact Hrun]. discriminate.
  - simpl.
    destruct (run r c [] (fun c1 g1 => Some (Match (pos c) c1 g1))) eqn:Hrun.
    + apply run_sound in Hrun as (c1 & g1 & _ & Hk). injection Hk as <-.
      eexists. split; [reflexivity | simpl; lia].
    + destruct (Nat.eq_dec (pos c0) (pos c)) as [Heq | Hne].
      * assert (c0 = c) as -> by (apply (cursor_at_unique Hat0 Hat Heq)).
        exfalso. eapply run_complete; [exact Hm | | exact Hrun].
        discriminate.
      * apply (IH (step c x s) c0 c' g'); try assumption;
          [reflexivity | eauto using cursor_at_step | simpl; lia].
Qed.

Lemma finditer_from_leftmost text r :
  forall fuel c ms,
    cursor_at text c ->
    finditer_from fuel r c = inr ms ->
    leftmost_from r text (pos c) ms.
Proof.
  induction fuel as [| fuel IH]; intros c ms Hat H; simpl in H;
    [discriminate |].
  destruct (search_from r c (rest c)) as [m |] eqn:Hs.
  - inv_bind H. inv_ret H. subst ms. simpl. split.
    + intros c0 c' g' Hat0 Hle Hlt Hm.
      destruct (@search_from_leftmost text r (rest c) c c0 c' g')
        as (m' & Hs' & Hle'); try assumption; try reflexivity.
      rewrite Hs in Hs'. injection Hs' as <-. lia.
    + apply (search_from_sound (text := text)) in Hs as (_ & _ & Hstop);
        [| reflexivity | assumption].
      apply (IH (m_stop m)); assumption.
  - inv_ret H. subst ms. simpl. intros c0 c' g' Hat0 Hle Hm.
    destruct (@search_from_leftmost text r (rest c) c c0 c' g')
      as (m' & Hs' & _); try assumption; try reflexivity.
    congruence.
Qed.

(** Reading a word of a character set. *)
Lemma chars_of_intro cs w :
  forall c s,
    rest c = w ++ s -> forallb cs w = true ->
    exists c',
      chars_of cs c c' (length w) /\ rest c' = s /\
      pos c' = pos c + length w.
Proof.
  induction w as [| x w IH]; intros c s Hc Hall; simpl in *.
  - exists c. repeat split; [constructor | assumption | lia].
  - apply andb_prop in Hall as [Hx Hall].
    destruct (IH (step c x (w ++ s)) s) as (c' & Hch & Hr & Hp);
      [reflexivity | assumption |].
    exists c'. simpl in Hp.
    repeat split; [econstructor; eassumption | assumption | lia].
Qed.

(** A heading shape is a match of the section pattern. *)
Lemma heading_shape_matches text start stop t :
  heading_shape text start stop t ->
  exists c0 c' g',
    cursor_at text c0 /\ pos c0 = start /\
    matches SECTION_HEADER_RE c0 [] c' g'.
Proof.
  intros (pre & ws & hs & ws2 & post & Ht & Hs & _ & Hbol & Heol & Hws
          & Hhs & Hn & Hws2 & Hn2 & Hdot & Hnt).
  destruct hs as [| h hs]; [simpl in Hn; lia |].
  simpl in Hn.
  change (forallb (N.eqb hash) (h :: hs))
    with (N.eqb hash h && forallb (N.eqb hash) hs) in Hhs.
  apply andb_prop in Hhs as [Hh Hhs].
  apply N.eqb_eq in Hh. subst h.
  set (c0 := Cursor (length pre) (last_char pre)
               (ws ++ (hash :: hs) ++ ws2 ++ t ++ post)).
  assert (Hat : cursor_at text c0).
  { exists pre. simpl. repeat split. rewrite Ht.
    repeat (simpl; rewrite <- app_assoc). reflexivity. }
  destruct (@chars_of_intro isspace ws c0 ((hash :: hs) ++ ws2 ++ t ++ post))
    as (c1 & Hc1 & Hr1 & _); [reflexivity | assumption |].
  destruct (@chars_of_intro (N.eqb hash) hs
              (step c1 hash (hs ++ ws2 ++ t ++ post)) (ws2 ++ t ++ post))
    as (c2 & Hc2 & Hr2 & _); [reflexivity | assumption |].
  destruct (@chars_of_intro isspace ws2 c2 (t ++ post))
    as (c3 & Hc3 & Hr3 & _); [assumption | assumption |].
  destruct (@chars_of_intro dot t c3 post)
    as (c4 & Hc4 & Hr4 & _); [assumption | assumption |].
  exists c0, c4. eexists. split; [exact Hat |]. split; [symmetry; exact Hs |].
  unfold SECTION_HEADER_RE, Seq, Lit, Plus, Star. simpl.
  eapply m_cat.
  { apply m_bol. unfold at_bol. simpl.
    destruct Hbol as [-> | ->]; reflexivity. }
  eapply m_cat; [eapply m_rep; [exact Hc1 | lia] |].
  eapply m_cat; [apply m_chars; [exact Hr1 | apply N.eqb_refl] |].
  eapply m_cat; [eapply m_rep; [exact Hc2 | lia] |].
  eapply m_cat; [eapply m_rep; [exact Hc3 | lia] |].
  eapply m_cat; [apply m_group; eapply m_rep; [exact Hc4 | lia] |].
  eapply m_cat; [| apply m_eps].
  apply m_eol. unfold at_eol. rewrite Hr4.
  destruct Heol as [-> | Hhd]; [reflexivity |].
  destruct post as [| y post]; [reflexivity |].
  simpl in Hhd. injection Hhd as ->. reflexivity.
Qed.

Lemma leftmost_headings_of text :
  forall ms from,
    leftmost_from SECTION_HEADER_RE text from ms ->
    leftmost_headings text from ms.
Proof.
  induction ms as [| m ms IH]; intros from H; simpl in *.
  - intros start stop t Hle Hsh.
    apply heading_shape_matches in Hsh as (c0 & c' & g' & Hat & Hp & Hm).
    apply (H c0 c' g'); [assumption | lia | assumption].
  - destruct H as [Hgap Hrest]. split; [| apply IH; exact Hrest].
    intros start stop t Hle Hlt Hsh.
    apply heading_shape_matches in Hsh as (c0 & c' & g' & Hat & Hp & Hm).
    apply (Hgap c0 c' g'); [assumption | lia | lia | assumption].
Qed.

(** * The statements of the specification *)

(** C1: for every input string [parse_agent_output] returns a list of
    payloads and never raises.  The list is the concatenation, in section
    order, of what each section adds, and a section adds at most one
    payload per table line: malformed rows and sections only make the list
    shorter.  A single row, however malformed and under any columns,
    gives a payload or is skipped; it never raises either. *)
Theorem parse_agent_output_never_raises (str_lower : str -> str) (text : str) :
  (exists ms news,
      re_finditer SECTION_HEADER_RE text = inr ms /\
      parse_agent_output str_lower text = inr (concat news) /\
      Forall2 (fun im new =>
                 exists body,
                   section_body text ms (fst im) (snd im) = inr body /\
                   length new <= length (table_lines_of body))
              (enumerate ms) news) /\
  (forall region cols line, exists r, row_payload region cols line = inr r).
Proof.
  split; [| intros; apply row_payload_total].
  destruct (parse_agent_output_sections str_lower text)
    as (ms & news & Hms & HF & Hparse).
  exists ms, news. repeat split; try assumption.
  eapply Forall2_impl; [| exact HF].
  intros im new (region & body & _ & Hb & Hnew).
  exists body. split; [exact Hb |].
  destruct Hnew as [-> | (cols & dl & rs & Hres & _ & Hrs & ->)];
    [simpl; lia |].
  apply resolve_table_data_lines in Hres as [Hlen _].
  apply map_m_length in Hrs.
  pose proof (opt_list_length rs). lia.
Qed.

Lemma Forall2_combine_seq (A B : Type) (R : nat * A -> B -> Prop)
    (l : list A) :
  forall a l',
    Forall2 R (combine (seq a (length l)) l) l' ->
    length l' = length l /\
    forall idx x y,
      nth_error l idx = Some x -> nth_error l' idx = Some y ->
      R (a + idx, x) y.
Proof.
  induction l as [| z l IH]; intros a l' H; simpl in H.
  - inversion H; subst. split; [reflexivity |].
    intros [| idx] x y Hx; discriminate.
  - inversion H as [| ? y0 ? l0 Hz Hrest]; subst.
    apply IH in Hrest as [Hlen Hnth]. split; [simpl; lia |].
    intros [| idx] x y Hx Hy; simpl in Hx, Hy.
    + injection Hx as <-. injection Hy as <-.
      rewrite Nat.add_0_r. exact Hz.
    + replace (a + S idx) with (S a + idx) by lia. eauto.
Qed.

Lemma Forall2_enumerate (A B : Type) (R : nat * A -> B -> Prop)
    (l : list A) (l' : list B) :
  Forall2 R (enumerate l) l' ->
  length l' = length l /\
  forall idx x y,
    nth_error l idx = Some x -> nth_error l' idx = Some y -> R (idx, x) y.
Proof. unfold enumerate. intros H. apply Forall2_combine_seq in H. exact H. Qed.

(** C9: the payloads come grouped by section, the groups in the order of
    the section headings in the input: the group at position [idx]
    belongs to the heading match at position [idx], and the matches are
    in text order.  Every payload of a group carries as [region_name]
    the cleaned text of that heading, and was built, under the columns of
    that section's table, from a data line of the table found in the text
    between the end of that heading and the start of the next one (the
    end of the input after the last heading). *)
Theorem sections_in_order_with_region (str_lower : str -> str) (text : str) :
  exists ms news,
    re_finditer SECTION_HEADER_RE text = inr ms /\
    in_order 0 ms /\
    parse_agent_output str_lower text = inr (concat news) /\
    length news = length ms /\
    forall idx m new,
      nth_error ms idx = Some m -> nth_error news idx = Some new ->
      exists heading region,
        heading_shape text (m_start m) (m_end m) heading /\
        _clean_region_name (str_strip heading) = inr region /\
        Forall (fun p =>
                  region_name (case_of p) = region /\
                  exists cols dl line,
                    resolve_table str_lower
                      (table_lines_of (between_headings text ms idx m))
                    = inr (cols, dl) /\
                    In line dl /\
                    In line (str_splitlines (between_headings text ms idx m)) /\
                    row_payload region cols line = inr (Some p))
               new.
Proof.
  destruct (parse_agent_output_sections str_lower text)
    as (ms & news & Hms & HF & Hparse).
  exists ms, news. apply re_finditer_spec in Hms as Hspec.
  destruct Hspec as (Hall & Hord).
  apply Forall2_enumerate in HF as [Hlen Hnth].
  split; [exact Hms |]. split; [exact Hord |]. split; [exact Hparse |].
  split; [exact Hlen |].
  intros idx m new Hm Hnew.
  destruct (Hnth idx m new Hm Hnew) as (region & body & Hr & Hb & Hrows).
  simpl in Hr, Hb.
  (* the heading is group 1 of the match *)
  rewrite Forall_forall in Hall.
  destruct (section_match_shape (Hall m (nth_error_In _ _ Hm)))
    as (heading & Hshape & Hg).
  unfold section_region, group in Hr. rewrite Hg in Hr. simpl in Hr.
  exists heading, region. split; [exact Hshape |]. split; [exact Hr |].
  (* the body is the text up to the next heading *)
  assert (Ebody : body = between_headings text ms idx m).
  { unfold between_headings.
    destruct (nth_error ms (idx + 1)) as [nxt |] eqn:Hn.
    - rewrite (@section_body_next text ms idx m nxt Hn) in Hb.
      injection Hb as <-. reflexivity.
    - apply nth_error_None in Hn.
      rewrite (@section_body_last text ms idx m Hn) in Hb.
      injection Hb as <-. reflexivity. }
  subst body.
  destruct Hrows as [-> | (cols & dl & rs & Hres & _ & Hrs & ->)];
    [constructor |].
  pose proof (resolve_table_data_lines _ _ Hres) as [_ Hdl].
  rewrite Forall_forall in Hdl.
  apply Forall_forall. intros p Hp.
  destruct (map_m_In _ _ _ Hrs Hp) as (line & Hline & Hrow).
  split.
  - apply row_payload_some in Hrow
      as (? & ? & ? & ? & ? & ? & ? & ? & Hrow).
    decompose [and] Hrow.
    match goal with H : case_of p = _ |- _ => rewrite H end. reflexivity.
  - exists cols, dl, line. split; [exact Hres |]. split; [exact Hline |].
    split; [| exact Hrow].
    destruct (Hdl line Hline) as [Htl _].
    unfold table_lines_of in Htl. apply filter_In in Htl as [Htl _].
    exact Htl.
Qed.

(** C2, the counterexample: the row [| 1 | S | - |] has a non-empty
    scenario cell, and its payload is emitted with an empty title and an
    empty summary. *)
Lemma empty_title_and_summary_emitted :
  exists p,
    parse_agent_output lower_basic bare_dash_doc = inr [p] /\
    title (case_of p) = [] /\ summary (case_of p) = [].
Proof. eexists. vm_compute. repeat split. Qed.

(** C2, as amended: every payload emitted by [parse_agent_output] comes
    from a row whose scenario cell is non-empty, and its title and summary
    are those extracted from that cell (the summary falling back to the
    effect note); a row whose scenario cell is empty contributes no
    payload. *)
Theorem payload_rows_have_scenario (str_lower : str -> str) (text : str) :
  (exists ps,
      parse_agent_output str_lower text = inr ps /\
      Forall (fun p =>
                exists m region cols line scenario_cell ttl smry,
                  emitted_by str_lower text p m region cols line /\
                  _safe_get (cells_of line) (scenario_idx cols)
                  = inr scenario_cell /\
                  scenario_cell <> [] /\
                  _extract_title_and_summary scenario_cell
                  = inr (ttl, smry) /\
                  title (case_of p) = ttl /\
                  summary (case_of p)
                  = str_or smry (key_effect_note (case_of p)))
             ps) /\
  (forall region cols line,
      _safe_get (cells_of line) (scenario_idx cols) = inr [] ->
      row_payload region cols line = inr None).
Proof.
  split.
  - destruct (parse_agent_output_rows str_lower text) as (ps & Hparse & Hall).
    exists ps. split; [exact Hparse |].
    eapply Forall_impl; [| exact Hall].
    intros p (m & region & cols & line & Hem).
    pose proof Hem as (_ & _ & _ & _ & _ & _ & _ & _ & _ & _ & _ & Hrow).
    apply row_payload_some in Hrow
      as (ic & c1 & c2 & c3 & c4 & c5 & ttl & smry & Hrow).
    decompose [and] Hrow.
    exists m, region, cols, line, c2, ttl, smry.
    match goal with H : case_of p = _ |- _ => rewrite H end. simpl.
    repeat split; assumption.
  - intros region cols line Hsc.
    destruct (row_payload_total region cols line) as ([p |] & Hrow);
      [| exact Hrow].
    apply row_payload_some in Hrow
      as (ic & c1 & c2 & c3 & c4 & c5 & ttl & smry & Hrow).
    decompose [and] Hrow. congruence.
Qed.

(** A stripped cell does not end in a newline. *)
Lemma stripped_no_final_newline raw s : str_strip raw <> s ++ [LF].
Proof.
  intros H. apply strip_by_last in H. discriminate.
Qed.

Lemma emitted_row (str_lower : str -> str) text p m region cols line :
  emitted_by str_lower text p m region cols line ->
  row_payload region cols line = inr (Some p).
Proof. intros (ms & idx & body & dl & H). tauto. Qed.

(** C5: every payload comes from a row whose first cell is a numeral:
    digits, or digits, a full stop and digits; the cells "3" and "3.1"
    pass the index pattern.  A row whose first cell is prose, such as
    [| Примечание | ... |], gives no payload under any columns. *)
Theorem payload_rows_are_indexed (str_lower : str -> str) (text : str) :
  (exists ps,
      parse_agent_output str_lower text = inr ps /\
      Forall (fun p =>
                exists m region cols line index_cell,
                  emitted_by str_lower text p m region cols line /\
                  hd_error (cells_of line) = Some index_cell /\
                  index_like index_cell)
             ps) /\
  (is_none (re_match INDEX_CELL_RE (py "3")) = false /\
   is_none (re_match INDEX_CELL_RE (py "3.1")) = false) /\
  (forall region cols, row_payload region cols note_row = inr None).
Proof.
  split; [| split; [split; vm_compute; reflexivity
                   | intros region cols; vm_compute; reflexivity]].
  destruct (parse_agent_output_rows str_lower text) as (ps & Hparse & Hall).
  exists ps. split; [exact Hparse |].
  eapply Forall_impl; [| exact Hall].
  intros p (m & region & cols & line & Hem).
  pose proof (emitted_row Hem) as Hrow.
  apply row_payload_some in Hrow
    as (ic & c1 & c2 & c3 & c4 & c5 & ttl & smry & Hhd & Hidx & _).
  exists m, region, cols, line, ic. repeat split; try assumption.
  destruct (re_match INDEX_CELL_RE ic) as [mi |] eqn:Hm; [| congruence].
  apply index_match_shape in Hm as [Hm | (s & Hs & _)]; [exact Hm |].
  exfalso.
  destruct (_safe_get_first line) as (cell & raw & _ & Hhd' & Hraw).
  rewrite Hhd in Hhd'. injection Hhd' as Heq.
  rewrite Heq, Hraw in Hs.
  eapply stripped_no_final_newline. exact Hs.
Qed.

(** C10: the data lines of a table, with or without header row, are table
    lines that do not contain [---]; so every payload comes from a line
    without [---], and a row with [---] inside a cell gives no payload. *)
Theorem dashed_lines_give_no_payload (str_lower : str -> str) (text : str) :
  (forall tl,
      exists cols dl,
        resolve_table str_lower tl = inr (cols, dl) /\
        Forall (fun ln => In ln tl /\ str_contains (py "---") ln = false) dl)
  /\
  (exists ps,
      parse_agent_output str_lower text = inr ps /\
      Forall (fun p =>
                exists m region cols line,
                  emitted_by str_lower text p m region cols line /\
                  str_contains (py "---") line = false)
             ps) /\
  parse_agent_output str_lower dashes_in_cell_doc = inr [].
Proof.
  assert (Hdata : forall ln, is_data_line ln = true ->
                             str_contains (py "---") ln = false).
  { intros ln H. unfold is_data_line in H. apply andb_prop in H as [H _].
    apply negb_true_iff in H. exact H. }
  split; [| split; [| vm_compute; reflexivity]].
  - intros tl.
    destruct (resolve_table_total str_lower tl) as (cols & dl & Hres & _ & Hdl).
    exists cols, dl. split; [exact Hres |].
    eapply Forall_impl; [| exact Hdl]. intros ln [Hin Hok]. auto.
  - destruct (parse_agent_output_rows str_lower text) as (ps & Hparse & Hall).
    exists ps. split; [exact Hparse |].
    eapply Forall_impl; [| exact Hall].
    intros p (m & region & cols & line & Hem).
    exists m, region, cols, line. split; [exact Hem |].
    destruct Hem as (ms & idx & body & dl & _ & _ & _ & _ & Hres & _ & Hin & _).
    apply resolve_table_data_lines in Hres as [_ Hdl].
    rewrite Forall_forall in Hdl. apply Hdata, Hdl, Hin.
Qed.

(** C7, the counterexample: the effect cell of the row is [**], which is
    not empty, and the payload has no economic effect. *)
Lemma nonempty_effect_cell_without_effect :
  exists p,
    parse_agent_output lower_basic marker_effect_doc = inr [p] /\
    _safe_get (cells_of (py "| 1 | S | **T** - U | ** | LLM, LLM |"))
              (Some 3%Z) = inr (py "**") /\
    economic_effects p = [].
Proof. eexists. vm_compute. repeat split. Qed.

(** C7, as amended: the economic effects of a payload are one text note
    holding the effect note when the effect cell, stripped of markdown, is
    not empty (that is, when [key_effect_note] is not empty), and none
    otherwise; the note has [effect_type] "text_note" and no numeric value
    or currency. *)
Theorem effects_follow_effect_note (str_lower : str -> str) (text : str) :
  exists ps,
    parse_agent_output str_lower text = inr ps /\
    Forall (fun p =>
              (exists m region cols line effect_cell,
                  emitted_by str_lower text p m region cols line /\
                  _safe_get (cells_of line) (effect_idx cols)
                  = inr effect_cell /\
                  key_effect_note (case_of p) = _strip_markdown effect_cell) /\
              economic_effects p
              = match key_effect_note (case_of p) with
                | [] => []
                | _ :: _ => [text_note (key_effect_note (case_of p))]
                end /\
              length (economic_effects p) <= 1)
           ps.
Proof.
  destruct (parse_agent_output_rows str_lower text) as (ps & Hparse & Hall).
  exists ps. split; [exact Hparse |].
  eapply Forall_impl; [| exact Hall].
  intros p (m & region & cols & line & Hem).
  pose proof (emitted_row Hem) as Hrow.
  apply row_payload_some in Hrow
    as (ic & c1 & c2 & c3 & c4 & c5 & ttl & smry & Hrow).
  decompose [and] Hrow.
  match goal with H : case_of p = _ |- _ => rewrite H end.
  match goal with H : economic_effects p = _ |- _ => rewrite H end.
  simpl. unfold _build_effects.
  split; [exists m, region, cols, line, c3; auto |].
  destruct (_strip_markdown c3); simpl; split; auto.
Qed.

Lemma map_m_Forall2 (A B : Type) (f : A -> M B) (l : list A) :
  forall ys, map_m f l = inr ys -> Forall2 (fun x y => f x = inr y) l ys.
Proof.
  induction l as [| x l IH]; intros ys H; simpl in H.
  - inv_ret H. subst. constructor.
  - inv_bind H. inv_bind H. inv_ret H. subst. constructor; auto.
Qed.

Lemma _parse_technology_drivers_tokens cell ds :
  cell <> [] ->
  _parse_technology_drivers cell = inr ds -> driver_tokens cell ds.
Proof.
  intros Hne H. unfold _parse_technology_drivers in H.
  destruct cell as [| c cell]; [congruence |]. simpl negb in H. cbv iota in H.
  inv_bind H. rename x into items, Hx into Hitems.
  inv_bind H. rename x into cleaned, Hx into Hcleaned. inv_ret H. subst ds.
  unfold re_split in Hitems. inv_bind Hitems. rename x into seps.
  inv_ret Hitems. subst items.
  unfold driver_tokens. exists seps, cleaned.
  apply re_finditer_spec in Hx as Hspec. destruct Hspec as [_ Hord].
  repeat split; try assumption.
  apply map_m_Forall2 in Hcleaned.
  eapply Forall2_impl; [| exact Hcleaned].
  intros item cl Hcl. simpl in Hcl. inv_bind Hcl. inv_ret Hcl.
  exists x. auto.
Qed.

(** C6: the drivers cell [LLM, LLM] gives a payload whose driver list
    holds LLM twice, and [get_or_create_technology_drivers], given that
    list in a session where the look-ups find nothing, builds two
    instances of [TechnologyDriver] of the name LLM and adds both. *)
Theorem duplicate_drivers_emitted :
  exists p,
    parse_agent_output lower_basic marker_effect_doc = inr [p] /\
    technology_drivers p = [py "LLM"; py "LLM"] /\
    ~ NoDup (technology_drivers p) /\
    let llm := Created TechnologyDrivers (py "LLM") None in
    get_or_create_technology_drivers nothing_stored (technology_drivers p) []
    = (inr [llm; llm],
       [(QueryFirst TechnologyDrivers (py "LLM"), Returned None);
        (Add (OEntity llm), Returned None);
        (QueryFirst TechnologyDrivers (py "LLM"), Returned None);
        (Add (OEntity llm), Returned None)]).
Proof.
  eexists. split; [vm_compute; reflexivity |].
  split; [reflexivity |].
  split; [| reflexivity].
  simpl. intros H. inversion H as [| d ds Hnotin _]. apply Hnotin.
  left. reflexivity.
Qed.

Lemma find_header_none tl :
  Forall (fun ln => str_contains header_marker ln = false) tl ->
  find_header tl = None.
Proof.
  unfold find_header. intros H. generalize 0.
  induction H as [| ln tl Hln _ IH]; intros start; simpl; [reflexivity |].
  rewrite Hln. apply IH.
Qed.

(** C3, the counterexample: a data row with first cell [1] is chosen as
    header row because a later cell starts with a hash; a row with first
    cell [#] written without spaces is not chosen, and the table under it
    is read by position (the sector comes out of the scenario column). *)
Lemma header_row_not_by_first_cell :
  (find_header [hash_cell_row] = Some 0 /\
   hd_error (cells_of hash_cell_row) = Some (py "1")) /\
  (find_header [tight_header_row] = None /\
   hd_error (cells_of tight_header_row) = Some (py "#")) /\
  exists p,
    parse_agent_output lower_basic tight_header_doc = inr [p] /\
    sector_name (case_of p) = py "A - B".
Proof.
  repeat split; try (vm_compute; reflexivity).
  eexists. vm_compute. split; reflexivity.
Qed.

(** C3, as amended: the header row chosen is the first table line that
    contains the text [| # ] anywhere in it.  When there is such a line
    the column roles are looked up in its normalized cells and the data
    rows are the data lines below it; when there is none the positional
    fall-back applies to all data lines. *)
Theorem header_row_is_first_marked_line (str_lower : str -> str)
    (tl : list str) :
  match find_header tl with
  | Some i =>
      exists line headers,
        nth_error tl i = Some line /\
        str_contains header_marker line = true /\
        (forall k above,
            k < i -> nth_error tl k = Some above ->
            str_contains header_marker above = false) /\
        map_m (_normalize_header_text str_lower) (cells_of line)
        = inr headers /\
        resolve_table str_lower tl
        = inr (columns_of_headers headers,
               map snd
                 (filter (fun il => Nat.ltb i (fst il)
                                    && is_data_line (snd il))
                         (enumerate tl)))
  | None =>
      Forall (fun ln => str_contains header_marker ln = false) tl /\
      resolve_table str_lower tl = inr (positional, filter is_data_line tl)
  end.
Proof.
  destruct (find_header tl) as [i |] eqn:Hh.
  - destruct (resolve_table_header str_lower _ Hh)
      as (line & headers & Hn & Hm & Hres).
    apply find_header_some in Hh as (_ & (line' & Hn' & Hc) & Hmin).
    rewrite Hn in Hn'. injection Hn' as <-.
    exists line, headers. auto.
  - split; [| apply resolve_table_positional; exact Hh].
    apply find_index_from_none in Hh.
    apply Forall_forall. intros ln Hin.
    rewrite forallb_forall in Hh. apply Hh in Hin.
    apply negb_true_iff in Hin. exact Hin.
Qed.

(** C4: when no table line carries the header marker, the columns are
    sector 1, scenario 2, effect 3 and source 4, without drivers column,
    and the data rows are all data lines of the table; the five-cell row
    of the example gives sector "Финансы", effect note "Effect Z", title
    "X", summary "Y" and no drivers. *)
Theorem positional_fallback (str_lower : str -> str) (tl : list str) :
  Forall (fun ln => str_contains header_marker ln = false) tl ->
  resolve_table str_lower tl
  = inr (Columns (Some 1%Z) (Some 2%Z) (Some 3%Z) None (Some 4%Z),
         filter is_data_line tl) /\
  exists p,
    parse_agent_output str_lower positional_doc = inr [p] /\
    sector_name (case_of p) = py "Финансы" /\
    title (case_of p) = py "X" /\
    summary (case_of p) = py "Y" /\
    key_effect_note (case_of p) = py "Effect Z" /\
    technology_drivers p = [].
Proof.
  intros Hno. split.
  - apply find_header_none in Hno.
    apply (resolve_table_positional str_lower) in Hno. exact Hno.
  - eexists. vm_compute. repeat split.
Qed.

(** The positional fall-back at the table made of the example row. *)
Lemma positional_fallback_witness :
  Forall (fun ln => str_contains header_marker ln = false)
         [py positional_row] /\
  resolve_table lower_basic [py positional_row]
  = inr (Columns (Some 1%Z) (Some 2%Z) (Some 3%Z) None (Some 4%Z),
         filter is_data_line [py positional_row]) /\
  exists p,
    parse_agent_output lower_basic positional_doc = inr [p] /\
    sector_name (case_of p) = py "Финансы" /\
    title (case_of p) = py "X" /\
    summary (case_of p) = py "Y" /\
    key_effect_note (case_of p) = py "Effect Z" /\
    technology_drivers p = [].
Proof.
  assert (H : Forall (fun ln => str_contains header_marker ln = false)
                     [py positional_row])
    by (constructor; [vm_compute; reflexivity | constructor]).
  split; [exact H | exact (positional_fallback lower_basic H)].
Defined.

(** C8, the counterexample: a line of one hash, a blank and text is not a
    section header; and after a line that holds only hashes and a blank
    the heading text is taken from the next line, so that the match runs
    over both lines and the body starts after the second. *)
Lemma single_hash_and_split_heading :
  re_finditer SECTION_HEADER_RE (doc ["# T"; "| 1 | S | a - b | e |"])
  = inr [] /\
  exists m,
    re_finditer SECTION_HEADER_RE (doc ["## "; "| 1 | S | a - b | e |"])
    = inr [m] /\
    m_start m = 0 /\ m_end m = 25 /\
    group m 1 = inr (py "| 1 | S | a - b | e |").
Proof.
  split; [vm_compute; reflexivity |].
  eexists. vm_compute. repeat split.
Qed.

(** C8, as amended: the section headers are the matches, found from left
    to right without overlap, of: a line start, optional whitespace, two
    or more hashes, whitespace, and a non-empty heading text without
    newline that runs to a line end.  Each match starts at the first
    offset, after the match before it, where such a heading starts.  The
    body of a section runs from the end of its match to the start of the
    next match, or to the end of the document for the last one. *)
Theorem section_headers_and_bodies (text : str) :
  exists ms,
    re_finditer SECTION_HEADER_RE text = inr ms /\
    Forall (heading_at text) ms /\
    in_order 0 ms /\
    leftmost_headings text 0 ms /\
    forall idx m,
      section_body text ms idx m
      = inr (str_slice text (m_end m)
               (match nth_error ms (idx + 1) with
                | Some nxt => m_start nxt
                | None => length text
                end)).
Proof.
  destruct (@re_finditer_total SECTION_HEADER_RE text) as (ms & Hms);
    [simpl; lia |].
  exists ms. apply re_finditer_spec in Hms as Hspec.
  destruct Hspec as (Hall & Hord).
  split; [exact Hms |]. split; [| split; [exact Hord | split]].
  - eapply Forall_impl; [| exact Hall].
    intros m. apply section_match_shape.
  - apply leftmost_headings_of.
    apply (finditer_from_leftmost (text := text)) in Hms;
      [exact Hms | apply cursor_at_start].
  - intros idx m. destruct (nth_error ms (idx + 1)) as [nxt |] eqn:Hn.
    + apply section_body_next. exact Hn.
    + apply section_body_last. apply nth_error_None. exact Hn.
Qed.

(** * Further properties of the helpers *)

(** ** Characters kept by the string methods *)

Lemma lstrip_by_suffix p s : exists pre, s = pre ++ lstrip_by p s.
Proof.
  induction s as [| x s (pre & IH)]; simpl.
  - exists []. reflexivity.
  - destruct (p x).
    + exists (x :: pre). simpl. f_equal. exact IH.
    + exists []. reflexivity.
Qed.

Lemma rstrip_by_prefix p s : exists suf, s = rstrip_by p s ++ suf.
Proof.
  unfold rstrip_by. destruct (lstrip_by_suffix p (rev s)) as (pre & H).
  exists (rev pre). rewrite <- rev_app_distr, <- H, rev_involutive.
  reflexivity.
Qed.

Lemma strip_by_In p s x : In x (strip_by p s) -> In x s.
Proof.
  unfold strip_by. intros H.
  destruct (rstrip_by_prefix p (lstrip_by p s)) as (suf & Hs).
  destruct (lstrip_by_suffix p s) as (pre & Hp).
  rewrite Hp, Hs. apply in_or_app. right. apply in_or_app. left. exact H.
Qed.

Lemma strip_by_trimmed p s : trimmed p (strip_by p s).
Proof.
  split.
  - intros x t H. unfold strip_by in H.
    destruct (rstrip_by_prefix p (lstrip_by p s)) as (suf & Hs).
    rewrite H in Hs. simpl in Hs. eapply lstrip_by_head. exact Hs.
  - intros w x H. eapply strip_by_last. exact H.
Qed.

Lemma replace_from_In old new s x :
  forall skip, In x (replace_from old new skip s) -> In x s \/ In x new.
Proof.
  induction s as [| y s IH]; intros skip H; simpl in H; [contradiction |].
  destruct skip as [| n].
  - destruct (str_startswith old (y :: s)).
    + apply in_app_or in H as [H | H]; [auto |].
      apply IH in H as [H | H]; simpl; auto.
    + destruct H as [-> | H]; [simpl; auto |].
      apply IH in H as [H | H]; simpl; auto.
  - apply IH in H as [H | H]; simpl; auto.
Qed.

Lemma str_replace_In old new s x :
  In x (str_replace old new s) -> In x s \/ In x new.
Proof. apply replace_from_In. Qed.

(** Replacing a single character removes it. *)
Lemma str_replace_char_gone c new s :
  ~ In c new -> ~ In c (str_replace [c] new s).
Proof.
  intros Hnew. unfold str_replace.
  induction s as [| y s IH]; simpl; [auto |].
  destruct (N.eqb_spec c y) as [-> | Hne]; simpl.
  - intros H. apply in_app_or in H as [H | H]; auto.
  - intros [H | H]; [congruence | auto].
Qed.

Lemma words_from_In s x :
  forall cur w,
    In w (words_from cur s) -> In x w -> In x s \/ In x cur.
Proof.
  induction s as [| y s IH]; intros cur w Hw Hx; simpl in Hw.
  - destruct cur; [contradiction |].
    destruct Hw as [<- | []]. right. apply in_rev. exact Hx.
  - destruct (isspace y).
    + destruct cur as [| z cur].
      * destruct (IH _ _ Hw Hx) as [H | []]. left. right. exact H.
      * destruct Hw as [<- | Hw].
        -- right. apply in_rev. exact Hx.
        -- destruct (IH _ _ Hw Hx) as [H | []]. left. right. exact H.
    + destruct (IH _ _ Hw Hx) as [H | [-> | H]]; simpl; auto.
Qed.

Lemma str_join_In sep ws x :
  In x (str_join sep ws) -> In x sep \/ exists w, In w ws /\ In x w.
Proof.
  induction ws as [| w ws IH]; simpl; [contradiction |].
  destruct ws as [| w' ws].
  - intros H. right. exists w. auto.
  - intros H. apply in_app_or in H as [H | H]; [right; exists w; auto |].
    apply in_app_or in H as [H | H]; [auto |].
    destruct (IH H) as [Hs | (v & Hv & Hx)]; [auto |].
    right. exists v. split; [right; exact Hv | exact Hx].
Qed.

Lemma split_from_In sep s x :
  forall cur piece,
    In piece (split_from sep cur s) -> In x piece -> In x s \/ In x cur.
Proof.
  induction s as [| y s IH]; intros cur piece Hp Hx; simpl in Hp.
  - destruct Hp as [<- | []]. right. apply in_rev. exact Hx.
  - destruct (y =? sep)%N.
    + destruct Hp as [<- | Hp].
      * right. apply in_rev. exact Hx.
      * destruct (IH _ _ Hp Hx) as [H | []]. left. right. exact H.
    + destruct (IH _ _ Hp Hx) as [H | [-> | H]]; simpl; auto.
Qed.

Lemma split_from_no_sep sep s :
  forall cur piece,
    ~ In sep cur -> In piece (split_from sep cur s) -> ~ In sep piece.
Proof.
  induction s as [| y s IH]; intros cur piece Hcur Hp; simpl in Hp.
  - destruct Hp as [<- | []]. rewrite <- in_rev. exact Hcur.
  - destruct (N.eqb_spec y sep) as [-> | Hne].
    + destruct Hp as [<- | Hp]; [rewrite <- in_rev; exact Hcur |].
      eapply IH; [| exact Hp]. auto.
    + eapply IH; [| exact Hp]. intros [H | H]; [congruence | auto].
Qed.

(** ** Whitespace normal form *)

Lemma forallb_rev (A : Type) (f : A -> bool) (l : list A) :
  forallb f (rev l) = forallb f l.
Proof.
  induction l as [| x l IH]; simpl; [reflexivity |].
  rewrite forallb_app, IH. simpl. rewrite andb_true_r. apply andb_comm.
Qed.

Lemma words_from_words s :
  forall cur,
    forallb (fun c => negb (isspace c)) cur = true ->
    Forall is_word (words_from cur s).
Proof.
  assert (Hword : forall z cur,
             forallb (fun c => negb (isspace c)) (z :: cur) = true ->
             is_word (rev (z :: cur))).
  { intros z cur H. split.
    - simpl. intros E. apply app_eq_nil in E as [_ E]. discriminate.
    - rewrite forallb_rev. exact H. }
  induction s as [| y s IH]; intros cur Hcur; simpl.
  - destruct cur as [| z cur]; constructor; [auto | constructor].
  - destruct (isspace y) eqn:Hy.
    + destruct cur as [| z cur]; [apply IH; reflexivity |].
      constructor; [auto | apply IH; reflexivity].
    + apply IH. simpl. rewrite Hy. exact Hcur.
Qed.

Lemma str_split_ws_normal s : ws_normal (str_join (py " ") (str_split_ws s)).
Proof.
  exists (str_split_ws s). split; [| reflexivity].
  apply words_from_words. reflexivity.
Qed.

(** Reading a word on. *)
Lemma words_from_word w :
  forall cur s,
    forallb (fun c => negb (isspace c)) w = true ->
    words_from cur (w ++ s) = words_from (rev w ++ cur) s.
Proof.
  induction w as [| x w IH]; intros cur s Hw; simpl in *; [reflexivity |].
  apply andb_prop in Hw as [Hx Hw]. apply negb_true_iff in Hx.
  rewrite Hx, IH by exact Hw. rewrite <- app_assoc. reflexivity.
Qed.

(** Splitting what was joined gives the words back. *)
Lemma str_split_ws_join ws :
  Forall is_word ws -> str_split_ws (str_join (py " ") ws) = ws.
Proof.
  unfold str_split_ws.
  induction 1 as [| w ws [Hne Hw] Hws IH]; [reflexivity |].
  destruct ws as [| w' ws].
  - simpl. rewrite <- (app_nil_r w) at 1.
    rewrite words_from_word by exact Hw. simpl. rewrite app_nil_r.
    destruct (rev w) eqn:Hr.
    + apply (f_equal (@rev char)) in Hr. rewrite rev_involutive in Hr.
      contradiction.
    + rewrite <- Hr, rev_involutive. reflexivity.
  - change (str_join (py " ") (w :: w' :: ws))
      with (w ++ SPACE :: str_join (py " ") (w' :: ws)).
    rewrite words_from_word by exact Hw. rewrite app_nil_r.
    destruct (rev w) eqn:Hr.
    + apply (f_equal (@rev char)) in Hr. rewrite rev_involutive in Hr.
      contradiction.
    + rewrite <- Hr. simpl words_from.
      change (isspace SPACE) with true. cbv iota.
      rewrite Hr. rewrite <- Hr, rev_involutive. f_equal. exact IH.
Qed.

Lemma ws_normal_fixed s :
  ws_normal s -> str_join (py " ") (str_split_ws s) = s.
Proof.
  intros (ws & Hws & ->). rewrite str_split_ws_join by exact Hws.
  reflexivity.
Qed.

Lemma ws_normal_chars s x :
  ws_normal s -> In x s -> isspace x = true -> x = SPACE.
Proof.
  intros (ws & Hws & ->) Hx Hsp.
  apply str_join_In in Hx as [Hx | (w & Hw & Hx)].
  - destruct Hx as [<- | []]. reflexivity.
  - rewrite Forall_forall in Hws. destruct (Hws w Hw) as [_ Hall].
    rewrite forallb_forall in Hall. apply Hall in Hx.
    rewrite Hsp in Hx. discriminate.
Qed.

Lemma ws_normal_trimmed s : ws_normal s -> trimmed isspace s.
Proof.
  intros (ws & Hws & ->). split.
  - intros x t H. destruct Hws as [| w ws [Hne Hw] Hws]; [discriminate |].
    destruct w as [| y w]; [contradiction |].
    assert (E : exists t', str_join (py " ") ((y :: w) :: ws) = y :: t').
    { destruct ws; simpl; eauto. }
    destruct E as (t' & E).
    pose proof (eq_trans (eq_sym H) E) as HE. injection HE as -> _.
    simpl in Hw. apply andb_prop in Hw as [Hy _].
    apply negb_true_iff in Hy. exact Hy.
  - induction Hws as [| w ws [Hne Hw] Hws IH]; intros u x H.
    + destruct u; discriminate.
    + destruct ws as [| w' ws].
      * simpl in H. subst w. rewrite forallb_app in Hw.
        apply andb_prop in Hw as [_ Hx]. simpl in Hx.
        rewrite andb_true_r in Hx. apply negb_true_iff in Hx. exact Hx.
      * change (str_join (py " ") (w :: w' :: ws))
          with (w ++ SPACE :: str_join (py " ") (w' :: ws)) in H.
        destruct (str_join (py " ") (w' :: ws)) as [| z rest] eqn:Hj.
        -- exfalso. inversion Hws as [| ? ? [Hne' _] _]; subst.
           destruct w' as [| q w']; [contradiction |].
           destruct ws; simpl in Hj; discriminate.
        -- destruct (exists_last (l := z :: rest)) as (v & y & Hv);
             [discriminate |].
           rewrite Hv in H.
           replace (w ++ SPACE :: v ++ [y]) with ((w ++ SPACE :: v) ++ [y])
             in H by (rewrite <- app_assoc; reflexivity).
           apply app_inj_tail in H as [_ <-].
           apply (IH v y). exact Hv.
Qed.

(** The characters of a stripped text. *)
Lemma _strip_markdown_chars text x :
  In x (_strip_markdown text) ->
  (x = SPACE \/ x = hyphen \/ In x text) /\
  x <> chr "`" /\ x <> en_dash /\ x <> em_dash.
Proof.
  unfold _strip_markdown. intros H.
  apply str_join_In in H as [H | (w & Hw & H)].
  { destruct H as [<- | []]. repeat split; auto; discriminate. }
  unfold str_split_ws in Hw.
  destruct (@words_from_In _ x [] w Hw H) as [Hc | []]. clear Hw H w.
  set (c1 := str_replace (py "`") []
               (str_replace (py "__") [] (str_replace (py "**") [] text)))
    in Hc.
  set (c2 := str_replace [en_dash] (py "-") c1) in Hc.
  assert (Htick : ~ In (chr "`") c1)
    by (apply (@str_replace_char_gone (chr "`")); auto).
  assert (Hen : ~ In en_dash c2)
    by (apply str_replace_char_gone; intros [E | []]; discriminate).
  assert (Hem : ~ In em_dash (str_replace [em_dash] (py "-") c2))
    by (apply str_replace_char_gone; intros [E | []]; discriminate).
  assert (Hsrc : In x c1 -> In x text).
  { intros H1. apply str_replace_In in H1 as [H1 | []].
    apply str_replace_In in H1 as [H1 | []].
    apply str_replace_In in H1 as [H1 | []]. exact H1. }
  split; [| split; [| split]].
  - apply str_replace_In in Hc as [Hc | [<- | []]]; [| auto].
    apply str_replace_In in Hc as [Hc | [<- | []]]; auto.
  - intros ->. apply str_replace_In in Hc as [Hc | [E | []]];
      [| discriminate].
    apply str_replace_In in Hc as [Hc | [E | []]]; [auto | discriminate].
  - intros ->. apply str_replace_In in Hc as [Hc | [E | []]];
      [auto | discriminate].
  - intros ->. auto.
Qed.

(** X3: [_strip_markdown] gives plain text: words separated by single
    spaces, with no whitespace at either end, and free of backticks, en
    dashes and em dashes; every other character of it is a character of
    the input or a hyphen, and normalizing its whitespace again changes
    nothing. *)
Theorem _strip_markdown_plain (text : str) :
  ws_normal (_strip_markdown text) /\
  trimmed isspace (_strip_markdown text) /\
  (forall x, In x (_strip_markdown text) ->
             (x = SPACE \/ x = hyphen \/ In x text) /\
             x <> chr "`" /\ x <> en_dash /\ x <> em_dash) /\
  str_join (py " ") (str_split_ws (_strip_markdown text))
  = _strip_markdown text.
Proof.
  assert (Hn : ws_normal (_strip_markdown text))
    by apply str_split_ws_normal.
  split; [exact Hn |].
  split; [apply ws_normal_trimmed; exact Hn |].
  split; [intros x; apply _strip_markdown_chars |].
  apply ws_normal_fixed. exact Hn.
Qed.

(** ** What lies between the matches *)

Lemma str_slice_In text a b x :
  In x (str_slice text a b) ->
  In x text /\
  exists c0 s,
    cursor_at text c0 /\ a <= pos c0 /\ pos c0 < b /\ rest c0 = x :: s.
Proof.
  unfold str_slice. intros H.
  destruct (in_split _ _ H) as (l1 & l2 & Hl).
  assert (Hsk : skipn a text = l1 ++ x :: l2 ++ skipn (b - a) (skipn a text)).
  { rewrite <- (firstn_skipn (b - a) (skipn a text)) at 1.
    rewrite Hl, <- app_assoc. reflexivity. }
  assert (Ha : a < length text).
  { destruct (Nat.lt_ge_cases a (length text)) as [Hlt | Hge]; [exact Hlt |].
    rewrite skipn_all2 in Hsk by exact Hge. destruct l1; discriminate. }
  assert (Hlen : length l1 < b - a).
  { apply (f_equal (@length char)) in Hl.
    rewrite length_app in Hl. simpl in Hl.
    pose proof (firstn_le_length (b - a) (skipn a text)). lia. }
  split.
  - rewrite <- (firstn_skipn a text), Hsk.
    apply in_or_app. right. apply in_or_app. right. left. reflexivity.
  - exists (Cursor (a + length l1) (last_char (firstn a text ++ l1))
              (x :: l2 ++ skipn (b - a) (skipn a text))).
    eexists. split; [| simpl; repeat split; lia].
    exists (firstn a text ++ l1). simpl. repeat split.
    + rewrite <- app_assoc, <- Hsk, firstn_skipn. reflexivity.
    + rewrite length_app, length_firstn. lia.
Qed.

(** No character at which the pattern matches survives in a piece. *)
Lemma pieces_avoid r text (P : char -> bool) :
  (forall c0 x s,
      cursor_at text c0 -> rest c0 = x :: s -> P x = true ->
      exists c' g', matches r c0 [] c' g') ->
  forall ms from,
    leftmost_from r text from ms ->
    Forall (fun piece => forall x, In x piece -> In x text /\ P x = false)
           (pieces text from ms).
Proof.
  intros Hmatch. induction ms as [| m ms IH]; intros from H; simpl in *.
  - constructor; [| constructor]. intros x Hx.
    apply str_slice_In in Hx as (Hin & c0 & s & Hat & Hge & _ & Hr).
    split; [exact Hin |].
    destruct (P x) eqn:HP; [| reflexivity]. exfalso.
    destruct (Hmatch c0 x s Hat Hr HP) as (c' & g' & Hm).
    exact (H c0 c' g' Hat Hge Hm).
  - destruct H as [Hgap Hrest]. constructor; [| apply IH; exact Hrest].
    intros x Hx.
    apply str_slice_In in Hx as (Hin & c0 & s & Hat & Hge & Hlt & Hr).
    split; [exact Hin |].
    destruct (P x) eqn:HP; [| reflexivity]. exfalso.
    destruct (Hmatch c0 x s Hat Hr HP) as (c' & g' & Hm).
    exact (Hgap c0 c' g' Hat Hge Hlt Hm).
Qed.

Lemma re_finditer_pieces r text ms (P : char -> bool) :
  (forall c0 x s,
      cursor_at text c0 -> rest c0 = x :: s -> P x = true ->
      exists c' g', matches r c0 [] c' g') ->
  re_finditer r text = inr ms ->
  Forall (fun piece => forall x, In x piece -> In x text /\ P x = false)
         (pieces text 0 ms).
Proof.
  intros Hmatch Hms. apply pieces_avoid with (r := r); [exact Hmatch |].
  apply (finditer_from_leftmost (text := text)) in Hms;
    [exact Hms | apply cursor_at_start].
Qed.

(** A character set followed by [+] matches at each of its characters. *)
Lemma plus_matches_char cs c0 x s :
  rest c0 = x :: s -> cs x = true ->
  exists c' g', matches (Plus cs) c0 [] c' g'.
Proof.
  intros Hr Hx. exists (step c0 x s), [].
  apply m_rep with (n := 1); [| lia].
  econstructor; [exact Hr | exact Hx | constructor].
Qed.

(** After [pattern.sub(repl, text)] every character is one of [repl] or a
    character of [text] at which the pattern does not match. *)
Lemma re_sub_chars r repl text out (P : char -> bool) :
  (forall c0 x s,
      cursor_at text c0 -> rest c0 = x :: s -> P x = true ->
      exists c' g', matches r c0 [] c' g') ->
  re_sub r repl text = inr out ->
  forall x, In x out -> In x repl \/ (In x text /\ P x = false).
Proof.
  intros Hmatch H x Hx. unfold re_sub in H. inv_bind H. inv_ret H. subst out.
  apply str_join_In in Hx as [Hx | (piece & Hp & Hx)]; [auto |].
  pose proof (@re_finditer_pieces r text x0 P Hmatch Hx0) as Hall.
  rewrite Forall_forall in Hall. right. exact (Hall piece Hp x Hx).
Qed.

Lemma driver_separator_matches c0 x s :
  rest c0 = x :: s -> is_separator x = true ->
  exists c' g', matches DRIVER_SPLIT_RE c0 [] c' g'.
Proof.
  intros Hr Hx. exists (step c0 x s), [].
  unfold DRIVER_SPLIT_RE, Seq. simpl.
  eapply m_cat; [apply m_rep with (n := 0); [constructor | lia] |].
  eapply m_cat;
    [| eapply m_cat;
       [apply m_rep with (n := 0); [constructor | lia] | apply m_eps]].
  unfold is_separator, mem in Hx. simpl in Hx.
  repeat rewrite orb_false_r in Hx.
  repeat (apply orb_prop in Hx as [Hx | Hx]);
    apply N.eqb_eq in Hx; subst x.
  - apply m_alt_l. apply m_chars; [exact Hr | reflexivity].
  - apply m_alt_r, m_alt_l. apply m_chars; [exact Hr | reflexivity].
  - apply m_alt_r, m_alt_r, m_alt_l. apply m_chars; [exact Hr | reflexivity].
  - apply m_alt_r, m_alt_r, m_alt_r, m_alt_l.
    apply m_chars; [exact Hr | reflexivity].
Qed.

Lemma Forall2_In_r (A B : Type) (P : A -> B -> Prop) l1 l2 y :
  Forall2 P l1 l2 -> In y l2 -> exists x, In x l1 /\ P x y.
Proof.
  induction 1 as [| a b l1 l2 Hab _ IH]; intros Hy; [contradiction |].
  destruct Hy as [<- | Hy].
  - exists a. split; [left; reflexivity | exact Hab].
  - destruct (IH Hy) as (x & Hx & HP). exists x.
    split; [right; exact Hx | exact HP].
Qed.

(** X4: [_clean_region_name] never raises; the name it gives is made of
    words separated by single spaces, holds no code point of the emoji
    and box-drawing ranges of [EMOJI_RE], and every character of it other
    than a space is a character of the heading. *)
Theorem _clean_region_name_plain (raw : str) :
  exists name,
    _clean_region_name raw = inr name /\
    ws_normal name /\
    forall x, In x name -> emoji x = false /\ (x = SPACE \/ In x raw).
Proof.
  unfold _clean_region_name.
  destruct (@re_sub_total EMOJI_RE [] raw) as (cleaned & Hsub);
    [simpl; lia |].
  rewrite Hsub. simpl. eexists. split; [reflexivity |].
  split; [apply str_split_ws_normal |].
  intros x Hx. apply str_join_In in Hx as [Hx | (w & Hw & Hx)].
  { destruct Hx as [<- | []]. split; [reflexivity | auto]. }
  unfold str_split_ws in Hw.
  destruct (@words_from_In _ x [] w Hw Hx) as [Hc | []].
  apply strip_by_In in Hc.
  destruct (@re_sub_chars EMOJI_RE [] raw cleaned emoji
              (fun c0 y s _ Hr Hy => @plus_matches_char emoji c0 y s Hr Hy)
              Hsub x Hc) as [[] | [Hin He]].
  auto.
Qed.

(** X5: [_parse_technology_drivers] never raises, and each driver name it
    returns is non-empty, neither begins nor ends with a space or a full
    stop, holds no plus sign, comma, semicolon or slash, holds no
    whitespace other than the plain space, and is otherwise made of
    characters of the cell. *)
Theorem driver_names_are_clean (cell : str) :
  exists ds,
    _parse_technology_drivers cell = inr ds /\
    Forall (fun d =>
              d <> [] /\
              trimmed (fun c => mem c (py " .")) d /\
              forall x, In x d ->
                        is_separator x = false /\
                        (isspace x = true -> x = SPACE) /\
                        (x = SPACE \/ In x cell))
           ds.
Proof.
  destruct (_parse_technology_drivers_total cell) as (ds & Hds & Hne).
  exists ds. split; [exact Hds |].
  destruct cell as [| c0 cell].
  { simpl in Hds. injection Hds as <-. constructor. }
  apply _parse_technology_drivers_tokens in Hds; [| discriminate].
  destruct Hds as (seps & cleaned & Hseps & _ & Hclean & ->).
  set (normalized := str_replace [narrow_nbsp] (py " ")
                       (str_replace [narrow_nbsp] (py " ") (c0 :: cell)))
    in *.
  pose proof (@re_finditer_pieces DRIVER_SPLIT_RE normalized seps
                is_separator
                (fun c x s _ Hr Hx => @driver_separator_matches c x s Hr Hx) Hseps)
    as Hpieces.
  rewrite Forall_forall in Hpieces, Hne.
  apply Forall_forall. intros d Hd.
  split; [apply Hne; exact Hd |].
  apply filter_In in Hd as [Hd _].
  destruct (@Forall2_In_r _ _ _ _ _ d Hclean Hd) as (item & Hitem & t & Ht & ->).
  split; [apply strip_by_trimmed |].
  intros x Hx. apply strip_by_In in Hx.
  destruct (@re_sub_chars SPACES_RE (py " ") item t isspace
              (fun c y s _ Hr Hy => @plus_matches_char isspace c y s Hr Hy)
              Ht x Hx) as [[<- | []] | [Hin Hsp]].
  - repeat split; auto.
  - destruct (Hpieces item Hitem x Hin) as [Hnorm Hsep].
    split; [exact Hsep |]. split; [intros E; congruence |].
    unfold normalized in Hnorm.
    apply str_replace_In in Hnorm as [Hnorm | [<- | []]]; [| auto].
    apply str_replace_In in Hnorm as [Hnorm | [<- | []]]; auto.
Qed.

(** X6: for any lower-casing, [_normalize_header_text] never raises, and
    the header it gives neither begins nor ends with whitespace and is
    made of spaces and of characters of the lower-cased cell that are in
    [0-9a-zA-Z] or the basic Cyrillic alphabet. *)
Theorem _normalize_header_text_alnum (str_lower : str -> str) (header : str) :
  exists out,
    _normalize_header_text str_lower header = inr out /\
    trimmed isspace out /\
    forall x, In x out ->
              x = SPACE \/ (alnum x = true /\ In x (str_lower header)).
Proof.
  unfold _normalize_header_text.
  destruct (@re_sub_total NON_ALNUM_RE (py " ") (str_lower header))
    as (normalized & Hn); [simpl; lia |].
  rewrite Hn. simpl.
  destruct (@re_sub_total SPACES_RE (py " ") normalized) as (collapsed & Hc);
    [simpl; lia |].
  rewrite Hc. simpl. eexists. split; [reflexivity |].
  split; [apply strip_by_trimmed |].
  intros x Hx. apply strip_by_In in Hx.
  destruct (@re_sub_chars SPACES_RE (py " ") normalized collapsed isspace
              (fun c y s _ Hr Hy => @plus_matches_char isspace c y s Hr Hy)
              Hc x Hx) as [[<- | []] | [Hx' _]]; [auto |].
  destruct (@re_sub_chars NON_ALNUM_RE (py " ") (str_lower header)
              normalized (fun c => negb (alnum c))
              (fun c y s _ Hr Hy =>
                 @plus_matches_char (fun c => negb (alnum c)) c y s Hr Hy)
              Hn x Hx') as [[<- | []] | [Hx2 Ha]]; [auto |].
  right. split; [apply negb_false_iff; exact Ha | exact Hx2].
Qed.

(** X1: [_safe_get] never raises: it gives the cell at [idx] when [idx] is
    an index of [cells], and the empty string when [idx] is [None],
    negative or past the last cell. *)
Theorem _safe_get_in_bounds (cells : list str) (idx : option Z) :
  _safe_get cells idx = inr (cell_at cells idx).
Proof.
  destruct idx as [i |]; [| reflexivity]. simpl.
  destruct (Z.ltb_spec i 0) as [Hneg | Hpos]; simpl.
  - replace (0 <=? i)%Z with false by (symmetry; apply Z.leb_gt; lia).
    reflexivity.
  - replace (0 <=? i)%Z with true by (symmetry; apply Z.leb_le; lia).
    simpl.
    destruct (Z.leb_spec (Z.of_nat (length cells)) i) as [Hbig | Hin].
    + replace (i <? Z.of_nat (length cells))%Z with false
        by (symmetry; apply Z.ltb_ge; lia).
      reflexivity.
    + replace (i <? Z.of_nat (length cells))%Z with true
        by (symmetry; apply Z.ltb_lt; lia).
      destruct (@list_get_in_range str cells (Z.to_nat i)) as (x & Hx & Hn);
        [lia |].
      rewrite Z2Nat.id in Hx by lia. rewrite Hx. f_equal.
      symmetry. apply nth_error_nth. exact Hn.
Qed.

Lemma find_column_from_first keywords headers :
  forall start,
    match find_column_from start headers keywords with
    | Some i =>
        (start <= i < start + Z.of_nat (length headers))%Z /\
        (exists h,
            nth_error headers (Z.to_nat (i - start)) = Some h /\
            has_keyword keywords h = true) /\
        (forall k h,
            k < Z.to_nat (i - start) -> nth_error headers k = Some h ->
            has_keyword keywords h = false)
    | None => Forall (fun h => has_keyword keywords h = false) headers
    end.
Proof.
  induction headers as [| h0 headers IH]; intros start; simpl.
  - constructor.
  - fold (has_keyword keywords h0).
    destruct (has_keyword keywords h0) eqn:Hk.
    + rewrite Z.sub_diag. simpl. split; [lia |]. split.
      * exists h0. auto.
      * intros k h Hlt. lia.
    + specialize (IH (start + 1)%Z).
      destruct (find_column_from (start + 1) headers keywords) as [i |].
      * destruct IH as (Hr & (h & Hn & Hh) & Hmin).
        replace (Z.to_nat (i - start)) with (S (Z.to_nat (i - (start + 1))))
          by lia.
        simpl. split; [lia |]. split; [exists h; auto |].
        intros [| k] h' Hlt Hn'; simpl in Hn'.
        -- injection Hn' as <-. exact Hk.
        -- apply (Hmin k); [lia | exact Hn'].
      * constructor; assumption.
Qed.

(** X2: [_find_column_index] gives the index of the first header that
    contains one of the keywords, an index inside the header list, and
    [None] exactly when no header contains any keyword. *)
Theorem _find_column_index_first (headers keywords : list str) :
  match _find_column_index headers keywords with
  | Some i =>
      (0 <= i < Z.of_nat (length headers))%Z /\
      (exists h,
          nth_error headers (Z.to_nat i) = Some h /\
          has_keyword keywords h = true) /\
      (forall k h,
          k < Z.to_nat i -> nth_error headers k = Some h ->
          has_keyword keywords h = false)
  | None => Forall (fun h => has_keyword keywords h = false) headers
  end.
Proof.
  unfold _find_column_index.
  pose proof (find_column_from_first keywords headers 0) as H.
  destruct (find_column_from 0 headers keywords) as [i |]; [| exact H].
  rewrite Z.sub_0_r in H. exact H.
Qed.

(** ** The last greedy repetition of a pattern runs as far as it can *)

Section Maximal.
Variable R : Type.

Lemma rep_greedy_total cs s :
  forall c (k : cursor -> option R),
    (forall c', k c' <> None) -> rep_greedy cs 0 c s k <> None.
Proof.
  induction s as [| x s IH]; intros c k Hk; simpl; [apply Hk |].
  destruct (cs x); [| apply Hk].
  destruct (rep_greedy cs 0 (step c x s) s k); [discriminate | apply Hk].
Qed.

Lemma rep_greedy_maximal cs s :
  forall least c (k : cursor -> option R) res,
    rest c = s -> (forall c', k c' <> None) ->
    rep_greedy cs least c s k = Some res ->
    exists c' n,
      chars_of cs c c' n /\ least <= n /\ k c' = Some res /\
      (rest c' = [] \/ exists x t, rest c' = x :: t /\ cs x = false).
Proof.
  induction s as [| x s IH]; intros least c k res Hc Hk H; simpl in H.
  - apply if_done_some in H as [-> H].
    exists c, 0. repeat split; [constructor | lia | exact H | auto].
  - destruct (cs x) eqn:Hx.
    + destruct (rep_greedy cs (pred least) (step c x s) s k) eqn:Hrec.
      * injection H as <-.
        apply IH in Hrec as (c' & n & Hn & Hle & Hres & Hend);
          [| reflexivity | exact Hk].
        exists c', (S n).
        repeat split; [econstructor; eauto | lia | exact Hres | exact Hend].
      * apply if_done_some in H as [-> _]. exfalso.
        exact (@rep_greedy_total cs s (step c x s) k Hk Hrec).
    + apply if_done_some in H as [-> H].
      exists c, 0. repeat split; [constructor | lia | exact H |].
      right. exists x, s. auto.
Qed.

Lemma run_cat_sound r1 r2 c g (k : cursor -> caps -> option R) res :
  run (Cat r1 r2) c g k = Some res ->
  exists c1 g1, matches r1 c g c1 g1 /\ run r2 c1 g1 k = Some res.
Proof. simpl. intros H. apply run_sound in H. exact H. Qed.
End Maximal.

Lemma search_from_run text r s :
  forall c m,
    rest c = s -> cursor_at text c ->
    search_from r c s = Some m ->
    exists c0,
      cursor_at text c0 /\
      run r c0 [] (fun c' g' => Some (Match (pos c0) c' g')) = Some m.
Proof.
  induction s as [| x s IH]; intros c m Hc Hat H; simpl in H.
  - destruct (run r c [] _) eqn:Hrun; [| discriminate].
    injection H as ->. exists c. auto.
  - destruct (run r c [] _) eqn:Hrun.
    + injection H as ->. exists c. auto.
    + apply IH in H; [exact H | reflexivity | eauto using cursor_at_step].
Qed.

(** In a cell without newline the description, group 2 of
    [SCENARIO_RE], runs to the end of the cell. *)
Lemma scenario_description_suffix cell m :
  re_search SCENARIO_RE cell = Some m ->
  ~ In LF cell ->
  exists t pre w,
    lookup_group 1 (m_caps m) = Some t /\
    lookup_group 2 (m_caps m) = Some w /\
    cell = pre ++ w /\ w <> [].
Proof.
  intros H Hlf. unfold re_search in H.
  apply (search_from_run (text := cell)) in H as (c0 & Hat & H);
    [| reflexivity | apply cursor_at_start].
  unfold SCENARIO_RE, Seq, Lit, Plus, PlusLazy, Star in H.
  cbn [fold_right] in H.
  apply run_cat_sound in H as (c1 & g1 & M1 & H).
  apply run_cat_sound in H as (c2 & g2 & M2 & H).
  apply run_cat_sound in H as (c3 & g3 & M3 & H).
  apply run_cat_sound in H as (c4 & g4 & M4 & H).
  apply run_cat_sound in H as (c5 & g5 & M5 & H).
  apply run_cat_sound in H as (c6 & g6 & M6 & H).
  apply run_cat_sound in H as (c7 & g7 & M7 & H).
  apply run_cat_sound in H as (c8 & g8 & M8 & H).
  assert (Hat8 : cursor_at cell c8)
    by eauto 10 using matches_cursor.
  assert (Hg1 : exists t, lookup_group 1 g8 = Some t).
  { inversion M1; subst. inversion M2; subst. inversion M3; subst.
    inversion M4; subst. inversion M5; subst. inversion M6; subst.
    inversion M7; subst. inversion M8; subst. simpl. eauto. }
  destruct Hg1 as (t & Hg1).
  simpl in H.
  apply rep_greedy_maximal in H as (c' & n & Hch & Hle & Hres & Hend);
    [| reflexivity | discriminate].
  injection Hres as <-. simpl.
  apply chars_of_cursor with (text := cell) in Hch as Hat'; [| exact Hat8].
  apply chars_of_word in Hch as (w & Hlen & Hall & Hrest & Hpos). subst n.
  assert (Hrest' : rest c' = []).
  { destruct Hend as [He | (x & u & He & Hx)]; [exact He |].
    exfalso. apply Hlf. unfold dot in Hx. apply negb_false_iff in Hx.
    apply N.eqb_eq in Hx. subst x.
    destruct Hat' as (pre' & Hcell & _). rewrite Hcell, He.
    apply in_or_app. right. left. reflexivity. }
  destruct Hat8 as (pre & Hcell & _).
  exists t, pre, w. rewrite Hg1.
  repeat split.
  - f_equal. apply group_text; assumption.
  - rewrite Hcell, Hrest, Hrest', app_nil_r. reflexivity.
  - intros ->. simpl in Hle. lia.
Qed.

Lemma lstrip_by_keeps p s x :
  In x s -> p x = false -> In x (lstrip_by p s).
Proof.
  induction s as [| y s IH]; intros Hin Hx; simpl; [contradiction |].
  destruct (p y) eqn:Hy; [| exact Hin].
  destruct Hin as [-> | Hin]; [congruence | auto].
Qed.

Lemma strip_by_keeps p s x :
  In x s -> p x = false -> In x (strip_by p s).
Proof.
  intros Hin Hx. unfold strip_by, rstrip_by.
  rewrite <- in_rev. apply lstrip_by_keeps; [| exact Hx].
  rewrite <- in_rev. apply lstrip_by_keeps; assumption.
Qed.

(** The lines of [str.splitlines] hold no line boundary. *)
Lemma lines_from_no_break s :
  forall cur after_cr line x,
    (forall y, In y cur -> is_linebreak y = false) ->
    In line (lines_from cur after_cr s) -> In x line ->
    is_linebreak x = false.
Proof.
  induction s as [| c s IH]; intros cur b line x Hcur Hl Hx; simpl in Hl.
  - destruct cur; [contradiction |].
    destruct Hl as [<- | []]. apply Hcur. apply in_rev. exact Hx.
  - destruct (b && (c =? LF)%N).
    + eapply IH; [| exact Hl | exact Hx]. intros y [].
    + destruct (is_linebreak c) eqn:Hc.
      * destruct Hl as [<- | Hl].
        -- apply Hcur. apply in_rev. exact Hx.
        -- eapply IH; [| exact Hl | exact Hx]. intros y [].
      * eapply IH; [| exact Hl | exact Hx].
        intros y [<- | Hy]; auto.
Qed.

Lemma table_line_no_newline body line :
  In line (table_lines_of body) -> ~ In LF line.
Proof.
  unfold table_lines_of, str_splitlines. intros H Hlf.
  apply filter_In in H as [H _].
  assert (E : is_linebreak LF = false).
  { eapply lines_from_no_break; [| exact H | exact Hlf]. intros y []. }
  discriminate.
Qed.

Lemma cells_of_chars line cell x :
  In cell (cells_of line) -> In x cell -> In x line.
Proof.
  unfold cells_of, str_split. intros Hc Hx.
  apply in_map_iff in Hc as (raw & <- & Hraw).
  apply strip_by_In in Hx.
  destruct (@split_from_In pipe _ x [] raw Hraw Hx) as [H | []].
  apply strip_by_In in H. apply strip_by_In in H. exact H.
Qed.

(** For a cell without newline and without whitespace at its end that
    matches the bold pattern, the summary is not empty. *)
Lemma bold_scenario_summary cell m :
  re_search SCENARIO_RE cell = Some m ->
  ~ In LF cell -> trimmed isspace cell ->
  exists g1 smry,
    lookup_group 1 (m_caps m) = Some g1 /\
    _extract_title_and_summary cell = inr (_strip_markdown g1, smry) /\
    smry <> [].
Proof.
  intros Hs Hlf [_ Hlast].
  destruct (@scenario_description_suffix cell m Hs Hlf)
    as (t & pre & w & Hg1 & Hg2 & Hcell & Hw).
  unfold _extract_title_and_summary, group. rewrite Hs, Hg1, Hg2. simpl.
  exists t, (str_strip w). split; [reflexivity |]. split; [reflexivity |].
  destruct (exists_last Hw) as (w' & x & ->).
  assert (Hx : isspace x = false).
  { apply (Hlast (pre ++ w') x). rewrite Hcell, app_assoc. reflexivity. }
  intros E.
  assert (Hin : In x (str_strip (w' ++ [x]))).
  { apply strip_by_keeps; [| exact Hx].
    apply in_or_app. right. left. reflexivity. }
  rewrite E in Hin. contradiction.
Qed.

(** X7: a payload whose scenario cell has the bold form
    [**term** - description] (with a hyphen, an en dash or an em dash)
    has a non-empty summary: the description runs to the end of the cell,
    and the cell carries no newline and no whitespace at its end. *)
Theorem bold_scenario_has_summary (str_lower : str -> str) (text : str) :
  exists ps,
    parse_agent_output str_lower text = inr ps /\
    Forall (fun p =>
              exists m region cols line scenario_cell,
                emitted_by str_lower text p m region cols line /\
                _safe_get (cells_of line) (scenario_idx cols)
                = inr scenario_cell /\
                (re_search SCENARIO_RE scenario_cell <> None ->
                 summary (case_of p) <> []))
           ps.
Proof.
  destruct (parse_agent_output_rows str_lower text) as (ps & Hparse & Hall).
  exists ps. split; [exact Hparse |].
  eapply Forall_impl; [| exact Hall].
  intros p (m & region & cols & line & Hem).
  pose proof (emitted_row Hem) as Hrow.
  apply row_payload_some in Hrow
    as (ic & c1 & c2 & c3 & c4 & c5 & ttl & smry & _ & _ & _ & H2 & _ & _
        & _ & Hne & Hts & _ & _ & Hcase).
  exists m, region, cols, line, c2. split; [exact Hem |].
  split; [exact H2 |]. intros Hbold.
  destruct (re_search SCENARIO_RE c2) as [ms |] eqn:Hs; [| congruence].
  (* the scenario cell is a cell of a table line *)
  assert (Hcell : In c2 (cells_of line)).
  { destruct (_safe_get_total (cells_of line) (scenario_idx cols))
      as (s & Hs' & Hor).
    rewrite H2 in Hs'. injection Hs' as <-.
    destruct Hor as [E | Hin]; [contradiction | exact Hin]. }
  destruct Hem as (sms & idx & body & dl & _ & _ & _ & _ & Hres & _ & Hin & _).
  apply resolve_table_data_lines in Hres as [_ Hdl].
  rewrite Forall_forall in Hdl. destruct (Hdl line Hin) as [Htl _].
  assert (Hlf : ~ In LF c2).
  { intros H. apply (@table_line_no_newline body line Htl).
    eapply cells_of_chars; eassumption. }
  assert (Htrim : trimmed isspace c2).
  { apply in_map_iff in Hcell as (raw & <- & _). apply strip_by_trimmed. }
  destruct (@bold_scenario_summary c2 ms Hs Hlf Htrim) as (g1 & s & _ & Hex & Hs0).
  rewrite Hts in Hex. injection Hex as _ ->.
  rewrite Hcase. simpl. unfold str_or.
  destruct s; [contradiction | discriminate].
Qed.

(** ** Data rows *)

Lemma filter_below (A : Type) (P : A -> bool) (i : nat) (l : list A) :
  forall a,
    map snd
      (filter (fun il => Nat.ltb i (fst il) && P (snd il))
              (combine (seq a (length l)) l))
    = filter P (skipn (S i - a) l).
Proof.
  induction l as [| x l IH]; intros a; cbn [length seq combine filter map].
  - rewrite skipn_nil. reflexivity.
  - cbn [fst snd]. destruct (Nat.ltb_spec i a) as [Hlt | Hge]; cbn [andb].
    + replace (S i - a) with 0 by lia.
      cbn [skipn filter]. destruct (P x); cbn [map snd];
        rewrite IH; replace (S i - S a) with 0 by lia; reflexivity.
    + rewrite IH. replace (S i - a) with (S (S i - S a)) by lia.
      reflexivity.
Qed.

(** X9: the data rows of a table are its data lines strictly below the
    header row, in their order, or all its data lines when there is no
    header row; the header row and the lines above it are never data
    rows. *)
Theorem data_rows_below_header (str_lower : str -> str) (tl : list str) :
  exists cols,
    resolve_table str_lower tl
    = inr (cols,
           filter is_data_line
             (match find_header tl with
              | Some i => skipn (S i) tl
              | None => tl
              end)).
Proof.
  destruct (find_header tl) as [i |] eqn:Hh.
  - destruct (resolve_table_header str_lower _ Hh)
      as (line & headers & _ & _ & ->).
    eexists. unfold enumerate. rewrite filter_below, Nat.sub_0_r.
    reflexivity.
  - rewrite (resolve_table_positional str_lower _ Hh). eexists. reflexivity.
Qed.

(** X10: within a section the payloads keep the order of the table rows:
    the rows of the section's data lines are read one after the other,
    each gives a payload or nothing, and the section adds the payloads in
    that order. *)
Theorem payloads_in_row_order (str_lower : str -> str) (text : str) :
  exists ms news,
    re_finditer SECTION_HEADER_RE text = inr ms /\
    parse_agent_output str_lower text = inr (concat news) /\
    Forall2 (fun im new =>
               new = [] \/
               exists region body cols dl rs,
                 section_region (snd im) = inr region /\
                 section_body text ms (fst im) (snd im) = inr body /\
                 resolve_table str_lower (table_lines_of body)
                 = inr (cols, dl) /\
                 Forall2 (fun line r => row_payload region cols line = inr r)
                         dl rs /\
                 new = flat_map (@opt_list payload) rs)
            (enumerate ms) news.
Proof.
  destruct (parse_agent_output_sections str_lower text)
    as (ms & news & Hms & HF & Hparse).
  exists ms, news. repeat split; try assumption.
  eapply Forall2_impl; [| exact HF].
  intros im new (region & body & Hr & Hb & Hnew).
  destruct Hnew as [-> | (cols & dl & rs & Hres & _ & Hrs & ->)]; [auto |].
  right. exists region, body, cols, dl, rs.
  repeat split; try assumption. apply map_m_Forall2. exact Hrs.
Qed.



(** ** The dash fall-back of the title *)

Lemma dash_matches_char c0 x s :
  rest c0 = x :: s -> (hyphen =? x)%N = true ->
  exists c' g', matches DASH_RE c0 [] c' g'.
Proof.
  intros Hr Hx. exists (step c0 x s), [].
  unfold DASH_RE, Seq, Lit, Star. simpl.
  eapply m_cat; [apply m_rep with (n := 0); [constructor | lia] |].
  eapply m_cat; [apply m_chars; [exact Hr | exact Hx] |].
  eapply m_cat; [apply m_rep with (n := 0); [constructor | lia] |].
  apply m_eps.
Qed.

Lemma str_slice_all text : str_slice text 0 (length text) = text.
Proof.
  unfold str_slice. rewrite Nat.sub_0_r. simpl. apply firstn_all.
Qed.

Lemma dash_match_shape text m :
  match_of DASH_RE text m ->
  exists pre w1 w2 post,
    text = pre ++ w1 ++ hyphen :: w2 ++ post /\
    m_start m = length pre /\
    m_end m = length (pre ++ w1 ++ hyphen :: w2) /\
    forallb isspace w1 = true /\ forallb isspace w2 = true.
Proof.
  intros (c0 & (pre & Ht & Hp & Hv) & Hs & Hm).
  unfold DASH_RE, Seq, Lit, Star in Hm. simpl in Hm.
  inv_matches.
  match goal with H : rest _ = _ :: _ |- _ => rename H into Hdash end.
  match goal with H : (hyphen =? _)%N = true |- _ =>
    apply N.eqb_eq in H; subst end.
  words. simpl in Hrest0, Hpos0.
  exists pre, w, w0, (rest (m_stop m)).
  split; [rewrite Hrest, Hdash, Hrest0; reflexivity |].
  split; [congruence |].
  split; [| split; assumption].
  unfold m_end. rewrite !length_app. simpl. lia.
Qed.

Lemma lstrip_by_all p w : forallb p w = true -> lstrip_by p w = [].
Proof.
  induction w as [| x w IH]; simpl; [reflexivity |].
  intros H. apply andb_prop in H as [-> H]. auto.
Qed.

Lemma lstrip_by_skip p w s :
  forallb p w = true -> lstrip_by p (w ++ s) = lstrip_by p s.
Proof.
  induction w as [| x w IH]; simpl; [reflexivity |].
  intros H. apply andb_prop in H as [-> H]. auto.
Qed.

Lemma rstrip_by_skip p s w :
  forallb p w = true -> rstrip_by p (s ++ w) = rstrip_by p s.
Proof.
  intros H. unfold rstrip_by. rewrite rev_app_distr, lstrip_by_skip;
    [reflexivity |].
  rewrite forallb_rev. exact H.
Qed.

(** Whitespace before or after a text does not change what [strip]
    gives. *)
Lemma strip_by_skip_l p w s :
  forallb p w = true -> strip_by p (w ++ s) = strip_by p s.
Proof. intros H. unfold strip_by. rewrite lstrip_by_skip; auto. Qed.

Lemma strip_by_skip_r p s w :
  forallb p w = true -> strip_by p (s ++ w) = strip_by p s.
Proof.
  intros H. unfold strip_by. induction s as [| x s IH]; simpl.
  - rewrite lstrip_by_all; auto.
  - destruct (p x); [exact IH |].
    change (x :: s ++ w) with ((x :: s) ++ w). apply rstrip_by_skip, H.
Qed.

Lemma first_occurrence_unique (x : char) (a b a' b' : str) :
  a ++ x :: b = a' ++ x :: b' -> ~ In x a -> ~ In x a' ->
  a = a' /\ b = b'.
Proof.
  revert a'. induction a as [| y a IH]; intros [| y' a'] H Ha Ha';
    simpl in H.
  - injection H as <-. auto.
  - injection H as <- _. exfalso. apply Ha'. left. reflexivity.
  - injection H as -> _. exfalso. apply Ha. left. reflexivity.
  - injection H as <- H.
    destruct (IH a' H) as [-> ->]; simpl in *; auto.
Qed.

Lemma str_slice_prefix (a b : str) : str_slice (a ++ b) 0 (length a) = a.
Proof.
  unfold str_slice. rewrite Nat.sub_0_r. simpl.
  rewrite firstn_app, firstn_all, Nat.sub_diag. simpl. apply app_nil_r.
Qed.

Lemma str_slice_suffix (a b : str) :
  str_slice (a ++ b) (length a) (length (a ++ b)) = b.
Proof.
  unfold str_slice. rewrite skipn_app, skipn_all, Nat.sub_diag. simpl.
  rewrite length_app. replace (length a + length b - length a)
    with (length b) by lia.
  apply firstn_all.
Qed.

(** X11: when the scenario cell has no bold pattern, the title is the
    part of the stripped cell before its first hyphen and the summary the
    part after it, each without the whitespace at its ends.  The title
    holds no hyphen, en dash or em dash, and title and summary carry no
    whitespace at their ends; a stripped cell without hyphen is the title
    as a whole, with an empty summary. *)
Theorem fallback_title_has_no_dash (cell : str) :
  re_search SCENARIO_RE cell = None ->
  exists ttl smry,
    _extract_title_and_summary cell = inr (ttl, smry) /\
    ~ In hyphen ttl /\ ~ In en_dash ttl /\ ~ In em_dash ttl /\
    trimmed isspace ttl /\ trimmed isspace smry /\
    (~ In hyphen (_strip_markdown cell) ->
     ttl = _strip_markdown cell /\ smry = []) /\
    (forall pre post,
        _strip_markdown cell = pre ++ hyphen :: post -> ~ In hyphen pre ->
        ttl = str_strip pre /\ smry = str_strip post).
Proof.
  intros Hs. unfold _extract_title_and_summary. rewrite Hs.
  remember (_strip_markdown cell) as stripped eqn:Hst.
  destruct (@re_finditer_total DASH_RE stripped) as (ms & Hms);
    [simpl; lia |].
  pose proof (@re_finditer_pieces DASH_RE stripped ms (N.eqb hyphen)
                (fun c x s _ Hr Hx => @dash_matches_char c x s Hr Hx) Hms)
    as Hpieces.
  assert (Hsrc : forall x, In x stripped -> x <> en_dash /\ x <> em_dash).
  { intros x Hx. rewrite Hst in Hx. apply _strip_markdown_chars in Hx.
    tauto. }
  unfold re_split. rewrite Hms.
  destruct ms as [| m ms]; cbn [pieces] in Hpieces; simpl.
  - (* no hyphen: one part *)
    rewrite str_slice_all in *. pose proof (Forall_inv Hpieces) as Hp.
    cbv beta in Hp.
    exists stripped, []. split; [reflexivity |].
    split; [intros H; apply Hp in H as [_ H];
            rewrite N.eqb_refl in H; discriminate |].
    split; [intros H; apply Hsrc in H; tauto |].
    split; [intros H; apply Hsrc in H; tauto |].
    split; [rewrite Hst; apply ws_normal_trimmed, str_split_ws_normal |].
    split; [split; intros; [discriminate | destruct w; discriminate] |].
    split; [auto |].
    intros pre post Hsplit _. exfalso.
    assert (Hin : In hyphen stripped)
      by (rewrite Hsplit; apply in_or_app; right; left; reflexivity).
    apply Hp in Hin as [_ Hin]. rewrite N.eqb_refl in Hin. discriminate.
  - (* a hyphen: two parts, around the first match of the dash pattern *)
    pose proof (Forall_inv Hpieces) as Hp. cbv beta in Hp.
    apply re_finditer_spec in Hms as [Hall _].
    destruct (dash_match_shape (Forall_inv Hall))
      as (pre0 & w1 & w2 & r & Ht & Hstart & Hend & Hw1 & Hw2).
    assert (E0 : str_slice stripped 0 (m_start m) = pre0).
    { rewrite Ht, Hstart. apply str_slice_prefix. }
    assert (E1 : str_slice stripped (m_end m) (length stripped) = r).
    { assert (Ht' : stripped = (pre0 ++ w1 ++ hyphen :: w2) ++ r)
        by (rewrite Ht, <- !app_assoc; simpl; reflexivity).
      rewrite Hend, Ht'. apply str_slice_suffix. }
    rewrite E0, E1 in *.
    exists (str_strip pre0), (str_strip r).
    split; [reflexivity |].
    assert (Hsub : forall x,
               In x (str_strip pre0) ->
               In x stripped /\ (hyphen =? x)%N = false).
    { intros x Hx. apply strip_by_In in Hx. apply Hp. exact Hx. }
    split; [intros H; apply Hsub in H as [_ H];
            rewrite N.eqb_refl in H; discriminate |].
    split; [intros H; apply Hsub in H as [H _]; apply Hsrc in H; tauto |].
    split; [intros H; apply Hsub in H as [H _]; apply Hsrc in H; tauto |].
    split; [apply strip_by_trimmed |].
    split; [apply strip_by_trimmed |].
    split.
    { intros Hno. exfalso. apply Hno. rewrite Ht.
      apply in_or_app. right. apply in_or_app. right. left. reflexivity. }
    intros pre post Hsplit Hfirst.
    assert (Hpre : ~ In hyphen (pre0 ++ w1)).
    { intros H. apply in_app_or in H as [H | H].
      - apply Hp in H as [_ H]. rewrite N.eqb_refl in H. discriminate.
      - rewrite forallb_forall in Hw1. apply Hw1 in H. discriminate. }
    assert (Ht' : stripped = (pre0 ++ w1) ++ hyphen :: w2 ++ r)
      by (rewrite Ht, <- app_assoc; reflexivity).
    rewrite Hsplit in Ht'.
    apply first_occurrence_unique in Ht' as [-> ->]; [| assumption ..].
    unfold str_strip. rewrite strip_by_skip_r, strip_by_skip_l; auto.
Qed.

(** The fall-back on a cell without bold pattern. *)
Lemma fallback_title_has_no_dash_witness :
  re_search SCENARIO_RE (py "AI-driven planner - cuts cost") = None /\
  exists ttl smry,
    _extract_title_and_summary (py "AI-driven planner - cuts cost")
    = inr (ttl, smry) /\
    ~ In hyphen ttl /\ ~ In en_dash ttl /\ ~ In em_dash ttl /\
    trimmed isspace ttl /\ trimmed isspace smry /\
    (~ In hyphen (_strip_markdown (py "AI-driven planner - cuts cost")) ->
     ttl = _strip_markdown (py "AI-driven planner - cuts cost") /\
     smry = []) /\
    (forall pre post,
        _strip_markdown (py "AI-driven planner - cuts cost")
        = pre ++ hyphen :: post ->
        ~ In hyphen pre ->
        ttl = str_strip pre /\ smry = str_strip post).
Proof.
  assert (H : re_search SCENARIO_RE (py "AI-driven planner - cuts cost")
              = None) by (vm_compute; reflexivity).
  split; [exact H | exact (fallback_title_has_no_dash _ H)].
Defined.

(** The cell of the witness is cut at its first hyphen, the one inside
    the first word. *)
Example fallback_title_of_hyphenated_word :
  _extract_title_and_summary (py "AI-driven planner - cuts cost")
  = inr (py "AI", py "driven planner - cuts cost").
Proof. vm_compute. reflexivity. Qed.

(** ** Headings and bodies tile the document *)

Lemma firstn_firstn_skipn (A : Type) (l : list A) :
  forall n k, firstn n l ++ firstn k (skipn n l) = firstn (n + k) l.
Proof.
  induction l as [| x l IH]; intros n k.
  - rewrite skipn_nil, !firstn_nil. reflexivity.
  - destruct n as [| n]; simpl; [reflexivity |]. f_equal. apply IH.
Qed.

Lemma str_slice_app text a b c :
  a <= b -> b <= c ->
  str_slice text a b ++ str_slice text b c = str_slice text a c.
Proof.
  intros Hab Hbc. unfold str_slice.
  replace (skipn b text) with (skipn (b - a) (skipn a text))
    by (rewrite skipn_skipn; f_equal; lia).
  rewrite firstn_firstn_skipn. f_equal. lia.
Qed.

Lemma in_order_consecutive ms :
  forall from idx m nxt,
    in_order from ms ->
    nth_error ms idx = Some m -> nth_error ms (idx + 1) = Some nxt ->
    m_end m <= m_start nxt.
Proof.
  induction ms as [| m0 ms IH]; intros from idx m nxt Hord Hm Hn;
    [destruct idx; discriminate |].
  destruct Hord as (_ & _ & Hord).
  destruct idx as [| idx]; simpl in Hm, Hn.
  - injection Hm as <-. destruct ms as [| m1 ms]; [discriminate |].
    injection Hn as <-. destruct Hord as (H & _). exact H.
  - eapply IH; eassumption.
Qed.

Lemma match_of_end r text m : match_of r text m -> m_end m <= length text.
Proof.
  intros (c0 & Hat & _ & Hm).
  apply matches_cursor with (text := text) in Hm; [| exact Hat].
  apply cursor_at_length in Hm. unfold m_end. lia.
Qed.

(** X12: a heading and the body of its section are adjacent slices of the
    document: together they are the text from the start of the heading to
    the start of the next heading, or to the end of the document for the
    last section, so that no character between two headings is lost or
    read twice. *)
Theorem heading_and_body_adjacent (text : str) :
  exists ms,
    re_finditer SECTION_HEADER_RE text = inr ms /\
    forall idx m,
      nth_error ms idx = Some m ->
      exists body stop,
        section_body text ms idx m = inr body /\
        stop = match nth_error ms (idx + 1) with
               | Some nxt => m_start nxt
               | None => length text
               end /\
        m_start m <= m_end m /\ m_end m <= stop /\ stop <= length text /\
        str_slice text (m_start m) (m_end m) ++ body
        = str_slice text (m_start m) stop.
Proof.
  destruct (@re_finditer_total SECTION_HEADER_RE text) as (ms & Hms);
    [simpl; lia |].
  exists ms. split; [exact Hms |].
  apply re_finditer_spec in Hms as (Hall & Hord).
  rewrite Forall_forall in Hall.
  intros idx m Hm.
  assert (Hse : m_start m <= m_end m).
  { pose proof (match_of_progress (Hall m (nth_error_In _ _ Hm))). lia. }
  destruct (nth_error ms (idx + 1)) as [nxt |] eqn:Hn.
  - exists (str_slice text (m_end m) (m_start nxt)), (m_start nxt).
    pose proof (@in_order_consecutive ms 0 idx m nxt Hord Hm Hn) as Hle.
    pose proof (match_of_end (Hall nxt (nth_error_In _ _ Hn))) as He.
    pose proof (match_of_progress (Hall nxt (nth_error_In _ _ Hn))).
    split; [apply section_body_next; exact Hn |].
    repeat split; try lia. apply str_slice_app; lia.
  - exists (str_slice text (m_end m) (length text)), (length text).
    pose proof (match_of_end (Hall m (nth_error_In _ _ Hm))) as He.
    split; [apply section_body_last; apply nth_error_None; exact Hn |].
    repeat split; try lia. apply str_slice_app; lia.
Qed.

(** * The repository *)

(** ** The fields of a payload *)

Lemma title_and_summary_trimmed cell ttl smry :
  _extract_title_and_summary cell = inr (ttl, smry) ->
  trimmed isspace ttl /\ trimmed isspace smry.
Proof.
  assert (Hnil : trimmed isspace []).
  { split; intros; [discriminate | destruct w; discriminate]. }
  unfold _extract_title_and_summary. intros H.
  destruct (re_search SCENARIO_RE cell) as [m |].
  - inv_bind H. inv_bind H. inv_ret H. subst ttl smry.
    split; [apply ws_normal_trimmed, str_split_ws_normal |].
    apply strip_by_trimmed.
  - inv_bind H.
    destruct x as [| p0 [| p1 [| p2 parts]]]; inv_ret H; subst ttl smry;
      try (split; [apply ws_normal_trimmed, str_split_ws_normal
                  | exact Hnil]).
    split; apply strip_by_trimmed.
Qed.

Lemma section_region_normal m region :
  section_region m = inr region -> ws_normal region.
Proof.
  unfold section_region, _clean_region_name. intros H.
  inv_bind H. inv_bind H. inv_ret H. subst region.
  apply str_split_ws_normal.
Qed.

(** X17: the text fields of every payload are clean.  Region, sector,
    effect note and detailed notes are words separated by single spaces;
    title and summary carry no whitespace at their ends; detailed notes
    are absent rather than empty; and a payload with an empty summary has
    an empty effect note and no economic effects. *)
Theorem payload_fields_are_clean (str_lower : str -> str) (text : str) :
  exists ps,
    parse_agent_output str_lower text = inr ps /\
    Forall (fun p =>
              ws_normal (region_name (case_of p)) /\
              ws_normal (sector_name (case_of p)) /\
              ws_normal (key_effect_note (case_of p)) /\
              trimmed isspace (title (case_of p)) /\
              trimmed isspace (summary (case_of p)) /\
              (forall n, detailed_notes (case_of p) = Some n ->
                         n <> [] /\ ws_normal n) /\
              (summary (case_of p) = [] ->
               key_effect_note (case_of p) = [] /\ economic_effects p = []))
           ps.
Proof.
  destruct (parse_agent_output_rows str_lower text) as (ps & Hparse & Hall).
  exists ps. split; [exact Hparse |].
  eapply Forall_impl; [| exact Hall].
  intros p (m & region & cols & line & Hem).
  pose proof (emitted_row Hem) as Hrow.
  destruct Hem as (sms & idx & body & dl & _ & _ & Hreg & _).
  apply section_region_normal in Hreg.
  apply row_payload_some in Hrow
    as (ic & c1 & c2 & c3 & c4 & c5 & ttl & smry & _ & _ & _ & _ & _ & _
        & _ & _ & Hts & _ & Heff & Hcase).
  apply title_and_summary_trimmed in Hts as [Httl Hsmry].
  rewrite Hcase, Heff. cbn [region_name sector_name key_effect_note title
                             summary detailed_notes].
  split; [exact Hreg |].
  split; [apply str_split_ws_normal |].
  split; [apply str_split_ws_normal |].
  split; [exact Httl |].
  split.
  { unfold str_or. destruct (truthy smry); [exact Hsmry |].
    apply ws_normal_trimmed, str_split_ws_normal. }
  split.
  { intros n Hn.
    destruct (_strip_markdown c5) as [| y notes] eqn:Hnotes; simpl in Hn;
      [discriminate |].
    injection Hn as <-. split; [discriminate |].
    rewrite <- Hnotes. apply str_split_ws_normal. }
  unfold str_or, _build_effects. intros Hs.
  destruct smry as [| y smry]; simpl in Hs; [| discriminate].
  rewrite Hs. split; reflexivity.
Qed.

(** ** The session calls of the repository *)

Section RepositoryFacts.
Variable row : Type.
Variable respond : list (event row) -> call row -> outcome row.

Lemma all_returned_app (evs1 evs2 : list (event row)) :
  all_returned evs1 -> all_returned evs2 -> all_returned (evs1 ++ evs2).
Proof. intros H1 H2. apply Forall_app. auto. Qed.

Lemma db_ret_inv (A : Type) (x : A) (tr : list (event row)) res tr' :
  db_ret x tr = (res, tr') -> res = inr x /\ tr' = tr.
Proof. unfold db_ret. intros H. injection H as <- <-. auto. Qed.

Lemma db_call_inv (c : call row) tr res tr' :
  db_call respond c tr = (res, tr') ->
  exists o,
    tr' = tr ++ [(c, o)] /\
    match o with
    | Returned r => res = inr r
    | Raised e => res = inl e
    end.
Proof.
  unfold db_call. intros H. injection H as <- <-.
  exists (respond tr c). split; [reflexivity |].
  destruct (respond tr c); reflexivity.
Qed.

Lemma db_bind_inv (A B : Type) (c : DB row A) (k : A -> DB row B)
    tr res tr' :
  db_bind c k tr = (res, tr') ->
  (exists e, c tr = (inl e, tr') /\ res = inl e) \/
  (exists x tr1, c tr = (inr x, tr1) /\ k x tr1 = (res, tr')).
Proof.
  unfold db_bind. destruct (c tr) as [[e | x] tr1]; intros H.
  - injection H as <- <-. left. exists e. auto.
  - right. exists x, tr1. auto.
Qed.

(** ** Computations without handler *)

Lemma straight_ret (A : Type) P (x : A) : straight P (db_ret (row := row) x).
Proof.
  intros tr res tr' H. apply db_ret_inv in H as [-> ->].
  exists []. rewrite app_nil_r. repeat split; constructor.
Qed.

Lemma straight_call (P : call row -> Prop) c :
  P c -> straight P (db_call respond c).
Proof.
  intros HP tr res tr' H. apply db_call_inv in H as (o & -> & Ho).
  exists [(c, o)]. split; [reflexivity |].
  split; [repeat constructor; exact HP |].
  destruct o as [r | e]; subst res; simpl.
  - repeat constructor.
  - exists [], c. split; [reflexivity | constructor].
Qed.

Lemma straight_bind (A B : Type) P (c : DB row A) (k : A -> DB row B) :
  straight P c -> (forall x, straight P (k x)) -> straight P (db_bind c k).
Proof.
  intros Hc Hk tr res tr' H.
  apply db_bind_inv in H as [(e & H & ->) | (x & tr1 & H1 & H2)].
  - apply Hc in H. exact H.
  - apply Hc in H1 as (evs1 & -> & HP1 & Hr1). simpl in Hr1.
    apply Hk in H2 as (evs2 & -> & HP2 & Hr2).
    exists (evs1 ++ evs2). rewrite app_assoc. split; [reflexivity |].
    split; [unfold calls in *; rewrite map_app; apply Forall_app; auto |].
    destruct res as [e | y]; simpl in *.
    + destruct Hr2 as (pre & cf & -> & Hpre).
      exists (evs1 ++ pre), cf. rewrite app_assoc.
      split; [reflexivity | apply all_returned_app; assumption].
    + apply all_returned_app; assumption.
Qed.

Lemma straight_for (A : Type) P (body : A -> DB row unit) l :
  (forall x, straight P (body x)) -> straight P (db_for l body).
Proof.
  intros Hb. induction l as [| x l IH]; simpl.
  - apply straight_ret.
  - apply straight_bind; [apply Hb | intros _; exact IH].
Qed.

Lemma straight_weaken (A : Type) (P Q : call row -> Prop) (c : DB row A) :
  (forall x, P x -> Q x) -> straight P c -> straight Q c.
Proof.
  intros HPQ Hc tr res tr' H. apply Hc in H as (evs & -> & HP & Hr).
  exists evs. repeat split; [| exact Hr].
  eapply Forall_impl; [| exact HP]. exact HPQ.
Qed.

Lemma first_or_add_straight t name description :
  straight (@is_lookup_call row) (first_or_add respond t name description).
Proof.
  unfold first_or_add. apply straight_bind.
  - apply straight_call. exact I.
  - intros [r |]; [apply straight_ret |].
    apply straight_bind; [apply straight_call; exact I |].
    intros _. apply straight_ret.
Qed.

Lemma first_or_add_result t name description tr e tr' :
  first_or_add respond t name description tr = (inr e, tr') ->
  e = Created t name description \/ exists r, e = Stored t r.
Proof.
  unfold first_or_add. intros H.
  apply db_bind_inv in H as [(e0 & _ & E) | (found & tr1 & _ & H)];
    [discriminate |].
  destruct found as [r |].
  - apply db_ret_inv in H as [E _]. injection E as ->. eauto.
  - apply db_bind_inv in H as [(e0 & _ & E) | (x & tr2 & _ & H)];
      [discriminate |].
    apply db_ret_inv in H as [E _]. injection E as ->. auto.
Qed.

Lemma drivers_straight names :
  straight (@is_lookup_call row)
           (get_or_create_technology_drivers respond names).
Proof.
  induction names as [| name names IH]; simpl.
  - apply straight_ret.
  - apply straight_bind; [apply first_or_add_straight |].
    intros d. apply straight_bind; [exact IH |].
    intros ds. apply straight_ret.
Qed.

Lemma drivers_result names :
  forall tr ds tr',
    get_or_create_technology_drivers respond names tr = (inr ds, tr') ->
    Forall2 (@driver_for row) names ds.
Proof.
  induction names as [| name names IH]; intros tr ds tr' H; simpl in H.
  - apply db_ret_inv in H as [E _]. injection E as ->. constructor.
  - apply db_bind_inv in H as [(e0 & _ & E) | (d & tr1 & Hd & H)];
      [discriminate |].
    apply db_bind_inv in H as [(e0 & _ & E) | (ds' & tr2 & Hds & H)];
      [discriminate |].
    apply db_ret_inv in H as [E _]. injection E as ->.
    constructor; [| eapply IH; exact Hds].
    apply first_or_add_result in Hd. exact Hd.
Qed.

(** ** [create_case] and [save_case] *)

Lemma effects_loop_ok (c : case_obj row) effs :
  forall tr res tr',
    db_for effs
      (fun effect_data =>
         db_bind (db_call respond (Add (OEffect (effect_of c effect_data))))
                 (fun _ => db_ret tt)) tr = (inr res, tr') ->
    exists evs,
      tr' = tr ++ evs /\ all_returned evs /\
      calls evs = map (fun e => Add (OEffect (effect_of c e))) effs.
Proof.
  induction effs as [| e effs IH]; intros tr res tr' H; simpl in H.
  - apply db_ret_inv in H as [_ ->]. exists [].
    rewrite app_nil_r. repeat split. constructor.
  - apply db_bind_inv in H as [(e0 & _ & E) | (x & tr1 & H1 & H)];
      [discriminate |].
    apply db_bind_inv in H1 as [(e0 & _ & E) | (y & tr2 & H1 & H2)];
      [discriminate |].
    apply db_ret_inv in H2 as [_ ->].
    apply db_call_inv in H1 as (o & -> & Ho).
    destruct o as [r | e0]; [| discriminate].
    apply IH in H as (evs & -> & Hret & Hcalls).
    exists ((Add (OEffect (effect_of c e)), Returned r) :: evs).
    rewrite <- app_assoc. split; [reflexivity |].
    split; [constructor; [reflexivity | exact Hret] |].
    simpl. f_equal. exact Hcalls.
Qed.

Lemma create_case_straight cd effs names :
  straight (@is_create_call row) (create_case respond cd effs names).
Proof.
  assert (Hlk : forall c : call row, is_lookup_call c -> is_create_call c).
  { intros [| | [] | | | | | |]; simpl; auto. }
  unfold create_case, get_or_create_region, get_or_create_sector.
  apply straight_bind;
    [eapply straight_weaken; [exact Hlk | apply first_or_add_straight] |].
  intros region. apply straight_bind;
    [eapply straight_weaken; [exact Hlk | apply first_or_add_straight] |].
  intros sector. apply straight_bind;
    [eapply straight_weaken; [exact Hlk | apply drivers_straight] |].
  intros drivers. cbv zeta.
  apply straight_bind; [apply straight_call; exact I |]. intros _.
  apply straight_bind; [apply straight_call; exact I |]. intros _.
  apply straight_bind; [| intros _; apply straight_ret].
  apply straight_for. intros e.
  apply straight_bind; [apply straight_call; exact I |].
  intros _. apply straight_ret.
Qed.

Lemma create_case_ok cd effs names tr c tr' :
  create_case respond cd effs names tr = (inr c, tr') ->
  exists lk r1 r2 eff_evs,
    tr' = tr ++ lk ++ [(Add (OCase c), Returned r1); (Flush, Returned r2)]
             ++ eff_evs /\
    all_returned lk /\ Forall (@is_lookup_call row) (calls lk) /\
    all_returned eff_evs /\
    calls eff_evs = map (fun e => Add (OEffect (effect_of c e))) effs /\
    case_built cd names c.
Proof.
  unfold create_case, get_or_create_region, get_or_create_sector.
  intros H.
  apply db_bind_inv in H as [(e0 & _ & E) | (region & tr1 & H1 & H)];
    [discriminate |].
  apply db_bind_inv in H as [(e0 & _ & E) | (sector & tr2 & H2 & H)];
    [discriminate |].
  apply db_bind_inv in H as [(e0 & _ & E) | (drivers & tr3 & H3 & H)];
    [discriminate |].
  cbv zeta in H.
  apply db_bind_inv in H as [(e0 & _ & E) | (x1 & tr4 & H4 & H)];
    [discriminate |].
  apply db_bind_inv in H as [(e0 & _ & E) | (x2 & tr5 & H5 & H)];
    [discriminate |].
  apply db_bind_inv in H as [(e0 & _ & E) | (x3 & tr6 & H6 & H)];
    [discriminate |].
  apply db_ret_inv in H as [E ->]. injection E as ->.
  pose proof (first_or_add_result _ _ _ _ H1) as Hregion.
  pose proof (first_or_add_result _ _ _ _ H2) as Hsector.
  pose proof (drivers_result _ _ H3) as Hdrivers.
  apply first_or_add_straight in H1 as (evs1 & -> & HP1 & Hr1).
  apply first_or_add_straight in H2 as (evs2 & -> & HP2 & Hr2).
  apply drivers_straight in H3 as (evs3 & -> & HP3 & Hr3).
  simpl in Hr1, Hr2, Hr3.
  apply db_call_inv in H4 as (o4 & -> & Ho4).
  destruct o4 as [r1 | e4]; [| discriminate].
  apply db_call_inv in H5 as (o5 & -> & Ho5).
  destruct o5 as [r2 | e5]; [| discriminate].
  apply effects_loop_ok in H6 as (eff_evs & -> & Hret & Hcalls).
  exists (evs1 ++ evs2 ++ evs3), r1, r2, eff_evs.
  split; [repeat (rewrite <- app_assoc; simpl); reflexivity |].
  split; [auto using all_returned_app |].
  split; [unfold calls in *; rewrite !map_app;
          apply Forall_app; split; [assumption |];
          apply Forall_app; split; assumption |].
  split; [exact Hret |]. split; [exact Hcalls |].
  unfold case_built. simpl. auto 10.
Qed.

(** The handler of [save_case] always raises. *)
Lemma save_case_handler e0 tr res tr' :
  db_bind (db_call respond Rollback)
    (fun _ => db_bind (db_call respond (PrintError e0))
                (fun _ => db_raise (case_obj row) e0)) tr = (res, tr') ->
  exists e rest,
    res = inl e /\ tr' = tr ++ rest /\ rolled_back e0 e rest.
Proof.
  intros H.
  apply db_bind_inv in H as [(e & H & ->) | (x & tr1 & H1 & H)].
  - apply db_call_inv in H as ([r | e1] & -> & Ho); [discriminate |].
    injection Ho as ->. exists e1, [(Rollback, Raised e1)].
    repeat split. left. reflexivity.
  - apply db_call_inv in H1 as ([r | e1] & -> & Ho); [| discriminate].
    apply db_bind_inv in H as [(e & H & ->) | (y & tr2 & H2 & H)].
    + apply db_call_inv in H as ([r' | e2] & -> & Ho'); [discriminate |].
      injection Ho' as ->.
      exists e2, [(Rollback, Returned r); (PrintError e0, Raised e2)].
      rewrite <- app_assoc. repeat split. right. left. eauto.
    + apply db_call_inv in H2 as ([r' | e2] & -> & Ho'); [| discriminate].
      unfold db_raise in H. injection H as <- <-.
      exists e0, [(Rollback, Returned r); (PrintError e0, Returned r')].
      rewrite <- app_assoc. repeat split. right. right. eauto.
Qed.

Lemma save_case_shape cd effs names tr res tr' :
  save_case respond cd effs names tr = (res, tr') ->
  exists evs,
    tr' = tr ++ evs /\
    match res with
    | inr c => saved_trace effs c evs /\ case_built cd names c
    | inl e =>
        exists pre cf e0 rest,
          evs = pre ++ (cf, Raised e0) :: rest /\
          all_returned pre /\
          Forall (@is_try_call row) (calls pre) /\ is_try_call cf /\
          rolled_back e0 e rest
    end.
Proof.
  assert (Hcr : forall c : call row, is_create_call c -> is_try_call c).
  { intros [| | | | | | | |]; simpl; auto. }
  unfold save_case, try_except. intros H.
  destruct (db_bind (create_case respond cd effs names) _ tr)
    as [[e0 | c] tr1] eqn:Hbody.
  - (* the try block raised *)
    assert (Hst : straight (@is_try_call row)
                    (db_bind (create_case respond cd effs names)
                       (fun new_case =>
                          db_bind (db_call respond Commit)
                            (fun _ =>
                               db_bind (db_call respond (PrintSaved new_case))
                                 (fun _ => db_ret new_case))))).
    { apply straight_bind;
        [eapply straight_weaken; [exact Hcr | apply create_case_straight] |].
      intros c. apply straight_bind; [apply straight_call; exact I |].
      intros _. apply straight_bind; [apply straight_call; exact I |].
      intros _. apply straight_ret. }
    apply Hst in Hbody as (evs1 & -> & HP & pre & cf & -> & Hpre).
    apply save_case_handler in H as (e & rest & -> & -> & Hrb).
    exists ((pre ++ [(cf, Raised e0)]) ++ rest).
    split; [rewrite !app_assoc; reflexivity |].
    exists pre, cf, e0, rest. rewrite <- app_assoc. simpl.
    unfold calls in HP. rewrite map_app in HP.
    apply Forall_app in HP as [HP1 HP2]. inversion HP2; subst.
    repeat split; assumption.
  - (* the try block returned *)
    injection H as <- <-.
    apply db_bind_inv in Hbody as [(e0 & _ & E) | (c' & tr2 & Hc & H)];
      [discriminate |].
    apply db_bind_inv in H as [(e0 & _ & E) | (x1 & tr3 & H1 & H)];
      [discriminate |].
    apply db_bind_inv in H as [(e0 & _ & E) | (x2 & tr4 & H2 & H)];
      [discriminate |].
    apply db_ret_inv in H as [E ->]. injection E as ->.
    apply create_case_ok in Hc
      as (lk & r1 & r2 & eff_evs & -> & Hlk & HPlk & Heff & Hcalls & Hb).
    apply db_call_inv in H1 as ([r3 | e3] & -> & Ho1); [| discriminate].
    apply db_call_inv in H2 as ([r4 | e4] & -> & Ho2); [| discriminate].
    eexists. split.
    2: { split; [| exact Hb].
         exists lk, r1, r2, eff_evs, r3, r4. repeat split; eassumption. }
    repeat (rewrite <- app_assoc; simpl). reflexivity.
Qed.

(** X13: [save_case] returns the case only after the look-ups, the [add]
    of the case, the [flush], one [add] per economic effect in the order
    given, the [commit] and the success message have all returned, in
    this order, with the case built from the record and one driver per
    name.  It raises only after the first call that raised was followed
    by a [rollback]; it then raises the exception of that call, unless
    the rollback or the error message raised one of their own. *)
Theorem save_case_commits_or_rolls_back (cd : case) (effs : list effect)
    (names : list str) (tr : list (event row)) :
  exists res evs,
    save_case respond cd effs names tr = (res, tr ++ evs) /\
    match res with
    | inr c => saved_trace effs c evs /\ case_built cd names c
    | inl e =>
        exists pre cf e0 rest,
          evs = pre ++ (cf, Raised e0) :: rest /\
          all_returned pre /\
          Forall (@is_try_call row) (calls pre) /\ is_try_call cf /\
          rolled_back e0 e rest
    end.
Proof.
  destruct (save_case respond cd effs names tr) as [res tr'] eqn:H.
  apply save_case_shape in H as (evs & -> & Hshape).
  exists res, evs. split; [reflexivity | exact Hshape].
Qed.
End RepositoryFacts.

(** ** What the calls add up to *)

Section RepositoryTraces.
Variable row : Type.
Variable respond : list (event row) -> call row -> outcome row.

Lemma cases_added_app (a b : list (event row)) :
  cases_added (a ++ b) = cases_added a ++ cases_added b.
Proof. unfold cases_added. apply flat_map_app. Qed.

Lemma commits_app (a b : list (event row)) :
  commits (a ++ b) = commits a + commits b.
Proof. unfold commits. rewrite filter_app, length_app. reflexivity. Qed.

Lemma lookup_trace_app (a b : list (event row)) :
  lookup_trace a -> lookup_trace b -> lookup_trace (a ++ b).
Proof.
  induction 1; intros Hb; simpl; [exact Hb | | |]; constructor; auto.
Qed.

Lemma adds_follow_app (a b : list (event row)) :
  adds_follow_failed_lookup a -> adds_follow_failed_lookup b ->
  adds_follow_failed_lookup (a ++ b).
Proof.
  intros Ha Hb pre e o post H.
  apply app_eq_app in H as (l & [[Hp Hq] | [Hp Hq]]).
  - (* the add lies in [a], or is the first call of [b] *)
    destruct l as [| x l]; simpl in Hq.
    + subst b.
      destruct (Hb [] e o post eq_refl) as (pre' & t & n & d & _ & E).
      destruct pre'; discriminate.
    + injection Hq as <- ->.
      destruct (Ha pre e o l Hp) as (pre' & t & n & d & He & E).
      exists pre', t, n, d. auto.
  - (* the add lies in [b] *)
    destruct (Hb l e o post Hq) as (pre' & t & n & d & He & E).
    exists (a ++ pre'), t, n, d. split; [exact He |].
    rewrite Hp, E. apply app_assoc.
Qed.

Lemma adds_follow_lookup_trace (evs : list (event row)) :
  lookup_trace evs -> adds_follow_failed_lookup evs.
Proof.
  induction 1 as [| t n r rest _ IH | t n e rest _ IH | t n d o rest _ IH];
    intros pre e' o' post H.
  - destruct pre; discriminate.
  - destruct pre as [| x pre]; [discriminate |]. injection H as <- H.
    destruct (IH pre e' o' post H) as (pre' & t' & n' & d' & He & E).
    exists ((QueryFirst t n, Returned (Some r)) :: pre'), t', n', d'.
    subst pre. auto.
  - destruct pre as [| x pre]; [discriminate |]. injection H as <- H.
    destruct (IH pre e' o' post H) as (pre' & t' & n' & d' & He & E).
    exists ((QueryFirst t n, Raised e) :: pre'), t', n', d'.
    subst pre. auto.
  - destruct pre as [| x pre]; [discriminate |]. injection H as <- H.
    destruct pre as [| y pre].
    + injection H as <- <- <-. exists [], t, n, d. auto.
    + injection H as <- H.
      destruct (IH pre e' o' post H) as (pre' & t' & n' & d' & He & E).
      exists ((QueryFirst t n, Returned None)
                :: (Add (OEntity (Created t n d)), o) :: pre'), t', n', d'.
      subst pre. auto.
Qed.

Lemma adds_follow_quiet (evs : list (event row)) :
  Forall (@not_entity_add row) (calls evs) -> adds_follow_failed_lookup evs.
Proof.
  intros Hq pre e o post H. exfalso. subst evs.
  unfold calls in Hq. rewrite map_app in Hq.
  apply Forall_app in Hq as [_ Hq]. inversion Hq as [| ? ? Hc _]; subst.
  exact Hc.
Qed.

Lemma tally_app (a b : list (event row)) ts1 n1 ts2 n2 :
  tally a ts1 n1 -> tally b ts2 n2 -> tally (a ++ b) (ts1 ++ ts2) (n1 + n2).
Proof.
  intros (Ha1 & Ha2 & <- & <-) (Hb1 & Hb2 & <- & <-).
  repeat split.
  - unfold calls. rewrite map_app. apply Forall_app. auto.
  - apply adds_follow_app; assumption.
  - apply cases_added_app.
  - apply commits_app.
Qed.

Lemma tally_lookup (evs : list (event row)) :
  lookup_trace evs -> tally evs [] 0.
Proof.
  intros H. repeat split.
  - induction H; simpl; repeat constructor; assumption.
  - apply adds_follow_lookup_trace. exact H.
  - induction H; simpl; auto.
  - unfold commits. induction H; simpl; auto.
Qed.

Lemma tally_quiet (evs : list (event row)) :
  Forall (@is_quiet_call row) (calls evs) -> tally evs [] 0.
Proof.
  intros H. repeat split.
  - eapply Forall_impl; [| exact H].
    intros [| | [] | | | | | |]; simpl; auto.
  - apply adds_follow_quiet. eapply Forall_impl; [| exact H].
    intros [| | [] | | | | | |]; simpl; auto.
  - induction evs as [| [c o] evs IH]; [reflexivity |].
    inversion H as [| ? ? Hc Hrest]; subst. simpl.
    rewrite (IH Hrest), app_nil_r.
    destruct c as [| | [] | | | | | |]; simpl in Hc;
      try contradiction; reflexivity.
  - induction evs as [| [c o] evs IH]; [reflexivity |].
    inversion H as [| ? ? Hc Hrest]; subst.
    unfold commits in *. simpl.
    destruct c as [| | [] | | | | | |]; simpl in Hc;
      try contradiction; apply (IH Hrest).
Qed.

Lemma tally_case_add (c : case_obj row) o :
  tally [(Add (OCase c), o)] [c] 0.
Proof.
  repeat split.
  - repeat constructor.
  - apply adds_follow_quiet. repeat constructor.
Qed.

Lemma tally_commit (o : outcome row) :
  tally [(Commit, o)] [] (if is_returned o then 1 else 0).
Proof.
  repeat split.
  - repeat constructor.
  - apply adds_follow_quiet. repeat constructor.
  - destruct o; reflexivity.
Qed.

Lemma first_or_add_trace t name description tr res tr' :
  first_or_add respond t name description tr = (res, tr') ->
  exists evs, tr' = tr ++ evs /\ lookup_trace evs.
Proof.
  unfold first_or_add. intros H.
  apply db_bind_inv in H as [(e & H & _) | (found & tr1 & H1 & H)].
  - apply db_call_inv in H as ([r | e1] & -> & Ho); [discriminate |].
    eexists. split; [reflexivity | repeat constructor].
  - apply db_call_inv in H1 as ([r | e1] & -> & Ho); [| discriminate].
    injection Ho as ->. destruct r as [r |].
    + apply db_ret_inv in H as [_ ->].
      eexists. split; [reflexivity | repeat constructor].
    + apply db_bind_inv in H as [(e & H & _) | (x & tr2 & H2 & H)].
      * apply db_call_inv in H as (o & -> & _).
        eexists. rewrite <- app_assoc. split; [reflexivity |].
        simpl. repeat constructor.
      * apply db_call_inv in H2 as (o & -> & _).
        apply db_ret_inv in H as [_ ->].
        eexists. rewrite <- app_assoc. split; [reflexivity |].
        simpl. repeat constructor.
Qed.

Lemma drivers_trace names :
  forall tr res tr',
    get_or_create_technology_drivers respond names tr = (res, tr') ->
    exists evs, tr' = tr ++ evs /\ lookup_trace evs.
Proof.
  induction names as [| name names IH]; intros tr res tr' H; simpl in H.
  - apply db_ret_inv in H as [_ ->]. exists [].
    rewrite app_nil_r. split; [reflexivity | constructor].
  - apply db_bind_inv in H as [(e & H & _) | (d & tr1 & H1 & H)].
    + apply first_or_add_trace in H. exact H.
    + apply first_or_add_trace in H1 as (evs1 & -> & Hl1).
      apply db_bind_inv in H as [(e & H & _) | (ds & tr2 & H2 & H)].
      * apply IH in H as (evs2 & -> & Hl2).
        exists (evs1 ++ evs2). rewrite app_assoc.
        split; [reflexivity | apply lookup_trace_app; assumption].
      * apply IH in H2 as (evs2 & -> & Hl2).
        apply db_ret_inv in H as [_ ->].
        exists (evs1 ++ evs2). rewrite app_assoc.
        split; [reflexivity | apply lookup_trace_app; assumption].
Qed.

Lemma tally_single_quiet (c : call row) o :
  is_quiet_call c -> tally [(c, o)] [] 0.
Proof. intros H. apply tally_quiet. repeat constructor. exact H. Qed.

Lemma effects_loop_tally (c : case_obj row) effs tr res tr' :
  db_for effs
    (fun effect_data =>
       db_bind (db_call respond (Add (OEffect (effect_of c effect_data))))
               (fun _ => db_ret tt)) tr = (res, tr') ->
  exists evs, tr' = tr ++ evs /\ tally evs [] 0.
Proof.
  intros H.
  assert (Hst : straight (@is_quiet_call row)
                  (db_for effs
                     (fun effect_data =>
                        db_bind
                          (db_call respond
                             (Add (OEffect (effect_of c effect_data))))
                          (fun _ => db_ret tt)))).
  { apply straight_for. intros e.
    apply straight_bind; [apply straight_call; exact I |].
    intros _. apply straight_ret. }
  apply Hst in H as (evs & -> & HP & _).
  exists evs. split; [reflexivity | apply tally_quiet; exact HP].
Qed.

(** The calls of [create_case], whatever its outcome: no commit, and at
    most the one case, built from the record and added once the look-ups
    are through. *)
Lemma create_case_tally cd effs names tr res tr' :
  create_case respond cd effs names tr = (res, tr') ->
  exists evs cs,
    tr' = tr ++ evs /\ tally evs cs 0 /\
    (cs = [] \/ exists c, cs = [c] /\ case_built cd names c) /\
    (forall c, res = inr c -> cs = [c]).
Proof.
  unfold create_case, get_or_create_region, get_or_create_sector.
  intros H.
  apply db_bind_inv in H as [(e & H & ->) | (region & tr1 & H1 & H)].
  { apply first_or_add_trace in H as (evs & -> & Hl).
    exists evs, [].
    split; [reflexivity |]. split; [apply tally_lookup; exact Hl |].
    split; [auto | discriminate]. }
  pose proof (@first_or_add_result _ respond _ _ _ _ _ _ H1) as Hregion.
  apply first_or_add_trace in H1 as (evs1 & -> & Hl1).
  apply db_bind_inv in H as [(e & H & ->) | (sector & tr2 & H2 & H)].
  { apply first_or_add_trace in H as (evs & -> & Hl).
    exists (evs1 ++ evs), [].
    split; [symmetry; apply app_assoc |].
    split; [apply tally_lookup, lookup_trace_app; assumption |].
    split; [auto | discriminate]. }
  pose proof (@first_or_add_result _ respond _ _ _ _ _ _ H2) as Hsector.
  apply first_or_add_trace in H2 as (evs2 & -> & Hl2).
  apply db_bind_inv in H as [(e & H & ->) | (drivers & tr3 & H3 & H)].
  { apply drivers_trace in H as (evs & -> & Hl).
    exists (evs1 ++ evs2 ++ evs), [].
    split; [rewrite <- !app_assoc; reflexivity |].
    split; [apply tally_lookup; auto using lookup_trace_app |].
    split; [auto | discriminate]. }
  pose proof (@drivers_result _ respond _ _ _ _ H3) as Hdrivers.
  apply drivers_trace in H3 as (evs3 & -> & Hl3).
  assert (Hlk : tally (evs1 ++ evs2 ++ evs3) [] 0)
    by (apply tally_lookup; auto using lookup_trace_app).
  rewrite <- !app_assoc in H.
  cbv zeta in H.
  set (new_case := {| co_region := region; co_sector := sector;
                      co_title := title cd; co_summary := summary cd;
                      co_detailed_notes := detailed_notes cd;
                      co_key_effect_note := Some (key_effect_note cd);
                      co_technology_drivers := drivers |}) in *.
  assert (Hbuilt : exists c, [new_case] = [c] /\ case_built cd names c).
  { exists new_case. split; [reflexivity |].
    unfold case_built, new_case. simpl. auto 10. }
  set (lk := evs1 ++ evs2 ++ evs3) in *.
  apply db_bind_inv in H as [(e & H & ->) | (x1 & tr4 & H4 & H)].
  { apply db_call_inv in H as (o & -> & _).
    exists (lk ++ [(Add (OCase new_case), o)]), ([] ++ [new_case]).
    split; [symmetry; apply app_assoc |].
    split; [apply (tally_app Hlk (tally_case_add new_case o)) |].
    split; [right; exact Hbuilt | discriminate]. }
  apply db_call_inv in H4 as (o4 & -> & _).
  assert (Hadd : tally (lk ++ [(Add (OCase new_case), o4)]) [new_case] 0)
    by apply (tally_app Hlk (tally_case_add new_case o4)).
  rewrite <- app_assoc in H.
  set (upto_add := lk ++ [(Add (OCase new_case), o4)]) in *.
  apply db_bind_inv in H as [(e & H & ->) | (x2 & tr5 & H5 & H)].
  { apply db_call_inv in H as (o & -> & _).
    exists (upto_add ++ [(Flush, o)]), ([new_case] ++ []).
    split; [symmetry; apply app_assoc |].
    split; [apply (tally_app Hadd (@tally_single_quiet Flush o I)) |].
    split; [right; exact Hbuilt | discriminate]. }
  apply db_call_inv in H5 as (o5 & -> & _).
  assert (Hflush : tally (upto_add ++ [(Flush, o5)]) ([new_case] ++ []) 0)
    by apply (tally_app Hadd (@tally_single_quiet Flush o5 I)).
  rewrite <- app_assoc in H.
  set (upto_flush := upto_add ++ [(Flush, o5)]) in *.
  apply db_bind_inv in H as [(e & H & ->) | (x3 & tr6 & H6 & H)].
  { apply effects_loop_tally in H as (evs & -> & Ht).
    exists (upto_flush ++ evs), (([new_case] ++ []) ++ []).
    split; [symmetry; apply app_assoc |].
    split; [apply (tally_app Hflush Ht) |].
    split; [right; exact Hbuilt | discriminate]. }
  apply effects_loop_tally in H6 as (evs & -> & Ht).
  apply db_ret_inv in H as [-> ->].
  exists (upto_flush ++ evs), (([new_case] ++ []) ++ []).
  split; [symmetry; apply app_assoc |].
  split; [apply (tally_app Hflush Ht) |].
  split; [right; exact Hbuilt |].
  intros c E. injection E as <-. reflexivity.
Qed.

Lemma rolled_back_quiet e0 e (rest : list (event row)) :
  rolled_back e0 e rest -> tally rest [] 0.
Proof.
  intros [-> | [(r & ->) | (r & r' & -> & _)]];
    apply tally_quiet; repeat constructor.
Qed.

(** The calls of [save_case], whatever its outcome: the case, built from
    the record, is added at most once, a commit returns at most once, and
    only after the case was added; both have happened when [save_case]
    returns. *)
Lemma save_case_tally cd effs names tr res tr' :
  save_case respond cd effs names tr = (res, tr') ->
  exists evs cs n,
    tr' = tr ++ evs /\ tally evs cs n /\
    (cs = [] /\ n = 0 \/
     exists c, cs = [c] /\ case_built cd names c /\ n <= 1) /\
    (forall c, res = inr c -> n = 1).
Proof.
  unfold save_case, try_except. intros H.
  destruct (db_bind (create_case respond cd effs names) _ tr)
    as [[e0 | c] tr1] eqn:Hbody.
  - (* the try block raised: its calls, then those of the handler *)
    apply save_case_handler in H as (e & rest & -> & -> & Hrb).
    apply rolled_back_quiet in Hrb.
    apply db_bind_inv in Hbody as [(e1 & Hc & _) | (c & tr2 & Hc & Hk)].
    + apply create_case_tally in Hc as (evs & cs & -> & Ht & Hcs & _).
      exists (evs ++ rest), (cs ++ []), (0 + 0). rewrite app_assoc.
      split; [reflexivity |]. split; [apply (tally_app Ht Hrb) |].
      rewrite app_nil_r. split; [| discriminate].
      destruct Hcs as [-> | (c & -> & Hb)]; [left; auto | right].
      exists c. auto.
    + apply create_case_tally in Hc as (evs & cs & -> & Ht & Hcs & Hok).
      rewrite (Hok c eq_refl) in *.
      assert (Hb : exists c0, [c] = [c0] /\ case_built cd names c0 /\ 0 <= 1).
      { destruct Hcs as [E | (c0 & E & Hb)]; [discriminate |].
        exists c0. auto. }
      apply db_bind_inv in Hk as [(e1 & Hk & _) | (x1 & tr3 & H1 & Hk)].
      * apply db_call_inv in Hk as ([r | e2] & -> & Ho); [discriminate |].
        exists (evs ++ [(Commit, Raised e2)] ++ rest),
               ([c] ++ [] ++ []), (0 + (0 + 0)).
        split; [repeat (rewrite <- app_assoc; simpl); reflexivity |].
        split; [| split; [right; exact Hb | discriminate]].
        apply (tally_app Ht
                 (tally_app (tally_commit (Raised e2)) Hrb)).
      * apply db_call_inv in H1 as ([r | e2] & -> & Ho); [| discriminate].
        apply db_bind_inv in Hk as [(e3 & Hk & _) | (x2 & tr4 & H2 & Hk)];
          [| apply db_ret_inv in Hk as [Hk _]; discriminate].
        apply db_call_inv in Hk as (o & -> & _).
        exists (evs ++ [(Commit, Returned r)] ++ [(PrintSaved c, o)]
                    ++ rest),
               ([c] ++ [] ++ [] ++ []), (0 + (1 + (0 + 0))).
        split; [repeat (rewrite <- app_assoc; simpl); reflexivity |].
        split; [| split; [| discriminate]].
        -- apply (tally_app Ht
                    (tally_app (tally_commit (Returned r))
                       (tally_app
                          (@tally_single_quiet (PrintSaved c) o I) Hrb))).
        -- right. destruct Hb as (c0 & E & Hb & _). exists c0.
           split; [exact E |]. split; [exact Hb | simpl; lia].
  - (* the try block returned *)
    injection H as <- <-.
    apply db_bind_inv in Hbody as [(e1 & _ & E) | (c' & tr2 & Hc & Hk)];
      [discriminate |].
    apply create_case_tally in Hc as (evs & cs & -> & Ht & Hcs & Hok).
    rewrite (Hok c' eq_refl) in *.
    apply db_bind_inv in Hk as [(e1 & _ & E) | (x1 & tr3 & H1 & Hk)];
      [discriminate |].
    apply db_call_inv in H1 as ([r | e2] & -> & Ho); [| discriminate].
    apply db_bind_inv in Hk as [(e1 & _ & E) | (x2 & tr4 & H2 & Hk)];
      [discriminate |].
    apply db_call_inv in H2 as (o & -> & _).
    apply db_ret_inv in Hk as [_ ->].
    exists (evs ++ [(Commit, Returned r)] ++ [(PrintSaved c', o)]),
           ([c'] ++ [] ++ []), (0 + (1 + 0)).
    split; [repeat (rewrite <- app_assoc; simpl); reflexivity |].
    split; [| split; [| intros; reflexivity]].
    + apply (tally_app Ht
               (tally_app (tally_commit (Returned r))
                  (@tally_single_quiet (PrintSaved c') o I))).
    + right. destruct Hcs as [E | (c0 & E & Hb)]; [discriminate |].
      exists c0. split; [exact E |]. split; [exact Hb | simpl; lia].
Qed.

(** ** [_persist_cases] *)

(** The loop of [_persist_cases] over the payloads [ps]: the cases added
    are those built from the first [k] payloads, and [n] commits
    returned. *)
Lemma save_loop_tally (ps : list payload) :
  forall tr res tr',
    db_for ps
      (fun payload =>
         db_bind (save_case respond (case_of payload)
                    (economic_effects payload) (technology_drivers payload))
                 (fun _ => db_ret tt)) tr = (res, tr') ->
    exists evs cs k n,
      tr' = tr ++ evs /\
      tally evs cs n /\
      Forall2 (@built_from row) (firstn k ps) cs /\
      k <= length ps /\ n <= k /\ k <= S n /\
      (forall u, res = inr u -> k = length ps /\ n = length ps).
Proof.
  induction ps as [| p ps IH]; intros tr res tr' H; simpl in H.
  - apply db_ret_inv in H as [-> ->]. exists [], [], 0, 0.
    rewrite app_nil_r. split; [reflexivity |].
    split; [apply tally_quiet; constructor |]. simpl.
    split; [constructor | auto].
  - apply db_bind_inv in H as [(e & H & ->) | ([] & tr1 & H1 & H)].
    + (* this save raised *)
      apply db_bind_inv in H as [(e1 & H & _) | (c & tr1 & _ & H)];
        [| apply db_ret_inv in H as [H _]; discriminate].
      apply save_case_tally
        in H as (evs & cs & n & -> & Ht
                 & [[-> ->] | (c & -> & Hb & Hn)] & _).
      * exists evs, [], 0, 0. split; [reflexivity |].
        split; [exact Ht |]. simpl. split; [constructor |].
        split; [lia |]. split; [lia |]. split; [lia | discriminate].
      * exists evs, [c], 1, n. split; [reflexivity |].
        split; [exact Ht |]. simpl.
        split; [constructor; [exact Hb | constructor] |].
        split; [lia |]. split; [lia |]. split; [lia | discriminate].
    + (* this save returned: on to the next *)
      apply db_bind_inv in H1 as [(e1 & _ & E) | (c & tr2 & Hs & H1)];
        [discriminate |].
      apply db_ret_inv in H1 as [_ ->].
      apply save_case_tally in Hs as (evs1 & cs1 & n1 & -> & Ht1 & Hcs & Hok).
      pose proof (Hok c eq_refl) as ->.
      destruct Hcs as [[_ E] | (c1 & -> & Hb & _)]; [discriminate |].
      apply IH in H as (evs2 & cs2 & k & n & -> & Ht2 & Hf & Hk & Hn & Hkn
                        & Hall).
      exists (evs1 ++ evs2), ([c1] ++ cs2), (S k), (1 + n).
      split; [symmetry; apply app_assoc |].
      split; [apply (tally_app Ht1 Ht2) |]. simpl.
      split; [constructor; [exact Hb | exact Hf] |].
      split; [lia |]. split; [lia |]. split; [lia |].
      intros u E. destruct (Hall u E). lia.
Qed.

(** The calls of [_persist_cases]: the session is opened; when that
    returned, the payloads are saved in order and the session is closed. *)
Lemma _persist_cases_trace (str_lower : str -> str) (agent_output : str)
    tr res tr' :
  _persist_cases respond str_lower agent_output tr = (res, tr') ->
  exists evs,
    tr' = tr ++ evs /\
    ((exists e, evs = [(SessionLocal, Raised e)] /\ res = inl e) \/
     (exists r ps mid cs k n o,
         parse_agent_output str_lower agent_output = inr ps /\
         evs = (SessionLocal, Returned r) :: mid ++ [(Close, o)] /\
         tally mid cs n /\
         Forall2 (@built_from row) (firstn k ps) cs /\
         k <= length ps /\ n <= k /\ k <= S n /\
         (forall u, res = inr u ->
                    k = length ps /\ n = length ps /\ is_returned o = true) /\
         (forall e, o = Raised e -> res = inl e))).
Proof.
  unfold _persist_cases, try_finally. intros H.
  apply db_bind_inv in H as [(e & H & ->) | (r & tr1 & H1 & H)].
  - apply db_call_inv in H as ([r | e1] & -> & Ho); [discriminate |].
    injection Ho as ->. exists [(SessionLocal, Raised e1)].
    split; [reflexivity |]. left. exists e1. auto.
  - apply db_call_inv in H1 as ([r1 | e1] & -> & Ho); [| discriminate].
    injection Ho as ->.
    destruct (parse_agent_output_rows str_lower agent_output)
      as (ps & Hparse & _).
    unfold db_bind at 1 in H. rewrite Hparse in H.
    destruct (db_for ps _ (tr ++ [(SessionLocal, Returned r1)]))
      as [res1 tr2] eqn:Hloop.
    apply save_loop_tally
      in Hloop as (mid & cs & k & n & -> & Ht & Hf & Hk & Hn & Hkn & Hall).
    destruct (db_bind (db_call respond Close) _ _) as [fin tr3] eqn:Hfin.
    apply db_bind_inv in Hfin as [(e & Hc & ->) | (x & tr4 & Hc & Hr)].
    + (* [close] raised *)
      apply db_call_inv in Hc as ([r2 | e2] & -> & Ho); [discriminate |].
      injection Ho as ->. injection H as <- <-.
      exists ((SessionLocal, Returned r1) :: mid ++ [(Close, Raised e2)]).
      split; [repeat (rewrite <- app_assoc; simpl); reflexivity |].
      right. exists r1, ps, mid, cs, k, n, (Raised e2).
      split; [exact Hparse |]. split; [reflexivity |].
      split; [exact Ht |]. split; [exact Hf |].
      split; [lia |]. split; [lia |]. split; [lia |].
      split; [discriminate |].
      intros e E. injection E as ->. reflexivity.
    + (* [close] returned *)
      apply db_call_inv in Hc as ([r2 | e2] & -> & Ho); [| discriminate].
      apply db_ret_inv in Hr as [-> ->]. injection H as <- <-.
      exists ((SessionLocal, Returned r1) :: mid ++ [(Close, Returned r2)]).
      split; [repeat (rewrite <- app_assoc; simpl); reflexivity |].
      right. exists r1, ps, mid, cs, k, n, (Returned r2).
      split; [exact Hparse |]. split; [reflexivity |].
      split; [exact Ht |]. split; [exact Hf |].
      split; [lia |]. split; [lia |]. split; [lia |].
      split; [| discriminate].
      intros u E. destruct (Hall u E). auto.
Qed.

(** X14: [_persist_cases] opens the session first and once; when that
    raises, it makes no other call and raises the same exception.
    Otherwise it closes the session exactly once, as its last call,
    whatever the calls in between did, none of which opens or closes a
    session; an exception of [close] is the one [_persist_cases] raises. *)
Theorem _persist_cases_closes_session (str_lower : str -> str)
    (agent_output : str) (tr : list (event row)) :
  exists res evs,
    _persist_cases respond str_lower agent_output tr = (res, tr ++ evs) /\
    ((exists e, evs = [(SessionLocal, Raised e)] /\ res = inl e) \/
     (exists r mid o,
         evs = (SessionLocal, Returned r) :: mid ++ [(Close, o)] /\
         Forall (@is_save_call row) (calls mid) /\
         (forall e, o = Raised e -> res = inl e))).
Proof.
  destruct (_persist_cases respond str_lower agent_output tr)
    as [res tr'] eqn:H.
  apply _persist_cases_trace in H as (evs & -> & Hevs).
  exists res, evs. split; [reflexivity |].
  destruct Hevs
    as [He | (r & ps & mid & cs & k & n & o & _ & -> & Ht & _ & _ & _ & _
              & _ & Ho)];
    [left; exact He | right].
  exists r, mid, o. split; [reflexivity |].
  split; [apply Ht | exact Ho].
Qed.

(** X15: the cases [_persist_cases] adds to the session are the cases
    built from the first [k] payloads of [parse_agent_output], one per
    payload and in the order of the payloads: each has the title, the
    summary, the notes and the effect note of its payload, the region and
    the sector as looked up or newly built under the payload's names, and
    one driver per driver name.  The commits that returned are [k] or
    [k - 1] in number, so that no more than one case added is left
    without its commit.  When [_persist_cases] returns, [k] is the number
    of payloads, and as many commits returned. *)
Theorem _persist_cases_saves_in_order (str_lower : str -> str)
    (agent_output : str) (tr : list (event row)) :
  exists res evs ps k,
    _persist_cases respond str_lower agent_output tr = (res, tr ++ evs) /\
    parse_agent_output str_lower agent_output = inr ps /\
    Forall2 (@built_from row) (firstn k ps) (cases_added evs) /\
    k <= length ps /\ commits evs <= k /\ k <= S (commits evs) /\
    (forall u, res = inr u -> k = length ps /\ commits evs = length ps).
Proof.
  destruct (_persist_cases respond str_lower agent_output tr)
    as [res tr'] eqn:H.
  apply _persist_cases_trace in H as (evs & -> & Hevs).
  destruct Hevs
    as [(e & -> & ->)
       | (r & ps & mid & cs & k & n & o & Hp & -> & Ht & Hf & Hk & Hn & Hkn
          & Hall & _)].
  - destruct (parse_agent_output_rows str_lower agent_output)
      as (ps & Hparse & _).
    exists (inl e), [(SessionLocal, Raised e)], ps, 0.
    split; [reflexivity |]. split; [exact Hparse |].
    split; [constructor |]. unfold commits. simpl.
    split; [lia |]. split; [lia |]. split; [lia | discriminate].
  - exists res, ((SessionLocal, Returned r) :: mid ++ [(Close, o)]), ps, k.
    destruct Ht as (_ & _ & Hcs & Hc).
    assert (Eadded : cases_added ((SessionLocal, Returned r)
                                    :: mid ++ [(Close, o)])
                     = cases_added mid).
    { change (cases_added (mid ++ [(Close, o)]) = cases_added mid).
      rewrite cases_added_app. apply app_nil_r. }
    assert (Ecommits : commits ((SessionLocal, Returned r)
                                  :: mid ++ [(Close, o)])
                       = commits mid).
    { change (commits (mid ++ [(Close, o)]) = commits mid).
      rewrite commits_app. apply Nat.add_0_r. }
    rewrite Eadded, Ecommits, Hcs, Hc.
    split; [reflexivity |]. split; [exact Hp |].
    split; [exact Hf |].
    split; [lia |]. split; [lia |]. split; [lia |].
    intros u E. destruct (Hall u E) as (E1 & E2 & _). auto.
Qed.

(** X16: [_persist_cases] adds a region, a sector or a technology driver
    to the session only as a newly built instance, directly after the
    [.first()] for the same table and name returned [None]: it never adds
    one its look-up found, and never adds one without looking it up. *)
Theorem _persist_cases_adds_after_failed_lookup (str_lower : str -> str)
    (agent_output : str) (tr : list (event row)) :
  exists res evs,
    _persist_cases respond str_lower agent_output tr = (res, tr ++ evs) /\
    adds_follow_failed_lookup evs.
Proof.
  destruct (_persist_cases respond str_lower agent_output tr)
    as [res tr'] eqn:H.
  apply _persist_cases_trace in H as (evs & -> & Hevs).
  exists res, evs. split; [reflexivity |].
  destruct Hevs
    as [(e & -> & _)
       | (r & ps & mid & cs & k & n & o & _ & -> & Ht & _)].
  - apply adds_follow_quiet. repeat constructor.
  - change (adds_follow_failed_lookup
              ([(SessionLocal, Returned r)] ++ mid ++ [(Close, o)])).
    apply adds_follow_app; [apply adds_follow_quiet; repeat constructor |].
    apply adds_follow_app; [apply Ht |].
    apply adds_follow_quiet. repeat constructor.
Qed.

(** ** After a rollback *)

Lemma stops_none (A : Type) (res : exc + A) (evs : list (event row)) :
  Forall (@not_rollback row) (calls evs) -> stops_at_rollback res evs.
Proof.
  intros Hn pre o rest ->. exfalso.
  unfold calls in Hn. rewrite map_app in Hn.
  apply Forall_app in Hn as [_ Hn]. inversion Hn as [| ? ? Hc _]; subst.
  exact Hc.
Qed.

Lemma stops_app_before (A : Type) (res : exc + A)
    (a b : list (event row)) :
  Forall (@not_rollback row) (calls a) ->
  stops_at_rollback res b -> stops_at_rollback res (a ++ b).
Proof.
  intros Ha Hb pre o rest H.
  apply app_eq_app in H as (l & [[Hp Hq] | [Hp Hq]]).
  - destruct l as [| x l]; simpl in Hq.
    + apply (Hb [] o rest). symmetry. exact Hq.
    + exfalso. injection Hq as <- _. subst a.
      unfold calls in Ha. rewrite map_app in Ha.
      apply Forall_app in Ha as [_ Ha].
      inversion Ha as [| ? ? Hc _]; subst. exact Hc.
  - apply (Hb l o rest). exact Hq.
Qed.

Lemma stops_app_after (A B : Type) (res : exc + A) (res' : exc + B)
    (a b : list (event row)) :
  stops_at_rollback res a ->
  Forall (@is_closing_call row) (calls b) ->
  (forall e, res = inl e -> exists e', res' = inl e') ->
  stops_at_rollback res' (a ++ b).
Proof.
  intros Ha Hb Hres pre o rest H.
  apply app_eq_app in H as (l & [[Hp Hq] | [Hp Hq]]).
  - destruct l as [| x l]; simpl in Hq.
    + exfalso. subst b. inversion Hb as [| ? ? Hc _]; subst. exact Hc.
    + injection Hq as <- ->.
      destruct (Ha pre o l Hp) as (Hl & e & He).
      split; [| apply (Hres e He)].
      unfold calls in *. rewrite map_app. apply Forall_app. auto.
  - exfalso. subst b. unfold calls in Hb. rewrite map_app in Hb.
    apply Forall_app in Hb as [_ Hb].
    inversion Hb as [| ? ? Hc _]; subst. exact Hc.
Qed.

Lemma rolled_back_stops e0 e (rest : list (event row)) :
  rolled_back e0 e rest ->
  stops_at_rollback (inl e : exc + case_obj row) rest.
Proof.
  intros Hrb pre o post H. split; [| eauto].
  destruct Hrb as [-> | [(r & ->) | (r & r' & -> & _)]];
    destruct pre as [| x [| y [| z pre]]];
    try discriminate; injection H as <- <-; try discriminate;
    repeat constructor.
Qed.

Lemma try_call_not_rollback (c : call row) :
  is_try_call c -> not_rollback c.
Proof. destruct c; simpl; auto. Qed.

Lemma saved_trace_try_calls effs (c : case_obj row) evs :
  saved_trace effs c evs -> Forall (@is_try_call row) (calls evs).
Proof.
  intros (lk & r1 & r2 & eff_evs & r3 & r4 & -> & _ & Hlk & _ & Heff).
  unfold calls in *. rewrite !map_app. rewrite Heff.
  apply Forall_app. split.
  { eapply Forall_impl; [| exact Hlk].
    intros [| | [] | | | | | |]; simpl; auto. }
  apply Forall_app. split; [repeat constructor |].
  apply Forall_app. split; [| repeat constructor].
  apply Forall_forall. intros x Hx.
  apply in_map_iff in Hx as (e & <- & _). exact I.
Qed.

(** A rollback of [save_case] is the last call but for the error
    message, and [save_case] raises after it. *)
Lemma save_case_stops cd effs names tr res tr' :
  save_case respond cd effs names tr = (res, tr') ->
  exists evs,
    tr' = tr ++ evs /\ stops_at_rollback res evs /\
    (forall c, res = inr c -> Forall (@not_rollback row) (calls evs)).
Proof.
  intros H. apply save_case_shape in H as (evs & -> & Hshape).
  exists evs. split; [reflexivity |].
  destruct res as [e | c].
  - destruct Hshape as (pre & cf & e0 & rest & -> & _ & Hpre & Hcf & Hrb).
    split; [| discriminate].
    change (pre ++ (cf, Raised e0) :: rest)
      with (pre ++ [(cf, Raised e0)] ++ rest).
    rewrite app_assoc. apply stops_app_before.
    + unfold calls in *. rewrite map_app. apply Forall_app.
      split; [| repeat constructor; apply try_call_not_rollback, Hcf].
      eapply Forall_impl; [| exact Hpre]. apply try_call_not_rollback.
    + exact (rolled_back_stops Hrb).
  - destruct Hshape as [Hst _]. apply saved_trace_try_calls in Hst.
    assert (Hn : Forall (@not_rollback row) (calls evs)).
    { eapply Forall_impl; [| exact Hst]. apply try_call_not_rollback. }
    split; [apply stops_none; exact Hn | intros _ _; exact Hn].
Qed.

Lemma save_loop_stops (ps : list payload) :
  forall tr res tr',
    db_for ps
      (fun payload =>
         db_bind (save_case respond (case_of payload)
                    (economic_effects payload) (technology_drivers payload))
                 (fun _ => db_ret tt)) tr = (res, tr') ->
    exists evs, tr' = tr ++ evs /\ stops_at_rollback res evs.
Proof.
  induction ps as [| p ps IH]; intros tr res tr' H; simpl in H.
  - apply db_ret_inv in H as [-> ->]. exists [].
    rewrite app_nil_r. split; [reflexivity |].
    apply stops_none. constructor.
  - apply db_bind_inv in H as [(e & H & ->) | ([] & tr1 & H1 & H)].
    + (* this save raised: the loop ends *)
      apply db_bind_inv in H as [(e1 & H & _) | (c & tr1 & _ & H)];
        [| apply db_ret_inv in H as [H _]; discriminate].
      apply save_case_stops in H as (evs & -> & Hst & _).
      exists evs. split; [reflexivity |].
      intros pre o rest E. destruct (Hst pre o rest E) as [Hc _].
      split; [exact Hc | eauto].
    + (* this save returned: it made no rollback *)
      apply db_bind_inv in H1 as [(e1 & _ & E) | (c & tr2 & Hs & H1)];
        [discriminate |].
      apply db_ret_inv in H1 as [_ ->].
      apply save_case_stops in Hs as (evs1 & -> & _ & Hn).
      apply IH in H as (evs2 & -> & Hst).
      exists (evs1 ++ evs2). split; [symmetry; apply app_assoc |].
      apply stops_app_before; [apply (Hn c eq_refl) | exact Hst].
Qed.

(** X18: once [save_case] has called [rollback], [_persist_cases] saves
    nothing more: the only calls after a rollback are the error message
    and the [close] of the session, so that the payloads after the one
    that failed are neither looked up, added nor committed; and
    [_persist_cases] then raises. *)
Theorem _persist_cases_stops_after_rollback (str_lower : str -> str)
    (agent_output : str) (tr : list (event row)) :
  exists res evs,
    _persist_cases respond str_lower agent_output tr = (res, tr ++ evs) /\
    forall pre o rest,
      evs = pre ++ (Rollback, o) :: rest ->
      Forall (@is_closing_call row) (calls rest) /\ exists e, res = inl e.
Proof.
  destruct (_persist_cases respond str_lower agent_output tr)
    as [res tr'] eqn:H.
  unfold _persist_cases, try_finally in H.
  apply db_bind_inv in H as [(e & H & ->) | (r & tr1 & H1 & H)].
  - apply db_call_inv in H as (o & -> & _).
    exists (inl e), [(SessionLocal, o)]. split; [reflexivity |].
    apply stops_none. repeat constructor.
  - apply db_call_inv in H1 as (o1 & -> & _).
    destruct (db_bind _ _ (tr ++ [(SessionLocal, o1)]))
      as [res1 tr2] eqn:Hbody.
    assert (Hmid : exists mid,
               tr2 = (tr ++ [(SessionLocal, o1)]) ++ mid /\
               stops_at_rollback res1 mid).
    { apply db_bind_inv in Hbody as [(e & Hp & ->) | (ps & tr3 & Hp & Hl)].
      - destruct (parse_agent_output str_lower agent_output);
          [| discriminate]. injection Hp as _ <-.
        exists []. rewrite app_nil_r. split; [reflexivity |].
        apply stops_none. constructor.
      - destruct (parse_agent_output str_lower agent_output);
          [discriminate |]. injection Hp as _ <-.
        apply save_loop_stops in Hl. exact Hl. }
    destruct Hmid as (mid & -> & Hst).
    destruct (db_bind (db_call respond Close) _ _) as [fin tr3] eqn:Hfin.
    assert (Hclose : exists o, tr3 = ((tr ++ [(SessionLocal, o1)]) ++ mid)
                                     ++ [(Close, o)]).
    { apply db_bind_inv in Hfin as [(e & Hc & _) | (x & tr4 & Hc & Hr)].
      - apply db_call_inv in Hc as (o & -> & _). eauto.
      - apply db_call_inv in Hc as (o & -> & _).
        apply db_ret_inv in Hr as [_ ->]. eauto. }
    destruct Hclose as (o & ->).
    exists res, ([(SessionLocal, o1)] ++ mid ++ [(Close, o)]).
    split.
    { destruct fin; injection H as <- <-;
        rewrite <- !app_assoc; reflexivity. }
    apply stops_app_before; [repeat constructor |].
    apply (stops_app_after (res := res1)); [exact Hst | repeat constructor |].
    intros e ->. destruct fin; injection H as <- _; eauto.
Qed.
End RepositoryTraces.
